(** * Phase-Bifurcation-Cosmogenesis: classification and boundary extraction

    A shallow embedding of the analysis scripts of the repository
    (trajectory classifier, parameter sweep, continuous and discrete
    boundary extractors, grid assembly) together with the properties
    stated about them.

    Number model.  Python and NumPy floats are modelled by the real
    numbers [R]: arithmetic is exact, [np.pi] is [PI], [np.sqrt] is
    [sqrt].  Where the scripts themselves test for or produce the
    not-a-number value (CSV parsing, [math.isnan], [np.full(.., np.nan)],
    the mean of an empty array) the value is a [pyfloat], a real or [NaN].
    Infinities and rounding are outside this model.  Where a property
    turns on rounding itself, the code is given a second time over IEEE
    754 doubles (module [binary64], Rocq's primitive floats), with the
    arithmetic the interpreter performs.  Strings are Rocq strings, Python
    lists and one-dimensional arrays are lists, [None] is [None], and a
    raised exception is the [Raise] outcome. *)

From Stdlib Require Import Reals Lra Lia List Arith Bool ZArith Sorted.
From Stdlib Require Import Permutation.
From Stdlib Require PrimFloat SpecFloat FloatOps.
From Stdlib Require String.
Import String.StringSyntax.
Import ListNotations.
Delimit Scope string_scope with string.
Abbreviation string := String.string.
Open Scope R_scope.

(** Decimal constants of doubles are read as Python reads them, as the
    nearest double. *)
Set Warnings "-inexact-float".

(* ================================================================= *)
(** * Python values and effects *)

Module Py.

Inductive exn : Type :=
| IndexError
| ValueError
| RuntimeError
| SolverError
| KeyError
| TypeError.

(** The result of running a piece of Python: a value or a raised exception. *)
Inductive outcome (A : Type) : Type :=
| Ok (a : A)
| Raise (e : exn).
Arguments Ok {A} a.
Arguments Raise {A} e.

Definition bind {A B : Type} (c : outcome A) (k : A -> outcome B) : outcome B :=
  match c with
  | Ok a => k a
  | Raise e => Raise e
  end.

(** A float as the scripts see it: a number or NaN. *)
Inductive pyfloat : Type :=
| NaN
| Fin (r : R).

(** [math.isnan]. *)
Definition isnan (x : pyfloat) : bool :=
  match x with NaN => true | Fin _ => false end.

(** [x < y] on floats: false as soon as one side is NaN. *)
Definition flt (x y : pyfloat) : bool :=
  match x, y with
  | Fin a, Fin b => if Rlt_dec a b then true else false
  | _, _ => false
  end.

(** [x + y] and NumPy's [x / y] on floats, NaN propagating; [0/0] is NaN. *)
Definition fadd (x y : pyfloat) : pyfloat :=
  match x, y with
  | Fin a, Fin b => Fin (a + b)
  | _, _ => NaN
  end.

Definition fdiv (x y : pyfloat) : pyfloat :=
  match x, y with
  | Fin a, Fin b => if Req_dec_T b 0 then NaN else Fin (a / b)
  | _, _ => NaN
  end.

Definition fabs_sub (x : pyfloat) (c : R) : pyfloat :=
  match x with
  | Fin a => Fin (Rabs (a - c))
  | NaN => NaN
  end.

(** [np.mean] of a list of floats. *)
Definition np_mean_floats (l : list pyfloat) : pyfloat :=
  fdiv (fold_left fadd l (Fin 0)) (Fin (INR (length l))).

(** [a < b] on numbers, as a boolean. *)
Definition Rltb (a b : R) : bool := if Rlt_dec a b then true else false.

Definition is_empty {A : Type} (l : list A) : bool :=
  match l with [] => true | _ => false end.

(** [abs(x)] on floats. *)
Definition fabs (x : pyfloat) : pyfloat :=
  match x with
  | Fin a => Fin (Rabs a)
  | NaN => NaN
  end.

(** [a[i]] on a list: IndexError out of range. *)
Definition getitem {A : Type} (a : list A) (i : nat) : outcome A :=
  match nth_error a i with
  | Some x => Ok x
  | None => Raise IndexError
  end.

(** [a[idx]] with an index array (NumPy fancy indexing). *)
Fixpoint take {A : Type} (a : list A) (idx : list nat) : outcome (list A) :=
  match idx with
  | [] => Ok []
  | i :: rest =>
      bind (getitem a i) (fun x =>
      bind (take a rest) (fun xs => Ok (x :: xs)))
  end.

(** [sum(l)], [np.mean] and [np.std] of a non-empty array of numbers. *)
Definition sum (l : list R) : R := fold_right Rplus 0 l.

Definition mean (l : list R) : R := sum l / INR (length l).

Definition sq_dev (l : list R) : list R :=
  map (fun x => Rabs (x - mean l) * Rabs (x - mean l)) l.

(** [np.std(l)]: population standard deviation (ddof = 0). *)
Definition std (l : list R) : R := sqrt (mean (sq_dev l)).

(** [l.std(ddof=1)]: the divisor is [N - 1]. *)
Definition std_ddof1 (l : list R) : R :=
  sqrt (sum (sq_dev l) / (INR (length l) - 1)).

(** [np.mean] and [np.std] as floats: NaN on an empty array. *)
Definition np_mean (l : list R) : pyfloat :=
  match l with [] => NaN | _ => Fin (mean l) end.

Definition np_std (l : list R) : pyfloat :=
  match l with [] => NaN | _ => Fin (std l) end.

(** [np.mod(x, p)] for a positive period: [x - floor(x / p) * p]. *)
Definition np_mod (x p : R) : R := x - IZR (Int_part (x / p)) * p.

(** [np.sign]. *)
Definition np_sign (x : R) : R :=
  if Rlt_dec x 0 then -1 else if Rlt_dec 0 x then 1 else 0.

(** Sorting by a numeric key: insertion sort, ascending, elements with
    equal keys kept in their original order.  It stands for [sorted],
    [np.sort], [np.argsort] and pandas' [sort_values]. *)
Fixpoint insert_by {A : Type} (key : A -> R) (x : A) (l : list A) : list A :=
  match l with
  | [] => [x]
  | y :: ys =>
      if Rle_dec (key x) (key y) then x :: y :: ys
      else y :: insert_by key x ys
  end.

Definition sort_by {A : Type} (key : A -> R) (l : list A) : list A :=
  fold_right (insert_by key) [] l.

Definition sorted (l : list R) : list R := sort_by (fun x => x) l.

(** [np.argsort(v)]: the indices of [v] in ascending order of value.
    NumPy fixes no order among equal values; the insertion sort keeps
    theirs, and the scripts sort coordinates that are distinct. *)
Definition argsort (v : list R) : list nat :=
  sort_by (fun i => nth i v 0) (seq 0 (length v)).

(** [set(l)] as the list of distinct values (the order is immaterial, the
    scripts sort it at once). *)
Fixpoint mem (x : R) (l : list R) : bool :=
  match l with
  | [] => false
  | y :: ys => if Req_dec_T y x then true else mem x ys
  end.

Fixpoint distinct (l : list R) : list R :=
  match l with
  | [] => []
  | x :: xs => if mem x xs then distinct xs else x :: distinct xs
  end.

(** [l.index(x)]: position of the first occurrence. *)
Fixpoint index (x : R) (l : list R) : option nat :=
  match l with
  | [] => None
  | y :: ys => if Req_dec_T y x then Some 0%nat else option_map S (index x ys)
  end.

(** A [defaultdict(list)]: keys in insertion order, [d[k].append(v)] and
    [d.get(k, [])]. *)
Section Defaultdict.
Context {K V : Type}.
Variable K_eq_dec : forall a b : K, {a = b} + {a <> b}.

Fixpoint dict_append (k : K) (v : V) (d : list (K * list V))
  : list (K * list V) :=
  match d with
  | [] => [(k, [v])]
  | (k', vs) :: d' =>
      if K_eq_dec k' k then (k', vs ++ [v]) :: d'
      else (k', vs) :: dict_append k v d'
  end.

Fixpoint dict_get (d : list (K * list V)) (k : K) : list V :=
  match d with
  | [] => []
  | (k', vs) :: d' => if K_eq_dec k' k then vs else dict_get d' k
  end.
End Defaultdict.

Definition pair_eq_dec (a b : R * R) : {a = b} + {a <> b}.
Proof.
  destruct a as [a1 a2], b as [b1 b2].
  destruct (Req_dec_T a1 b1) as [H1 | H1].
  - destruct (Req_dec_T a2 b2) as [H2 | H2].
    + left; congruence.
    + right; congruence.
  - right; congruence.
Defined.
Arguments pair_eq_dec : simpl never.

End Py.
Import Py.

Notation "x <- c ;; k" := (bind c (fun x => k))
  (at level 61, c at next level, right associativity).

(* ================================================================= *)
(** * Double precision *)

(** Python floats as they are: IEEE 754 binary64 numbers, Rocq's primitive
    floats, whose sums, products, quotients and square roots are rounded to
    the nearest double. *)
Module binary64.
Import PrimFloat.
Local Open Scope float_scope.

Abbreviation float := PrimFloat.float.

(** A finite double counted in units of 2^-1074, of which every finite
    double is a whole number; [None] for NaN and the infinities. *)
Definition units (x : float) : option Z :=
  match FloatOps.Prim2SF x with
  | SpecFloat.S754_zero _ => Some 0%Z
  | SpecFloat.S754_finite s m e =>
      Some (SpecFloat.cond_Zopp s (Z.pos m * 2 ^ (e + 1074)))%Z
  | _ => None
  end.

(** The double nearest to [n] units (ties to even); a zero takes the sign
    given. *)
Definition of_units (negative_zero : bool) (n : Z) : float :=
  FloatOps.SF2Prim
    (SpecFloat.binary_normalize FloatOps.prec FloatOps.emax n (-1074)
       negative_zero).

(** [float(k)] of an integer. *)
Definition of_int (k : Z) : float :=
  FloatOps.SF2Prim
    (SpecFloat.binary_normalize FloatOps.prec FloatOps.emax k 0 false).

(** [int(x)] of a finite double: truncation toward zero. *)
Definition int (x : float) : Z :=
  match units x with
  | Some u => Z.quot u (2 ^ 1074)
  | None => 0%Z
  end.

(** [np.pi]. *)
Definition np_pi : float := 0x1.921fb54442d18p+1.

(** [np.mod(a, b)]: the remainder of the floor division of the two
    numbers, taken exactly and rounded once, a zero with the sign of [b].
    NumPy computes it as the C [fmod], which is exact, and adds [b] when
    that has the other sign than [b]: one rounding of the same number. *)
Definition np_mod (a b : float) : float :=
  match units a, units b with
  | Some n, Some d =>
      if (d =? 0)%Z then nan else of_units (get_sign b) (n mod d)
  | Some n, None =>
      if is_infinity b then
        if (n =? 0)%Z then (if get_sign b then neg_zero else zero)
        else if xorb (get_sign b) (n <? 0)%Z then b else a
      else nan
  | None, _ => nan
  end.

(** [np.mean] and [np.std].  The sum is taken from left to right, as NumPy
    takes it over fewer than 8 values; it adds a longer array in blocks. *)
Definition np_sum (l : list float) : float := fold_left add l 0.

Definition np_mean (l : list float) : float :=
  np_sum l / of_int (Z.of_nat (length l)).

Definition np_std (l : list float) : float :=
  let m := np_mean l in
  sqrt (np_mean (map (fun x => (x - m) * (x - m)) l)).

End binary64.

(* ================================================================= *)
(** * compute_mphi_crit.py: aggregation and the continuous extractor *)

Module compute_mphi_crit.

Definition TARGET_PA : R := 0.5.

(** A CSV cell as [csv.DictReader] delivers it and [float()] reads it.
    The two coordinate columns parse to numbers, the others to floats. *)
Inductive cell (V : Type) : Type :=
| Absent            (* the column does not exist *)
| Blank             (* the empty string, or a field the line lacks *)
| Garbled           (* text that [float()] rejects *)
| Parsed (v : V).   (* text that [float()] accepts *)
Arguments Absent {V}.
Arguments Blank {V}.
Arguments Garbled {V}.
Arguments Parsed {V} v.

Record csv_row : Type := {
  csv_m_phi : cell R;
  csv_k_rot : cell R;
  csv_P_A : cell pyfloat;
  csv_N_total : cell pyfloat;
  csv_N_A : cell pyfloat
}.

Record row : Type := {
  m_phi : R;
  k_rot : R;
  P_A : pyfloat
}.

(** The body of the inner loop of [read_sector_csvs]: the record a CSV row
    contributes, if any. *)
Definition read_row (r : csv_row) : option row :=
  match csv_m_phi r with
  | Parsed m =>
      match (match csv_k_rot r with
             | Absent => Some 0
             | Parsed k => Some k
             | _ => None
             end) with
      | None => None
      | Some k =>
          match csv_P_A r with
          | Parsed p => Some {| m_phi := m; k_rot := k; P_A := p |}
          | Garbled => None
          | _ =>
              match csv_N_total r, csv_N_A r with
              | Parsed N_total, Parsed N_A =>
                  if flt (Fin 0) N_total
                  then Some {| m_phi := m; k_rot := k;
                               P_A := fdiv N_A N_total |}
                  else None
              | _, _ => None
              end
          end
      end
  | _ => None
  end.

Fixpoint read_sector_csvs (rows : list csv_row) : list row :=
  match rows with
  | [] => []
  | r :: rest =>
      match read_row r with
      | Some x => x :: read_sector_csvs rest
      | None => read_sector_csvs rest
      end
  end.

Definition group_rows (rows : list row) : list (R * list R) :=
  fold_left
    (fun groups r =>
       match P_A r with
       | Fin p => dict_append Req_dec_T (m_phi r) p groups
       | NaN => groups
       end)
    rows [].

Definition compute_PA_vs_mphi (rows : list row)
  : list R * list R * list R :=
  let groups := group_rows rows in
  let mphi_vals := sorted (map fst groups) in
  let PA_means :=
    map (fun mphi => mean (dict_get Req_dec_T groups mphi)) mphi_vals in
  let PA_stds :=
    map (fun mphi =>
           let arr := dict_get Req_dec_T groups mphi in
           if (1 <? length arr)%nat then std_ddof1 arr else 0)
        mphi_vals in
  (mphi_vals, PA_means, PA_stds).

(** The [for i in range(len(mphi) - 1)] loop of [find_mphi_crit]. *)
Fixpoint crossing_loop (mphi PA sign : list R) (target : R) (idxs : list nat)
  : option R :=
  match idxs with
  | [] => None
  | i :: rest =>
      if Rlt_dec (nth i sign 0 * nth (S i) sign 0) 0 then
        let m1 := nth i mphi 0 in
        let m2 := nth (S i) mphi 0 in
        let p1 := nth i PA 0 in
        let p2 := nth (S i) PA 0 in
        if Req_dec_T p2 p1 then crossing_loop mphi PA sign target rest
        else
          let frac := (target - p1) / (p2 - p1) in
          Some (m1 + frac * (m2 - m1))
      else crossing_loop mphi PA sign target rest
  end.

Definition find_mphi_crit (mphi_vals PA_means : list R) (target : R)
  : outcome (option R) :=
  let idx_sort := argsort mphi_vals in
  mphi <- take mphi_vals idx_sort ;;
  PA <- take PA_means idx_sort ;;
  let diff := map (fun p => p - target) PA in
  let sign := map np_sign diff in
  Ok (crossing_loop mphi PA sign target (seq 0 (length mphi - 1))).

(** What [main] prints as its result. *)
Inductive report : Type :=
| Crossing (m_phi_crit : R)
| NoCrossing.

(** The summary written to [mphi_crit_summary.json]. *)
Record summary : Type := {
  sum_m_phi_vals : list R;
  sum_PA_means : list R;
  sum_PA_stds : list R;
  sum_target_PA : R;
  sum_m_phi_crit : option R
}.

(** The truth value of [mphi_crit] in [if mphi_crit:]: [None] and [0.0]
    are false. *)
Definition truth (mphi_crit : option R) : bool :=
  match mphi_crit with
  | Some v => if Req_dec_T v 0 then false else true
  | None => false
  end.

(** [main], from the CSV rows of the files found (there is at least one
    file) to the printed result and the summary; the figure is left out. *)
Definition main (csv_rows : list csv_row) : outcome (report * summary) :=
  let rows := read_sector_csvs csv_rows in
  let '(mphi_vals, PA_means, PA_stds) := compute_PA_vs_mphi rows in
  mphi_crit <- find_mphi_crit mphi_vals PA_means TARGET_PA ;;
  let printed :=
    if truth mphi_crit then
      match mphi_crit with
      | Some v => Crossing v
      | None => NoCrossing
      end
    else NoCrossing in
  Ok (printed,
      {| sum_m_phi_vals := mphi_vals; sum_PA_means := PA_means;
         sum_PA_stds := PA_stds; sum_target_PA := TARGET_PA;
         sum_m_phi_crit := mphi_crit |}).

End compute_mphi_crit.

(* ================================================================= *)
(** * phase_evolution_ode.py: the integrator front end *)

Module phase_evolution_ode.





(** The initial value problem handed to SciPy's [solve_ivp]. *)
Record ivp : Type := {
  ivp_m_phi : R;
  ivp_k_rot : R;
  ivp_q : R;
  ivp_H0 : R;
  ivp_y0 : R * R;
  ivp_a_span : R * R;
  ivp_n_eval : nat;
  ivp_rtol : R;
  ivp_atol : R
}.

(** What [solve_ivp] hands back when it returns: the evaluation points
    reached, the two solution components there, and the [success] flag. *)
Record ode_result : Type := {
  sol_t : list R;
  sol_y0 : list R;
  sol_y1 : list R;
  sol_success : bool
}.

(** The solver is an external collaborator: it returns or it raises. *)
Definition solver : Type := ivp -> outcome ode_result.

Definition run_phase_evolution (solve_ivp : solver)
    (m_phi k_rot q delta_phi_ini delta_phidot_ini a_ini a_max : R)
    (n_steps : nat)
  : outcome (list R * list R * list R) :=
  sol <- solve_ivp {| ivp_m_phi := m_phi; ivp_k_rot := k_rot; ivp_q := q;
                      ivp_H0 := 1;
                      ivp_y0 := (delta_phi_ini, delta_phidot_ini);
                      ivp_a_span := (a_ini, a_max);
                      ivp_n_eval := n_steps;
                      ivp_rtol := 1e-7; ivp_atol := 1e-9 |} ;;
  Ok (sol_t sol, sol_y0 sol, sol_y1 sol).



End phase_evolution_ode.

(* ================================================================= *)
(** * phase_sector_scan.py: the three-way classifier and the sweep *)

Module phase_sector_scan.
Import phase_evolution_ode.

(** [int(0.9 * n)]. *)
Definition tail_start (n : nat) : nat := (9 * n / 10)%nat.

Definition classify_phase_trajectory (delta_phi_arr : list R) : string :=
  let n := length delta_phi_arr in
  if (n <? 50)%nat then "C"%string
  else
    let tail := skipn (tail_start n) delta_phi_arr in
    let phi_mod := map (fun x => np_mod x (2.0 * PI)) tail in
    let phi_mean := np_mean phi_mod in
    let phi_std := np_std phi_mod in
    let pi := PI in
    let tol_conv := 0.08 in
    let tol_pi := 0.25 in
    if flt phi_std (Fin tol_conv) && flt phi_mean (Fin (pi - tol_pi))
    then "A"%string
    else if flt phi_std (Fin tol_conv)
            && flt (fabs_sub phi_mean pi) (Fin tol_pi)
    then "B"%string
    else "C"%string.

(** The classifier on doubles, as the interpreter runs it. *)
Module double.
Import PrimFloat binary64.
Local Open Scope float_scope.

(** [int(0.9 * n)]. *)
Definition tail_start (n : nat) : nat :=
  Z.to_nat (int (0.9 * of_int (Z.of_nat n))).

Definition classify_phase_trajectory (delta_phi_arr : list float) : string :=
  let n := length delta_phi_arr in
  if (n <? 50)%nat then "C"%string
  else
    let tail := skipn (tail_start n) delta_phi_arr in
    let phi_mod := map (fun x => np_mod x (2.0 * np_pi)) tail in
    let phi_mean := np_mean phi_mod in
    let phi_std := np_std phi_mod in
    let pi := np_pi in
    let tol_conv := 0.08 in
    let tol_pi := 0.25 in
    if (phi_std <? tol_conv) && (phi_mean <? pi - tol_pi)
    then "A"%string
    else if (phi_std <? tol_conv) && (abs (phi_mean - pi) <? tol_pi)
    then "B"%string
    else "C"%string.

End double.

Definition m_phi_list : list R := [0.2; 0.5; 1.0; 2.0; 3.0].
Definition k_rot_list : list R := [0.0; 0.1; 0.2; 0.5].
Definition q_list : list R := [1.0].
Definition delta_phi_ini_list : list R := [0.01; PI * 0.5; PI * 0.9].

(** One line of [phase_sectors_summary.csv] (the trajectory file name, a
    formatted string, is left out). *)
Record summary_row : Type := {
  row_m_phi : R;
  row_k_rot : R;
  row_q : R;
  row_delta_phi_ini : R;
  row_sector : string;
  row_phi_mean_tail : pyfloat;
  row_phi_std_tail : pyfloat
}.

(** The four nested [for] loops, outermost first. *)
Definition grid_points (ms ks qs ds : list R) : list (R * R * R * R) :=
  flat_map (fun m =>
  flat_map (fun k =>
  flat_map (fun q =>
  map (fun d => (m, k, q, d)) ds) qs) ks) ms.

(** The body of the innermost loop from the integration to the row. *)
Definition scan_point (solve_ivp : solver) (pt : R * R * R * R)
  : outcome summary_row :=
  let '(m_phi, k_rot, q, delta_phi_ini) := pt in
  traj <- run_phase_evolution solve_ivp m_phi k_rot q delta_phi_ini 0.0
            1e-3 10.0 2000 ;;
  let '(a_arr, dphi_arr, dphidot_arr) := traj in
  let phi_tail :=
    map (fun x => np_mod x (2 * PI))
        (skipn (tail_start (length a_arr)) dphi_arr) in
  let phi_mean := np_mean phi_tail in
  let phi_std := np_std phi_tail in
  let sector := classify_phase_trajectory dphi_arr in
  Ok {| row_m_phi := m_phi; row_k_rot := k_rot; row_q := q;
        row_delta_phi_ini := delta_phi_ini; row_sector := sector;
        row_phi_mean_tail := phi_mean; row_phi_std_tail := phi_std |}.

(** The main scanning loop.  The state is the list of rows written to the
    summary file so far; an exception ends the script and leaves the rows
    already written. *)
Fixpoint scan_loop (solve_ivp : solver) (pts : list (R * R * R * R))
    (written : list summary_row) : list summary_row * outcome unit :=
  match pts with
  | [] => (written, Ok tt)
  | pt :: rest =>
      match scan_point solve_ivp pt with
      | Ok r => scan_loop solve_ivp rest (written ++ [r])
      | Raise e => (written, Raise e)
      end
  end.

Definition main (solve_ivp : solver) : list summary_row * outcome unit :=
  scan_loop solve_ivp
    (grid_points m_phi_list k_rot_list q_list delta_phi_ini_list) [].

End phase_sector_scan.

(* ================================================================= *)
(** * phase_sector_boundary_fine_scan.py: ordered A -> C transition *)

Module phase_sector_boundary_fine_scan.
Import phase_evolution_ode.

Definition q : R := 1.0.
Definition delta_phi_ini : R := 0.01.

Definition m_values : list R :=
  [0.40; 0.45; 0.50; 0.55; 0.60; 1.80; 1.90; 2.00; 2.10; 2.20].

Definition k_min : R := 0.00.
Definition k_max : R := 0.60.
Definition N_k : nat := 80.

(** [np.linspace(k_min, k_max, N_k)]. *)
Definition k_values : list R :=
  map (fun i => k_min + INR i * ((k_max - k_min) / INR (N_k - 1)))
      (seq 0 N_k).

(** The two-way classifier of this script: [phi_array[-200:]]. *)
Definition classify_sector (phi_array : list R) : string :=
  let tail := skipn (length phi_array - 200) phi_array in
  let mean_tail := np_mean tail in
  let std_tail := np_std tail in
  if flt mean_tail (Fin 0.5) && flt std_tail (Fin 0.1)
  then "A"%string else "C"%string.

(** [[i for i, s in enumerate(sector_list) if s == lbl]]. *)
Definition indices_of (lbl : string) (sector_list : list string) : list nat :=
  map fst
      (filter (fun p => String.eqb (snd p) lbl)
              (combine (seq 0 (length sector_list)) sector_list)).

(** [max] and [min] of a non-empty list of indices. *)
Definition max_index (l : list nat) : nat := fold_right Nat.max 0%nat l.

Definition min_index (l : list nat) : nat :=
  match l with
  | [] => 0%nat
  | x :: xs => fold_right Nat.min x xs
  end.

(** The transition detection for one value of [m_phi]: [None] stands for
    the two [continue] branches ("no boundary for this row"). *)
Definition detect_transition (k_values : list R) (sector_list : list string)
  : outcome (option R) :=
  let idx_A := indices_of "A"%string sector_list in
  let idx_C := indices_of "C"%string sector_list in
  if is_empty idx_A || is_empty idx_C then Ok None
  else
    let last_A := max_index idx_A in
    let first_C := min_index idx_C in
    if (first_C <=? last_A)%nat then Ok None
    else
      k_last_A <- getitem k_values last_A ;;
      k_first_C <- getitem k_values first_C ;;
      let k_crit := 0.5 * (k_last_A + k_first_C) in
      Ok (Some k_crit).

(** The labels of one row: one integration and classification per [k]. *)
Fixpoint sector_row (solve_ivp : solver) (m : R) (ks : list R)
  : outcome (list string) :=
  match ks with
  | [] => Ok []
  | k :: rest =>
      traj <- run_phase_evolution solve_ivp m k q delta_phi_ini 0.0
                1e-3 10.0 2000 ;;
      let '(a_arr, dphi_arr, dphidot_arr) := traj in
      let s := classify_sector dphi_arr in
      tl <- sector_row solve_ivp m rest ;;
      Ok (s :: tl)
  end.

(** The scan over [m_values], collecting [boundary_points]. *)
Fixpoint scan (solve_ivp : solver) (ms ks : list R)
  : outcome (list (R * R)) :=
  match ms with
  | [] => Ok []
  | m :: rest =>
      sector_list <- sector_row solve_ivp m ks ;;
      found <- detect_transition ks sector_list ;;
      tl <- scan solve_ivp rest ks ;;
      match found with
      | Some k_crit => Ok ((m, k_crit) :: tl)
      | None => Ok tl
      end
  end.

End phase_sector_boundary_fine_scan.

(* ================================================================= *)
(** * phase_sector_boundary_microfine.py: any change of label *)

Module phase_sector_boundary_microfine.
Import phase_evolution_ode.

Definition delta_phi_ini : R := 2.827433388.
Definition delta_phidot_ini : R := 0.
Definition q : R := 1.0.
Definition a_ini : R := 1e-3.
Definition a_max : R := 10.0.

(** [int(len(dphi) * (1 - tail_frac))] with [tail_frac = 0.15]. *)
Definition tail_start (n : nat) : nat := (17 * n / 20)%nat.

Definition classify_sector (a dphi : list R) : string :=
  let tail := skipn (tail_start (length dphi)) dphi in
  let mean_tail := np_mean tail in
  let std_tail := np_std tail in
  if flt std_tail (Fin 0.05) then
    if flt (fabs mean_tail) (Fin 2.5) then "A"%string else "B"%string
  else "C"%string.

(** What the script has produced so far: the lines appended to
    [boundary_microfine.csv] and the list [boundary_points]. *)
Record state : Type := {
  csv_lines : list (R * R * string);
  boundary_points : list (R * R)
}.

(** The inner loop over [k_values] for one [m_phi]; [last_sector] is
    [None] at the start of the row.  An exception ends the script and
    leaves the state reached. *)
Fixpoint row_loop (solve_ivp : solver) (m_phi : R) (ks : list R)
    (last_sector : option string) (st : state) : state * outcome unit :=
  match ks with
  | [] => (st, Ok tt)
  | k_rot :: rest =>
      match run_phase_evolution solve_ivp m_phi k_rot q delta_phi_ini
              delta_phidot_ini a_ini a_max 1500 with
      | Raise e => (st, Raise e)
      | Ok (a, dphi, _) =>
          let sector := classify_sector a dphi in
          let lines := csv_lines st ++ [(m_phi, k_rot, sector)] in
          let points :=
            match last_sector with
            | Some s =>
                if negb (String.eqb sector s)
                then boundary_points st ++ [(m_phi, k_rot)]
                else boundary_points st
            | None => boundary_points st
            end in
          row_loop solve_ivp m_phi rest (Some sector)
                   {| csv_lines := lines; boundary_points := points |}
      end
  end.

(** The outer loop over [m_values]. *)
Fixpoint main_loop (solve_ivp : solver) (ms ks : list R) (st : state)
  : state * outcome unit :=
  match ms with
  | [] => (st, Ok tt)
  | m_phi :: rest =>
      match row_loop solve_ivp m_phi ks None st with
      | (st', Ok _) => main_loop solve_ivp rest ks st'
      | (st', Raise e) => (st', Raise e)
      end
  end.

End phase_sector_boundary_microfine.

(* ================================================================= *)
(** * phase_sector_boundary_from_zoom.py: pairwise A-C adjacency *)

Module phase_sector_boundary_from_zoom.

Record sample : Type := {
  m_phi : R;
  Delta_phi_ini : R;
  sector : string
}.

(** [data["sector"].map(sector_map)]: a label outside the map becomes NaN,
    here [None]. *)
Definition sector_map (s : string) : option nat :=
  if String.eqb s "A" then Some 0%nat
  else if String.eqb s "B" then Some 1%nat
  else if String.eqb s "C" then Some 2%nat
  else None.

(** Equality of two codes; NaN equals no number. *)
Definition code_eqb (a b : option nat) : bool :=
  match a, b with
  | Some x, Some y => Nat.eqb x y
  | _, _ => false
  end.

(** [set(a) == set(b)] for sets written as lists of their elements. *)
Definition set_eqb (a b : list (option nat)) : bool :=
  forallb (fun x => existsb (code_eqb x) b) a
  && forallb (fun y => existsb (code_eqb y) a) b.

(** The [for j in range(len(sec_vals) - 1)] loop. *)
Fixpoint pair_loop (m : R) (dphi_vals : list R) (sec_vals : list (option nat))
    (js : list nat) : list (R * R) :=
  match js with
  | [] => []
  | j :: rest =>
      let s1 := nth j sec_vals None in
      let s2 := nth (S j) sec_vals None in
      if set_eqb [s1; s2] [Some 0%nat; Some 2%nat] then
        let k_est := (nth j dphi_vals 0 + nth (S j) dphi_vals 0) / 2.0 in
        (m, k_est) :: pair_loop m dphi_vals sec_vals rest
      else pair_loop m dphi_vals sec_vals rest
  end.

(** The boundary points of one group, given in the order of the scan. *)
Definition row_boundary (m : R) (df_m : list sample) : list (R * R) :=
  let dphi_vals := map Delta_phi_ini df_m in
  let sec_vals := map (fun r => sector_map (sector r)) df_m in
  pair_loop m dphi_vals sec_vals (seq 0 (length sec_vals - 1)).

Definition boundary_points (data : list sample) : list (R * R) :=
  let m_values := sorted (distinct (map m_phi data)) in
  flat_map
    (fun m =>
       let df_m :=
         sort_by Delta_phi_ini
                 (filter
                    (fun r => if Req_dec_T (m_phi r) m then true else false)
                    data) in
       row_boundary m df_m)
    m_values.

End phase_sector_boundary_from_zoom.

(* ================================================================= *)
(** * phase_sector_map_2D.py: the continuous grid *)

Module phase_sector_map_2D.

Definition group_cells (rows : list (R * R * pyfloat))
  : list (R * R * list pyfloat) :=
  fold_left
    (fun grid r =>
       let '(m_phi, k_rot, P_A) := r in
       dict_append pair_eq_dec (m_phi, k_rot) P_A grid)
    rows [].

Definition build_grid (rows : list (R * R * pyfloat))
  : list R * list R * list (list pyfloat) :=
  let grid := group_cells rows in
  let mphi_vals := sorted (distinct (map (fun c => fst (fst c)) grid)) in
  let krot_vals := sorted (distinct (map (fun c => snd (fst c)) grid)) in
  let PA_grid :=
    map (fun k_rot =>
           map (fun m_phi =>
                  let vals := dict_get pair_eq_dec grid (m_phi, k_rot) in
                  if is_empty vals then NaN else np_mean_floats vals)
               mphi_vals)
        krot_vals in
  (mphi_vals, krot_vals, PA_grid).

End phase_sector_map_2D.

(* ================================================================= *)
(** * phase_sector_map.py: the categorical grid *)

Module phase_sector_map.

Record summary : Type := {
  m_phi : R;
  k_rot : R;
  q : R;
  delta_phi_ini : R;
  sector : string
}.

Definition q_plot : R := 1.0.
Definition target_ini : R := 0.01.

(** [code.get(sector, 2)] with [code = {"A": 0, "B": 1, "C": 2}]. *)
Definition code (s : string) : Z :=
  if String.eqb s "A" then 0%Z
  else if String.eqb s "B" then 1%Z
  else 2%Z.

(** [np.zeros((rows, cols), dtype=int)]. *)
Definition zeros (rows cols : nat) : list (list Z) :=
  repeat (repeat 0%Z cols) rows.

(** [l[i] = v] where [i] is in range. *)
Fixpoint set_item {A : Type} (l : list A) (i : nat) (v : A) : list A :=
  match l, i with
  | [], _ => []
  | _ :: xs, O => v :: xs
  | x :: xs, S i' => x :: set_item xs i' v
  end.

(** [grid[i, j] = v]. *)
Definition set_cell (grid : list (list Z)) (i j : nat) (v : Z)
  : list (list Z) :=
  match nth_error grid i with
  | Some line => set_item grid i (set_item line j v)
  | None => grid
  end.

(** [l.index(x)], raising ValueError when [x] is not in [l]. *)
Definition index_of (x : R) (l : list R) : outcome nat :=
  match index x l with
  | Some i => Ok i
  | None => Raise ValueError
  end.

(** The loop filling the grid from [rows_map]. *)
Fixpoint fill (m_list k_list : list R) (rows_map : list summary)
    (grid : list (list Z)) : outcome (list (list Z)) :=
  match rows_map with
  | [] => Ok grid
  | r :: rest =>
      i <- index_of (m_phi r) m_list ;;
      j <- index_of (k_rot r) k_list ;;
      fill m_list k_list rest (set_cell grid i j (code (sector r)))
  end.

Definition sector_grid (rows : list summary)
  : outcome (list R * list R * list (list Z)) :=
  let rows_q := filter (fun r => Rltb (Rabs (q r - q_plot)) 1e-9) rows in
  if is_empty rows_q then Raise RuntimeError
  else
    let m_list := sorted (distinct (map m_phi rows_q)) in
    let k_list := sorted (distinct (map k_rot rows_q)) in
    let rows_map :=
      filter (fun r => Rltb (Rabs (delta_phi_ini r - target_ini)) 1e-6)
             rows_q in
    if is_empty rows_map then Raise RuntimeError
    else
      grid <- fill m_list k_list rows_map
                (zeros (length m_list) (length k_list)) ;;
      Ok (m_list, k_list, grid).

(** A numeric field of a row as [csv.DictReader] delivers it and the
    script reads it with [float(r[name])].  Text that [float()] reads as
    NaN or as an infinity is outside the number model. *)
Inductive number_field : Type :=
| NoColumn          (* the header lacks the column: [r[name]] is a KeyError *)
| NoValue           (* the line is too short: the value is [None] *)
| NotANumber        (* text that [float()] rejects *)
| Number (v : R).   (* text that [float()] reads as [v] *)

(** The label field, which is looked up but not converted. *)
Inductive label_field : Type :=
| NoLabelColumn
| NoLabel
| Label (s : string).

Record csv_row : Type := {
  csv_m_phi : number_field;
  csv_k_rot : number_field;
  csv_delta_phi_ini : number_field;
  csv_sector : label_field;
  csv_q : number_field
}.

(** [float(r[name])]. *)
Definition float_of (f : number_field) : outcome R :=
  match f with
  | NoColumn => Raise KeyError
  | NoValue => Raise TypeError
  | NotANumber => Raise ValueError
  | Number v => Ok v
  end.

(** [r["sector"]].  A label that is [None] is kept as the empty text:
    [code.get] gives 2 for both, and nothing else reads the label. *)
Definition label_of (f : label_field) : outcome string :=
  match f with
  | NoLabelColumn => Raise KeyError
  | NoLabel => Ok ""%string
  | Label s => Ok s
  end.

(** A row after the loop "Convert types": [q] is still as read. *)
Record typed_row : Type := {
  t_m_phi : R;
  t_k_rot : R;
  t_delta_phi_ini : R;
  t_sector : string;
  t_q : number_field
}.

(** The body of the loop "Convert types", and the loop. *)
Definition convert (r : csv_row) : outcome typed_row :=
  m <- float_of (csv_m_phi r) ;;
  k <- float_of (csv_k_rot r) ;;
  d <- float_of (csv_delta_phi_ini r) ;;
  s <- label_of (csv_sector r) ;;
  Ok {| t_m_phi := m; t_k_rot := k; t_delta_phi_ini := d;
        t_sector := s; t_q := csv_q r |}.

Fixpoint convert_types (rows : list csv_row) : outcome (list typed_row) :=
  match rows with
  | [] => Ok []
  | r :: rest =>
      x <- convert r ;;
      xs <- convert_types rest ;;
      Ok (x :: xs)
  end.

(** [float(r["q"])], which the comprehension selecting [rows_q] evaluates
    for every row in turn. *)
Fixpoint read_q (rows : list typed_row) : outcome (list summary) :=
  match rows with
  | [] => Ok []
  | r :: rest =>
      v <- float_of (t_q r) ;;
      xs <- read_q rest ;;
      Ok ({| m_phi := t_m_phi r; k_rot := t_k_rot r; q := v;
             delta_phi_ini := t_delta_phi_ini r; sector := t_sector r |}
            :: xs)
  end.

(** The script from the rows of the CSV reader to the grid. *)
Definition sector_map (rows : list csv_row)
  : outcome (list R * list R * list (list Z)) :=
  typed <- convert_types rows ;;
  rows_read <- read_q typed ;;
  sector_grid rows_read.

End phase_sector_map.

(* ================================================================= *)
(** * Vocabulary of the statements *)

(** Ascending order of keys, and of a coordinate sequence. *)
Definition key_le {A : Type} (key : A -> R) (x y : A) : Prop :=
  key x <= key y.

Definition ascending (l : list R) : Prop := Sorted Rle l.

(** The interpolated coordinate between two bracketing samples. *)
Definition interpolate (target c1 r1 c2 r2 : R) : R :=
  c1 + (target - r1) / (r2 - r1) * (c2 - c1).

(** [(response - target)] strictly changes sign between two samples. *)
Definition sign_change (target r1 r2 : R) : Prop :=
  np_sign (r1 - target) * np_sign (r2 - target) < 0.

(** No consecutive pair of the sample sequence is a strict sign change. *)
Fixpoint no_sign_change (target : R) (l : list (R * R)) : Prop :=
  match l with
  | (_, r1) :: (((_, r2) :: _) as tl) =>
      ~ sign_change target r1 r2 /\ no_sign_change target tl
  | _ => True
  end.

(** The samples in the order in which [find_mphi_crit] scans them. *)
Definition samples_in_order (coords resp : list R) : list (R * R) :=
  map (fun i => (nth i coords 0, nth i resp 0))
      (argsort coords).

(** The scan of [find_mphi_crit] read off the sample sequence itself. *)
Fixpoint scan_pairs (target : R) (l : list (R * R)) : option R :=
  match l with
  | (c1, r1) :: (((c2, r2) :: _) as tl) =>
      if Rlt_dec (np_sign (r1 - target) * np_sign (r2 - target)) 0 then
        if Req_dec_T r2 r1 then scan_pairs target tl
        else Some (interpolate target c1 r1 c2 r2)
      else scan_pairs target tl
  | _ => None
  end.

(** Position [i] holds the last (first) occurrence of a label in a row. *)
Definition last_index_of (lbl : string) (l : list string) (i : nat) : Prop :=
  nth_error l i = Some lbl
  /\ forall j, (i < j)%nat -> nth_error l j <> Some lbl.

Definition first_index_of (lbl : string) (l : list string) (j : nat) : Prop :=
  nth_error l j = Some lbl
  /\ forall i, (i < j)%nat -> nth_error l i <> Some lbl.

(** The two labels are exactly A and C, in either order. *)
Definition is_AC_pair (s1 s2 : string) : bool :=
  (String.eqb s1 "A" && String.eqb s2 "C")
  || (String.eqb s1 "C" && String.eqb s2 "A").

(** One midpoint for every adjacent pair of samples labelled A and C. *)
Fixpoint adjacent_AC (m : R) (l : list phase_sector_boundary_from_zoom.sample)
  : list (R * R) :=
  match l with
  | a :: ((b :: _) as tl) =>
      if is_AC_pair (phase_sector_boundary_from_zoom.sector a)
                    (phase_sector_boundary_from_zoom.sector b)
      then (m, (phase_sector_boundary_from_zoom.Delta_phi_ini a
                + phase_sector_boundary_from_zoom.Delta_phi_ini b) / 2)
             :: adjacent_AC m tl
      else adjacent_AC m tl
  | _ => []
  end.

(** The responses of the rows at coordinate [m], NaN left out, in row
    order. *)
Fixpoint samples_at (rows : list compute_mphi_crit.row) (m : R) : list R :=
  match rows with
  | [] => []
  | r :: rest =>
      match compute_mphi_crit.P_A r with
      | Fin p =>
          if Req_dec_T (compute_mphi_crit.m_phi r) m
          then p :: samples_at rest m
          else samples_at rest m
      | NaN => samples_at rest m
      end
  end.

(** The unbiased sample standard deviation: divisor N - 1, and 0 for a
    single sample. *)
Definition sample_std (l : list R) : R :=
  if (length l <=? 1)%nat then 0
  else sqrt (sum (map (fun x => (x - mean l) * (x - mean l)) l)
             / (INR (length l) - 1)).

(** The step of the grouping loop of [compute_PA_vs_mphi]. *)
Definition add_row (groups : list (R * list R)) (r : compute_mphi_crit.row)
  : list (R * list R) :=
  match compute_mphi_crit.P_A r with
  | Fin p => dict_append Req_dec_T (compute_mphi_crit.m_phi r) p groups
  | NaN => groups
  end.


(** [xs + 2 pi ks]: every value shifted by a whole number of periods. *)
Definition shift_periods (xs : list R) (ks : list Z) : list R :=
  map (fun p => fst p + 2 * PI * IZR (snd p)) (combine xs ks).

Section DoubleVocabulary.
Import PrimFloat binary64.
Local Open Scope float_scope.

(** [xs + 2 pi ks] as doubles: every sum and product rounded. *)
Definition shift_periods_double (xs : list float) (ks : list Z)
  : list float :=
  map (fun p => fst p + 2.0 * np_pi * of_int (snd p)) (combine xs ks).

(** The double [x + 2 pi k] is the exact sum: counted in units of 2^-1074
    it is [x] plus [k] times the double [2 pi]. *)
Definition exact_shift (x : float) (k : Z) : Prop :=
  exists a d : Z,
    units x = Some a
    /\ units (2.0 * np_pi) = Some d
    /\ units (x + 2.0 * np_pi * of_int k) = Some (a + k * d)%Z.
End DoubleVocabulary.

(** The initial value problem the sweep poses at a grid point, and the
    grid point a summary row belongs to. *)
Definition problem_of (pt : R * R * R * R) : phase_evolution_ode.ivp :=
  let '(m_phi, k_rot, q, delta_phi_ini) := pt in
  {| phase_evolution_ode.ivp_m_phi := m_phi;
     phase_evolution_ode.ivp_k_rot := k_rot;
     phase_evolution_ode.ivp_q := q;
     phase_evolution_ode.ivp_H0 := 1;
     phase_evolution_ode.ivp_y0 := (delta_phi_ini, 0.0);
     phase_evolution_ode.ivp_a_span := (1e-3, 10.0);
     phase_evolution_ode.ivp_n_eval := 2000;
     phase_evolution_ode.ivp_rtol := 1e-7;
     phase_evolution_ode.ivp_atol := 1e-9 |}.

Definition point_of (r : phase_sector_scan.summary_row) : R * R * R * R :=
  (phase_sector_scan.row_m_phi r, phase_sector_scan.row_k_rot r,
   phase_sector_scan.row_q r, phase_sector_scan.row_delta_phi_ini r).

(** A solver result with its [success] flag replaced. *)
Definition with_success (b : bool)
    (o : outcome phase_evolution_ode.ode_result)
  : outcome phase_evolution_ode.ode_result :=
  match o with
  | Ok sol =>
      Ok {| phase_evolution_ode.sol_t := phase_evolution_ode.sol_t sol;
            phase_evolution_ode.sol_y0 := phase_evolution_ode.sol_y0 sol;
            phase_evolution_ode.sol_y1 := phase_evolution_ode.sol_y1 sol;
            phase_evolution_ode.sol_success := b |}
  | Raise e => Raise e
  end.

(** A solver that always returns an empty solution flagged as failed. *)
Definition solver_flagging_failure : phase_evolution_ode.solver :=
  fun _ =>
    Ok {| phase_evolution_ode.sol_t := [];
          phase_evolution_ode.sol_y0 := [];
          phase_evolution_ode.sol_y1 := [];
          phase_evolution_ode.sol_success := false |}.

(** A solver that raises for [m_phi = 0.2] and otherwise returns an empty
    solution. *)
Definition solver_failing_at_02 : phase_evolution_ode.solver :=
  fun p =>
    if Req_dec_T (phase_evolution_ode.ivp_m_phi p) 0.2
    then Raise SolverError
    else Ok {| phase_evolution_ode.sol_t := [];
               phase_evolution_ode.sol_y0 := [];
               phase_evolution_ode.sol_y1 := [];
               phase_evolution_ode.sol_success := true |}.

(** The responses recorded at the coordinate pair [(m, k)], in row order. *)
Fixpoint values_at (rows : list (R * R * pyfloat)) (m k : R) : list pyfloat :=
  match rows with
  | [] => []
  | (m', k', p) :: rest =>
      if pair_eq_dec (m', k') (m, k) then p :: values_at rest m k
      else values_at rest m k
  end.

(** The step of the grouping loop of [build_grid]. *)
Definition add_cell (grid : list (R * R * list pyfloat)) (r : R * R * pyfloat)
  : list (R * R * list pyfloat) :=
  let '(m_phi, k_rot, P_A) := r in
  dict_append pair_eq_dec (m_phi, k_rot) P_A grid.

(** The rows [phase_sector_map.py] draws: [q = 1] and [delta_phi_ini = 0.01]. *)
Definition rows_q (rows : list phase_sector_map.summary)
  : list phase_sector_map.summary :=
  filter (fun r => Rltb (Rabs (phase_sector_map.q r - phase_sector_map.q_plot))
                        1e-9) rows.

Definition rows_map (rows : list phase_sector_map.summary)
  : list phase_sector_map.summary :=
  filter (fun r => Rltb (Rabs (phase_sector_map.delta_phi_ini r
                               - phase_sector_map.target_ini)) 1e-6)
         (rows_q rows).

(** The entry of an integer grid at line [i], column [j]. *)
Definition cell_at (grid : list (list Z)) (i j : nat) : Z :=
  nth j (nth i grid []) 0%Z.

(** Every line of the grid has [b] entries and there are [a] lines. *)
Definition has_shape (grid : list (list Z)) (a b : nat) : Prop :=
  length grid = a /\ forall line, In line grid -> length line = b.

(** The code a cell holds after the rows were written over [init] in turn. *)
Definition last_code (rows : list phase_sector_map.summary) (m k : R)
    (init : Z) : Z :=
  fold_left
    (fun c r =>
       if Req_dec_T (phase_sector_map.m_phi r) m then
         if Req_dec_T (phase_sector_map.k_rot r) k
         then phase_sector_map.code (phase_sector_map.sector r)
         else c
       else c)
    rows init.

(** A row of the summary file all of whose fields can be read, and the
    record it is read as. *)
Definition reads_as (c : phase_sector_map.csv_row)
    (s : phase_sector_map.summary) : Prop :=
  phase_sector_map.csv_m_phi c
  = phase_sector_map.Number (phase_sector_map.m_phi s)
  /\ phase_sector_map.csv_k_rot c
     = phase_sector_map.Number (phase_sector_map.k_rot s)
  /\ phase_sector_map.csv_delta_phi_ini c
     = phase_sector_map.Number (phase_sector_map.delta_phi_ini s)
  /\ phase_sector_map.csv_q c
     = phase_sector_map.Number (phase_sector_map.q s)
  /\ (phase_sector_map.csv_sector c
      = phase_sector_map.Label (phase_sector_map.sector s)
      \/ (phase_sector_map.csv_sector c = phase_sector_map.NoLabel
          /\ phase_sector_map.sector s = ""%string)).

Definition readable (c : phase_sector_map.csv_row) : Prop :=
  exists s, reads_as c s.

(** The defect of a row that an exception points to: a missing column for
    KeyError, a missing number for TypeError, text that is no number for
    ValueError. *)
Definition defect (c : phase_sector_map.csv_row) (e : exn) : Prop :=
  let numbers :=
    [phase_sector_map.csv_m_phi c; phase_sector_map.csv_k_rot c;
     phase_sector_map.csv_delta_phi_ini c; phase_sector_map.csv_q c] in
  (e = KeyError
   /\ (In phase_sector_map.NoColumn numbers
       \/ phase_sector_map.csv_sector c = phase_sector_map.NoLabelColumn))
  \/ (e = TypeError /\ In phase_sector_map.NoValue numbers)
  \/ (e = ValueError /\ In phase_sector_map.NotANumber numbers).


(** The label the micro-fine scan gives to the grid point [(m, k)]. *)
Definition microfine_label (solve_ivp : phase_evolution_ode.solver)
    (m k : R) : outcome string :=
  traj <- phase_evolution_ode.run_phase_evolution solve_ivp m k
            phase_sector_boundary_microfine.q
            phase_sector_boundary_microfine.delta_phi_ini
            phase_sector_boundary_microfine.delta_phidot_ini
            phase_sector_boundary_microfine.a_ini
            phase_sector_boundary_microfine.a_max 1500 ;;
  let '(a, dphi, _) := traj in
  Ok (phase_sector_boundary_microfine.classify_sector a dphi).

(** One point, at the later coordinate, for every adjacent pair of
    samples whose labels differ. *)
Fixpoint adjacent_changes (m : R) (l : list (R * string)) : list (R * R) :=
  match l with
  | (_, s1) :: (((k2, s2) :: _) as tl) =>
      if String.eqb s2 s1 then adjacent_changes m tl
      else (m, k2) :: adjacent_changes m tl
  | _ => []
  end.

(** Exchanging the labels A and C, and rewriting the label of a sample. *)
Definition swap_AC (s : string) : string :=
  if String.eqb s "A" then "C"%string
  else if String.eqb s "C" then "A"%string
  else s.

Definition relabel (f : string -> string)
    (r : phase_sector_boundary_from_zoom.sample)
  : phase_sector_boundary_from_zoom.sample :=
  {| phase_sector_boundary_from_zoom.m_phi :=
       phase_sector_boundary_from_zoom.m_phi r;
     phase_sector_boundary_from_zoom.Delta_phi_ini :=
       phase_sector_boundary_from_zoom.Delta_phi_ini r;
     phase_sector_boundary_from_zoom.sector :=
       f (phase_sector_boundary_from_zoom.sector r) |}.

(* ================================================================= *)
(** * Facts about the Python layer *)

Section SortFacts.
Context {A : Type}.
Variable key : A -> R.

Lemma insert_by_head (x : A) (l : list A) :
  HdRel (key_le key) x l -> insert_by key x l = x :: l.
Proof.
  intros H. destruct l as [| y ys]; simpl; [reflexivity |].
  inversion H; subst. unfold key_le in *.
  destruct (Rle_dec (key x) (key y)); [reflexivity | contradiction].
Qed.

(** Sorting a list that is already in ascending key order changes nothing. *)
Lemma sort_by_ascending (l : list A) :
  Sorted (key_le key) l -> sort_by key l = l.
Proof.
  induction 1 as [| x l Hs IH Hd]; [reflexivity |].
  unfold sort_by in *. simpl. rewrite IH. now apply insert_by_head.
Qed.

Lemma insert_by_In (x y : A) (l : list A) :
  In y (insert_by key x l) <-> y = x \/ In y l.
Proof.
  induction l as [| z zs IH]; simpl.
  - intuition.
  - destruct (Rle_dec (key x) (key z)); simpl; rewrite ?IH; intuition.
Qed.

Lemma sort_by_In (y : A) (l : list A) : In y (sort_by key l) <-> In y l.
Proof.
  unfold sort_by. induction l as [| x xs IH]; simpl; [reflexivity |].
  rewrite insert_by_In, IH. intuition.
Qed.

Lemma insert_by_length (x : A) (l : list A) :
  length (insert_by key x l) = S (length l).
Proof.
  induction l as [| z zs IH]; simpl; [reflexivity |].
  destruct (Rle_dec (key x) (key z)); simpl; congruence.
Qed.

Lemma sort_by_length (l : list A) : length (sort_by key l) = length l.
Proof.
  unfold sort_by. induction l as [| x xs IH]; simpl; [reflexivity |].
  now rewrite insert_by_length, IH.
Qed.

Lemma insert_by_sorted (x : A) (l : list A) :
  Sorted (key_le key) l -> Sorted (key_le key) (insert_by key x l).
Proof.
  induction 1 as [| y l Hs IH Hd]; simpl.
  - repeat constructor.
  - destruct (Rle_dec (key x) (key y)) as [Hle | Hnle].
    + constructor; [now constructor | now constructor].
    + constructor; [exact IH |].
      assert (Hyx : key_le key y x) by (unfold key_le; lra).
      destruct l as [| z zs]; simpl.
      * now constructor.
      * destruct (Rle_dec (key x) (key z)); constructor;
          [exact Hyx | now inversion Hd].
Qed.

Lemma sort_by_sorted (l : list A) : Sorted (key_le key) (sort_by key l).
Proof.
  unfold sort_by. induction l as [| x xs IH]; simpl; [constructor |].
  now apply insert_by_sorted.
Qed.
End SortFacts.

Lemma ascending_adjacent (l1 l2 : list R) (a b : R) :
  ascending (l1 ++ a :: b :: l2) -> a <= b.
Proof.
  unfold ascending. induction l1 as [| x xs IH]; simpl; intros H.
  - inversion H as [| ? ? _ Hd]; subst. now inversion Hd.
  - inversion H; subst. auto.
Qed.

Lemma sorted_ascending (l : list R) : ascending (sorted l).
Proof. apply (sort_by_sorted (fun x : R => x)). Qed.

Lemma sorted_of_ascending (l : list R) : ascending l -> sorted l = l.
Proof. apply (sort_by_ascending (fun x : R => x)). Qed.

Lemma ascending_indices (pre l : list R) :
  ascending l ->
  Sorted (key_le (fun i => nth i (pre ++ l) 0)) (seq (length pre) (length l)).
Proof.
  intros H. revert pre. induction H as [| x l Hs IH Hd]; intros pre; simpl.
  - constructor.
  - constructor.
    + specialize (IH (pre ++ [x])).
      rewrite <- app_assoc, length_app in IH. simpl in IH.
      now rewrite Nat.add_1_r in IH.
    + destruct l as [| y ys]; simpl; constructor.
      unfold key_le.
      rewrite nth_middle.
      replace (pre ++ x :: y :: ys) with ((pre ++ [x]) ++ y :: ys)
        by now rewrite <- app_assoc.
      replace (S (length pre)) with (length (pre ++ [x]))
        by (rewrite length_app; simpl; lia).
      rewrite nth_middle. now inversion Hd.
Qed.

Lemma argsort_ascending (v : list R) :
  ascending v -> argsort v = seq 0 (length v).
Proof.
  intros H. unfold argsort. apply sort_by_ascending.
  exact (ascending_indices [] v H).
Qed.

Lemma argsort_In (v : list R) (i : nat) :
  In i (argsort v) <-> (i < length v)%nat.
Proof.
  unfold argsort. rewrite sort_by_In, in_seq. lia.
Qed.

Lemma argsort_length (v : list R) : length (argsort v) = length v.
Proof. unfold argsort. now rewrite sort_by_length, length_seq. Qed.

Lemma take_in_range {A : Type} (d : A) (a : list A) (idx : list nat) :
  (forall i, In i idx -> (i < length a)%nat) ->
  take a idx = Ok (map (fun i => nth i a d) idx).
Proof.
  induction idx as [| i rest IH]; intros Hr; simpl; [reflexivity |].
  unfold getitem.
  assert (Hi : (i < length a)%nat) by (apply Hr; now left).
  destruct (nth_error a i) as [x |] eqn:E.
  - simpl. rewrite IH by (intros j Hj; apply Hr; now right). simpl.
    now rewrite (nth_error_nth _ _ d E).
  - apply nth_error_None in E. lia.
Qed.

Lemma map_nth_seq {A : Type} (d : A) (pre l post : list A) :
  map (fun i => nth i (pre ++ l ++ post) d) (seq (length pre) (length l)) = l.
Proof.
  revert pre. induction l as [| x xs IH]; intros pre; simpl; [reflexivity |].
  rewrite nth_middle. f_equal.
  specialize (IH (pre ++ [x])).
  rewrite <- app_assoc, length_app in IH. simpl in IH.
  now rewrite Nat.add_1_r in IH.
Qed.

(* ================================================================= *)
(** * Facts about the continuous extractor *)

Lemma np_sign_neg (x : R) : x < 0 -> np_sign x = -1.
Proof.
  intros H. unfold np_sign. destruct (Rlt_dec x 0); [reflexivity | lra].
Qed.

Lemma np_sign_pos (x : R) : 0 < x -> np_sign x = 1.
Proof.
  intros H. unfold np_sign.
  destruct (Rlt_dec x 0); [lra |]. destruct (Rlt_dec 0 x); [reflexivity | lra].
Qed.

Lemma np_sign_zero : np_sign 0 = 0.
Proof.
  unfold np_sign. destruct (Rlt_dec 0 0); [lra |]. reflexivity.
Qed.

(** A strict sign change means one response is below and the other above
    the target. *)
Lemma sign_change_iff (target r1 r2 : R) :
  sign_change target r1 r2 <->
  (r1 < target < r2) \/ (r2 < target < r1).
Proof.
  unfold sign_change, np_sign.
  destruct (Rlt_dec (r1 - target) 0), (Rlt_dec 0 (r1 - target)),
    (Rlt_dec (r2 - target) 0), (Rlt_dec 0 (r2 - target)); split; intros H;
    try lra.
Qed.

Lemma sign_change_distinct (target r1 r2 : R) :
  sign_change target r1 r2 -> r2 <> r1.
Proof. rewrite sign_change_iff. lra. Qed.

(** The index loop and the scan over the zipped samples agree. *)
Lemma crossing_loop_scan (target : R) (l pre : list (R * R)) :
  let all := pre ++ l in
  compute_mphi_crit.crossing_loop
    (map fst all) (map snd all)
    (map np_sign (map (fun p => p - target) (map snd all)))
    target (seq (length pre) (length l - 1))
  = scan_pairs target l.
Proof.
  revert pre. induction l as [| [c1 r1] tl IH]; intros pre; [reflexivity |].
  destruct tl as [| [c2 r2] rest]; [reflexivity |].
  cbv zeta in *.
  assert (Hlen : (length ((c1, r1) :: (c2, r2) :: rest) - 1
                  = S (length ((c2, r2) :: rest) - 1))%nat) by (simpl; lia).
  rewrite Hlen. cbn [seq compute_mphi_crit.crossing_loop].
  set (all := pre ++ (c1, r1) :: (c2, r2) :: rest).
  assert (Hall : all = (pre ++ [(c1, r1)]) ++ (c2, r2) :: rest)
    by (unfold all; now rewrite <- app_assoc).
  assert (Hl1 : length (pre ++ [(c1, r1)]) = S (length pre))
    by (rewrite length_app; simpl; lia).
  assert (N1 : forall (f : R * R -> R),
             nth (length pre) (map f all) 0 = f (c1, r1)).
  { intros f. unfold all. rewrite map_app. simpl.
    rewrite <- (length_map f pre). apply nth_middle. }
  assert (N2 : forall (f : R * R -> R),
             nth (S (length pre)) (map f all) 0 = f (c2, r2)).
  { intros f. rewrite Hall, map_app. simpl.
    rewrite <- Hl1, <- (length_map f (pre ++ [(c1, r1)])). apply nth_middle. }
  rewrite !map_map. rewrite !N1, !N2. simpl fst. simpl snd.
  specialize (IH (pre ++ [(c1, r1)])).
  rewrite <- Hall, Hl1, !map_map in IH.
  cbn [scan_pairs].
  destruct (Rlt_dec (np_sign (r1 - target) * np_sign (r2 - target)) 0).
  - destruct (Req_dec_T r2 r1); [exact IH | reflexivity].
  - exact IH.
Qed.

(** What [find_mphi_crit] computes, for responses at least as many as the
    coordinates: the scan of the samples taken in ascending coordinate
    order. *)
Lemma find_mphi_crit_scan (coords resp : list R) (target : R) :
  (length coords <= length resp)%nat ->
  compute_mphi_crit.find_mphi_crit coords resp target
  = Ok (scan_pairs target (samples_in_order coords resp)).
Proof.
  intros Hlen. unfold compute_mphi_crit.find_mphi_crit.
  rewrite (take_in_range 0 coords) by (intros i Hi; now apply argsort_In).
  rewrite (take_in_range 0 resp)
    by (intros i Hi; apply argsort_In in Hi; lia).
  cbn [bind]. f_equal.
  pose proof (crossing_loop_scan target (samples_in_order coords resp) []) as H.
  cbv zeta in H. simpl app in H. simpl length in H.
  unfold samples_in_order in H at 1 2 3.
  rewrite !map_map in H. simpl in H.
  unfold samples_in_order in H at 1. rewrite length_map in H.
  rewrite length_map. rewrite !map_map. exact H.
Qed.

(** On ascending coordinates the scan order is the given order. *)
Lemma samples_in_order_ascending (coords resp : list R) :
  ascending coords -> length coords = length resp ->
  samples_in_order coords resp = combine coords resp.
Proof.
  intros Ha Hlen. unfold samples_in_order.
  rewrite argsort_ascending by exact Ha.
  clear Ha. revert resp Hlen.
  assert (G : forall (l r pre rpre : list R),
             length pre = length rpre -> length l = length r ->
             map (fun i => (nth i (pre ++ l) 0, nth i (rpre ++ r) 0))
                 (seq (length pre) (length l)) = combine l r).
  { induction l as [| x xs IH]; intros r pre rpre Hp Hl; [reflexivity |].
    destruct r as [| y ys]; [discriminate |]. simpl.
    rewrite nth_middle. rewrite Hp at 1. rewrite nth_middle. f_equal.
    specialize (IH ys (pre ++ [x]) (rpre ++ [y])).
    rewrite <- !app_assoc, !length_app in IH. simpl in IH.
    rewrite Nat.add_1_r in IH. apply IH; simpl in *; lia. }
  intros resp Hlen. exact (G coords resp [] [] eq_refl Hlen).
Qed.

Lemma scan_pairs_first (target : R) (pre post : list (R * R))
    (c1 r1 c2 r2 : R) :
  no_sign_change target (pre ++ [(c1, r1)]) ->
  sign_change target r1 r2 ->
  scan_pairs target (pre ++ (c1, r1) :: (c2, r2) :: post)
  = Some (interpolate target c1 r1 c2 r2).
Proof.
  intros Hno Hch. pose proof (sign_change_distinct _ _ _ Hch) as Hd.
  induction pre as [| [c r] pre IH].
  - simpl. unfold sign_change in Hch.
    destruct (Rlt_dec (np_sign (r1 - target) * np_sign (r2 - target)) 0);
      [| contradiction].
    destruct (Req_dec_T r2 r1) as [E | _]; [contradiction | reflexivity].
  - destruct pre as [| [c' r'] pre'].
    + simpl in *. destruct Hno as [Hn _]. unfold sign_change in Hn.
      destruct (Rlt_dec (np_sign (r - target) * np_sign (r1 - target)) 0);
        [contradiction |].
      apply IH. exact I.
    + simpl in Hno. destruct Hno as [Hn Hno]. unfold sign_change in Hn.
      change (scan_pairs target
                (((c, r) :: (c', r') :: pre') ++ (c1, r1) :: (c2, r2) :: post))
        with (if Rlt_dec (np_sign (r - target) * np_sign (r' - target)) 0
              then if Req_dec_T r' r
                   then scan_pairs target
                          (((c', r') :: pre') ++ (c1, r1) :: (c2, r2) :: post)
                   else Some (interpolate target c r c' r')
              else scan_pairs target
                     (((c', r') :: pre') ++ (c1, r1) :: (c2, r2) :: post)).
      destruct (Rlt_dec (np_sign (r - target) * np_sign (r' - target)) 0);
        [contradiction |].
      apply IH. exact Hno.
Qed.

Lemma scan_pairs_none (target : R) (l : list (R * R)) :
  no_sign_change target l -> scan_pairs target l = None.
Proof.
  induction l as [| [c1 r1] tl IH]; intros Hno; [reflexivity |].
  destruct tl as [| [c2 r2] rest]; [reflexivity |].
  cbn [scan_pairs]. cbn [no_sign_change] in Hno. destruct Hno as [Hn Hno].
  unfold sign_change in Hn.
  destruct (Rlt_dec (np_sign (r1 - target) * np_sign (r2 - target)) 0);
    [contradiction |].
  now apply IH.
Qed.

(** A pair of identical responses is passed over. *)
Lemma scan_pairs_flat (target c1 c2 r : R) (post : list (R * R)) :
  scan_pairs target ((c1, r) :: (c2, r) :: post)
  = scan_pairs target ((c2, r) :: post).
Proof.
  cbn [scan_pairs].
  destruct (Rlt_dec (np_sign (r - target) * np_sign (r - target)) 0) as [H | H].
  - destruct (Req_dec_T r r); [reflexivity | contradiction].
  - reflexivity.
Qed.

Lemma scan_pairs_prefix (target : R) (pre l : list (R * R)) (c r : R) :
  no_sign_change target (pre ++ [(c, r)]) ->
  scan_pairs target (pre ++ (c, r) :: l) = scan_pairs target ((c, r) :: l).
Proof.
  intros Hno. induction pre as [| [c0 r0] pre IH]; [reflexivity |].
  destruct pre as [| [c' r'] pre'].
  - simpl in Hno. destruct Hno as [Hn _]. unfold sign_change in Hn.
    change (([(c0, r0)] ++ (c, r) :: l)) with ((c0, r0) :: (c, r) :: l).
    cbn [scan_pairs].
    destruct (Rlt_dec (np_sign (r0 - target) * np_sign (r - target)) 0);
      [contradiction | reflexivity].
  - simpl in Hno. destruct Hno as [Hn Hno]. unfold sign_change in Hn.
    change (((c0, r0) :: (c', r') :: pre') ++ (c, r) :: l)
      with ((c0, r0) :: (c', r') :: (pre' ++ (c, r) :: l)).
    cbn [scan_pairs].
    destruct (Rlt_dec (np_sign (r0 - target) * np_sign (r' - target)) 0);
      [contradiction |].
    apply IH. exact Hno.
Qed.

Lemma interpolate_between (target c1 r1 c2 r2 : R) :
  sign_change target r1 r2 -> c1 <= c2 ->
  c1 <= interpolate target c1 r1 c2 r2 <= c2.
Proof.
  intros Hch Hc. apply sign_change_iff in Hch. unfold interpolate.
  set (f := (target - r1) / (r2 - r1)).
  assert (Hf : f * (r2 - r1) = target - r1) by (unfold f; field; lra).
  assert (0 < f < 1).
  { destruct Hch as [H | H]; split; nra. }
  nra.
Qed.

Lemma combine_fst_snd {A B : Type} (l : list (A * B)) :
  combine (map fst l) (map snd l) = l.
Proof.
  induction l as [| [a b] l IH]; simpl; [reflexivity | now rewrite IH].
Qed.

(** On a sorted sample sequence [find_mphi_crit] is the scan of the pairs. *)
Lemma find_mphi_crit_sorted (samples : list (R * R)) (target : R) :
  ascending (map fst samples) ->
  compute_mphi_crit.find_mphi_crit (map fst samples) (map snd samples) target
  = Ok (scan_pairs target samples).
Proof.
  intros Ha.
  rewrite find_mphi_crit_scan by (rewrite !length_map; lia).
  rewrite samples_in_order_ascending by (rewrite ?length_map; auto).
  now rewrite combine_fst_snd.
Qed.

Lemma ascending_suffix (l1 l2 : list R) :
  ascending (l1 ++ l2) -> ascending l2.
Proof.
  unfold ascending. induction l1 as [| x xs IH]; simpl; intros H; [exact H |].
  inversion H; subst. auto.
Qed.

(** Deciding the comparisons of a scan on concrete numbers. *)
Ltac decide_reals :=
  repeat (simpl;
          match goal with
          | |- context [Rlt_dec ?a ?b] => destruct (Rlt_dec a b); try lra
          | |- context [Rle_dec ?a ?b] => destruct (Rle_dec a b); try lra
          | |- context [Req_dec_T ?a ?b] => destruct (Req_dec_T a b); try lra
          end).



(** C8. When, in ascending order of coordinate, (response - target) never
    strictly changes sign between consecutive samples, [find_mphi_crit]
    returns [None]: it raises nothing and the result is no number.  On
    ascending coordinates the order scanned is the order given. *)
Theorem find_mphi_crit_no_crossing (coords resp : list R) (target : R) :
  (length coords <= length resp)%nat ->
  no_sign_change target (samples_in_order coords resp) ->
  compute_mphi_crit.find_mphi_crit coords resp target = Ok None
  /\ (forall e, compute_mphi_crit.find_mphi_crit coords resp target <> Raise e)
  /\ (forall x : R,
         compute_mphi_crit.find_mphi_crit coords resp target <> Ok (Some x))
  /\ (ascending coords -> length coords = length resp ->
      samples_in_order coords resp = combine coords resp).
Proof.
  intros Hlen Hno.
  assert (H : compute_mphi_crit.find_mphi_crit coords resp target = Ok None).
  { rewrite find_mphi_crit_scan by exact Hlen.
    now rewrite scan_pairs_none. }
  rewrite H. repeat split; try discriminate.
  apply samples_in_order_ascending.
Qed.

Lemma find_mphi_crit_no_crossing_witness :
  compute_mphi_crit.find_mphi_crit [1; 0; 2] [0.7; 0.9; 0.5] 0.5 = Ok None.
Proof.
  apply (find_mphi_crit_no_crossing [1; 0; 2] [0.7; 0.9; 0.5] 0.5).
  - simpl. lia.
  - unfold samples_in_order, argsort, sort_by. simpl.
    decide_reals. simpl.
    repeat split; rewrite sign_change_iff; lra.
Defined.

(** C9. Two consecutive samples with identical responses are passed over
    without an error and the scan goes on.  When a strict sign change
    follows, between the later samples (c3, r3) and (c4, r4) and with none
    before it, the result is the coordinate interpolated there, which lies
    between c3 and c4; when none follows, the result is [None].  In every
    case the result is that of the samples from the second of the pair
    on, and no exception is raised.  A strict sign change never has
    identical responses, so the interpolation never divides by zero. *)
Theorem find_mphi_crit_identical_responses
    (pre post : list (R * R)) (c1 c2 r target : R) :
  let samples := pre ++ (c1, r) :: (c2, r) :: post in
  let remaining := (c2, r) :: post in
  ascending (map fst samples) ->
  no_sign_change target (pre ++ [(c1, r)]) ->
  (forall mid rest c3 r3 c4 r4,
      remaining = mid ++ (c3, r3) :: (c4, r4) :: rest ->
      no_sign_change target (mid ++ [(c3, r3)]) ->
      sign_change target r3 r4 ->
      compute_mphi_crit.find_mphi_crit
        (map fst samples) (map snd samples) target
      = Ok (Some (interpolate target c3 r3 c4 r4))
      /\ c3 <= interpolate target c3 r3 c4 r4 <= c4)
  /\ (no_sign_change target remaining ->
      compute_mphi_crit.find_mphi_crit
        (map fst samples) (map snd samples) target = Ok None)
  /\ compute_mphi_crit.find_mphi_crit
       (map fst samples) (map snd samples) target
     = compute_mphi_crit.find_mphi_crit
         (map fst remaining) (map snd remaining) target
  /\ (forall e,
         compute_mphi_crit.find_mphi_crit
           (map fst samples) (map snd samples) target <> Raise e)
  /\ (forall r1 r2, sign_change target r1 r2 -> r2 <> r1).
Proof.
  intros samples remaining Ha Hno.
  assert (Hr : ascending (map fst remaining)).
  { unfold samples in Ha.
    replace (pre ++ (c1, r) :: (c2, r) :: post)
      with ((pre ++ [(c1, r)]) ++ remaining) in Ha
      by now rewrite <- app_assoc.
    rewrite map_app in Ha. exact (ascending_suffix _ _ Ha). }
  assert (Hscan : compute_mphi_crit.find_mphi_crit
                    (map fst samples) (map snd samples) target
                  = Ok (scan_pairs target remaining)).
  { rewrite find_mphi_crit_sorted by exact Ha. f_equal.
    unfold samples, remaining.
    rewrite scan_pairs_prefix by exact Hno. apply scan_pairs_flat. }
  split; [| split; [| split; [| split]]].
  - intros mid rest c3 r3 c4 r4 E Hmid Hch. split.
    + rewrite Hscan, E. now rewrite scan_pairs_first.
    + apply interpolate_between; [exact Hch |].
      rewrite E, map_app in Hr. simpl in Hr.
      exact (ascending_adjacent _ _ _ _ Hr).
  - intros Hnone. rewrite Hscan. now rewrite scan_pairs_none.
  - rewrite Hscan. now rewrite find_mphi_crit_sorted.
  - intros e. rewrite Hscan. discriminate.
  - intros r1 r2. apply sign_change_distinct.
Qed.

Lemma find_mphi_crit_identical_responses_witness :
  compute_mphi_crit.find_mphi_crit [0; 1; 2] [0.4; 0.4; 0.6] 0.5
  = Ok (Some 1.5)
  /\ compute_mphi_crit.find_mphi_crit [0; 1; 2] [0.4; 0.4; 0.4] 0.5
     = Ok None.
Proof.
  split.
  - destruct (find_mphi_crit_identical_responses [] [(2, 0.6)] 0 1 0.4 0.5)
      as (Hnext & _).
    + simpl. repeat constructor; lra.
    + simpl. exact I.
    + destruct (Hnext [] [] 1 0.4 2 0.6 eq_refl) as [H _].
      * simpl. exact I.
      * apply sign_change_iff. lra.
      * simpl in H. rewrite H. unfold interpolate. do 2 f_equal. lra.
  - destruct (find_mphi_crit_identical_responses [] [(2, 0.4)] 0 1 0.4 0.5)
      as (_ & Hnone & _).
    + simpl. repeat constructor; lra.
    + simpl. exact I.
    + apply Hnone. simpl. split; [| exact I].
      rewrite sign_change_iff. lra.
Defined.

(* ================================================================= *)
(** * Facts about the discrete extractors *)

Section FineScanFacts.
Import phase_sector_boundary_fine_scan.

Lemma indices_from_In (lbl : string) (l : list string) (s k : nat) :
  In k (map fst (filter (fun p => String.eqb (snd p) lbl)
                        (combine (seq s (length l)) l)))
  <-> (s <= k)%nat /\ nth_error l (k - s) = Some lbl.
Proof.
  revert s. induction l as [| x xs IH]; intros s; simpl.
  - split; [intros [] | intros [_ H]].
    destruct (k - s)%nat; discriminate.
  - destruct (String.eqb x lbl) eqn:E; simpl; rewrite IH.
    + apply String.eqb_eq in E. subst x. split.
      * intros [H | [H1 H2]].
        -- subst k. rewrite Nat.sub_diag. simpl. split; [lia | reflexivity].
        -- split; [lia |].
           replace (k - s)%nat with (S (k - S s)) by lia. exact H2.
      * intros [H1 H2]. destruct (Nat.eq_dec s k) as [-> | Hne];
          [now left | right].
        split; [lia |].
        replace (k - s)%nat with (S (k - S s)) in H2 by lia. exact H2.
    + apply String.eqb_neq in E. split.
      * intros [H1 H2]. split; [lia |].
        replace (k - s)%nat with (S (k - S s)) by lia. exact H2.
      * intros [H1 H2]. destruct (Nat.eq_dec s k) as [-> | Hne].
        -- rewrite Nat.sub_diag in H2. simpl in H2. congruence.
        -- split; [lia |].
           replace (k - s)%nat with (S (k - S s)) in H2 by lia. exact H2.
Qed.

Lemma indices_of_In (lbl : string) (l : list string) (k : nat) :
  In k (indices_of lbl l) <-> nth_error l k = Some lbl.
Proof.
  unfold indices_of. rewrite indices_from_In, Nat.sub_0_r.
  split; [tauto | split; [lia | assumption]].
Qed.

Lemma max_index_ge (l : list nat) (m : nat) :
  In m l -> (m <= max_index l)%nat.
Proof.
  induction l as [| x xs IH]; simpl; [tauto |].
  intros [-> | H]; [lia | specialize (IH H); lia].
Qed.

Lemma max_index_In (l : list nat) : l <> [] -> In (max_index l) l.
Proof.
  induction l as [| x xs IH]; [congruence | intros _].
  destruct xs as [| y ys].
  - simpl. left. lia.
  - assert (H : In (max_index (y :: ys)) (y :: ys)) by (apply IH; congruence).
    change (max_index (x :: y :: ys))
      with (Nat.max x (max_index (y :: ys))).
    destruct (Nat.max_spec x (max_index (y :: ys))) as [[_ E] | [_ E]];
      rewrite E; [now right | now left].
Qed.

Lemma min_index_le (l : list nat) (m : nat) :
  In m l -> (min_index l <= m)%nat.
Proof.
  destruct l as [| x xs]; [intros [] |]. simpl.
  revert x. induction xs as [| y ys IH]; intros x; simpl.
  - intros [-> | []]. lia.
  - intros [-> | [-> | H]].
    + specialize (IH m (or_introl eq_refl)). lia.
    + lia.
    + assert (Hm : In m (m :: ys)) by now left.
      pose proof (IH x (or_intror H)). lia.
Qed.

Lemma min_index_In (l : list nat) : l <> [] -> In (min_index l) l.
Proof.
  destruct l as [| x xs]; [congruence | intros _]. simpl.
  revert x. induction xs as [| y ys IH]; intros x; simpl.
  - now left.
  - destruct (Nat.min_spec y (fold_right Nat.min x ys)) as [[_ E] | [_ E]];
      rewrite E.
    + right. now left.
    + destruct (IH x) as [H | H]; [now left | right; now right].
Qed.

Lemma is_empty_false {A : Type} (l : list A) (x : A) :
  In x l -> is_empty l = false.
Proof. destruct l; [intros [] | reflexivity]. Qed.

Lemma is_empty_true {A : Type} (l : list A) :
  (forall x, ~ In x l) -> is_empty l = true.
Proof.
  destruct l as [| a l]; [reflexivity | intros H].
  exfalso. apply (H a). now left.
Qed.

Lemma last_index_max (lbl : string) (l : list string) (i : nat) :
  last_index_of lbl l i -> max_index (indices_of lbl l) = i.
Proof.
  intros [Hi Hlast].
  assert (Hin : In i (indices_of lbl l)) by now apply indices_of_In.
  pose proof (max_index_ge _ _ Hin) as Hge.
  assert (Hne : indices_of lbl l <> []) by (intros E; rewrite E in Hin; easy).
  pose proof (max_index_In _ Hne) as Hmax. apply indices_of_In in Hmax.
  destruct (Nat.eq_dec (max_index (indices_of lbl l)) i) as [E | Hneq];
    [exact E |].
  exfalso. apply (Hlast (max_index (indices_of lbl l))); [lia | exact Hmax].
Qed.

Lemma first_index_min (lbl : string) (l : list string) (j : nat) :
  first_index_of lbl l j -> min_index (indices_of lbl l) = j.
Proof.
  intros [Hj Hfirst].
  assert (Hin : In j (indices_of lbl l)) by now apply indices_of_In.
  pose proof (min_index_le _ _ Hin) as Hle.
  assert (Hne : indices_of lbl l <> []) by (intros E; rewrite E in Hin; easy).
  pose proof (min_index_In _ Hne) as Hmin. apply indices_of_In in Hmin.
  destruct (Nat.eq_dec (min_index (indices_of lbl l)) j) as [E | Hneq];
    [exact E |].
  exfalso. apply (Hfirst (min_index (indices_of lbl l))); [lia | exact Hmin].
Qed.

Lemma indices_of_absent (lbl : string) (l : list string) :
  (forall s, In s l -> s <> lbl) -> is_empty (indices_of lbl l) = true.
Proof.
  intros H. apply is_empty_true. intros k Hk.
  apply indices_of_In in Hk. apply nth_error_In in Hk.
  now apply (H lbl).
Qed.

Lemma getitem_nth {A : Type} (d : A) (l : list A) (i : nat) :
  (i < length l)%nat -> getitem l i = Ok (nth i l d).
Proof.
  intros H. unfold getitem. destruct (nth_error l i) as [x |] eqn:E.
  - now rewrite (nth_error_nth _ _ d E).
  - apply nth_error_None in E. lia.
Qed.
End FineScanFacts.
(** C3. For a row of labels along the k axis, with i the position of the
    last A and j the position of the first C: a row without A or without C
    has no boundary; so has a row whose first C does not come strictly
    after its last A; otherwise the boundary is the midpoint of the
    coordinates at i and j.  Labels [A,A,A,C,C] at coordinates
    [0,1,2,3,4] give 2.5, and an all-A or an all-C row gives none. *)
Theorem detect_transition_midpoint (ks : list R) (labels : list string) :
  length ks = length labels ->
  ((forall s, In s labels -> s <> "A"%string) ->
   phase_sector_boundary_fine_scan.detect_transition ks labels = Ok None)
  /\ ((forall s, In s labels -> s <> "C"%string) ->
      phase_sector_boundary_fine_scan.detect_transition ks labels = Ok None)
  /\ (forall i j,
         last_index_of "A"%string labels i ->
         first_index_of "C"%string labels j ->
         ((j <= i)%nat ->
          phase_sector_boundary_fine_scan.detect_transition ks labels
          = Ok None)
         /\ ((i < j)%nat ->
             phase_sector_boundary_fine_scan.detect_transition ks labels
             = Ok (Some (0.5 * (nth i ks 0 + nth j ks 0)))))
  /\ phase_sector_boundary_fine_scan.detect_transition
       [0; 1; 2; 3; 4] ["A"; "A"; "A"; "C"; "C"]%string = Ok (Some 2.5)
  /\ phase_sector_boundary_fine_scan.detect_transition
       [0; 1; 2; 3; 4] ["A"; "A"; "A"; "A"; "A"]%string = Ok None
  /\ phase_sector_boundary_fine_scan.detect_transition
       [0; 1; 2; 3; 4] ["C"; "C"; "C"; "C"; "C"]%string = Ok None.
Proof.
  intros Hlen. unfold phase_sector_boundary_fine_scan.detect_transition.
  repeat split.
  - intros H. now rewrite (indices_of_absent _ _ H).
  - intros H. rewrite (indices_of_absent "C"%string _ H).
    now rewrite orb_true_r.
  - intros Hle.
    rewrite (is_empty_false _ i)
      by (apply indices_of_In; exact (proj1 H)).
    rewrite (is_empty_false _ j)
      by (apply indices_of_In; exact (proj1 H0)).
    rewrite (last_index_max _ _ _ H), (first_index_min _ _ _ H0). simpl.
    apply Nat.leb_le in Hle. now rewrite Hle.
  - intros Hlt.
    rewrite (is_empty_false _ i)
      by (apply indices_of_In; exact (proj1 H)).
    rewrite (is_empty_false _ j)
      by (apply indices_of_In; exact (proj1 H0)).
    rewrite (last_index_max _ _ _ H), (first_index_min _ _ _ H0). simpl.
    apply Nat.leb_gt in Hlt. rewrite Hlt.
    assert (Hi : (i < length ks)%nat).
    { rewrite Hlen. apply nth_error_Some. rewrite (proj1 H). discriminate. }
    assert (Hj : (j < length ks)%nat).
    { rewrite Hlen. apply nth_error_Some. rewrite (proj1 H0). discriminate. }
    rewrite (getitem_nth 0 ks i Hi), (getitem_nth 0 ks j Hj). reflexivity.
  - simpl. do 2 f_equal. lra.
Qed.

Lemma detect_transition_midpoint_witness :
  phase_sector_boundary_fine_scan.detect_transition
    [0.1; 0.2; 0.3; 0.4] ["A"; "B"; "C"; "C"]%string
  = Ok (Some (0.5 * (0.1 + 0.3))).
Proof.
  refine (proj2 (proj1 (proj2 (proj2
            (detect_transition_midpoint
               [0.1; 0.2; 0.3; 0.4] ["A"; "B"; "C"; "C"]%string eq_refl)))
            0%nat 2%nat _ _) _).
  - split; [reflexivity |].
    intros [| [| [| [| j]]]] Hj; simpl; try lia; try discriminate.
    destruct j; discriminate.
  - split; [reflexivity |].
    intros [| [| i]] Hi; simpl; try lia; discriminate.
  - lia.
Defined.

(** Case analysis on whether a label is a given string. *)
Ltac case_label s l :=
  let E := fresh "E" in
  destruct (String.eqb s l) eqn:E;
  [apply String.eqb_eq in E; subst s |].

Section ZoomFacts.
Import phase_sector_boundary_from_zoom.

Lemma sector_map_AC (s1 s2 : string) :
  set_eqb [sector_map s1; sector_map s2] [Some 0%nat; Some 2%nat]
  = is_AC_pair s1 s2.
Proof.
  unfold set_eqb, is_AC_pair, sector_map.
  case_label s1 "A"%string;
    [| case_label s1 "B"%string; [| case_label s1 "C"%string]];
    (case_label s2 "A"%string;
     [| case_label s2 "B"%string; [| case_label s2 "C"%string]]);
    reflexivity.
Qed.

(** The index loop and the walk over adjacent samples agree. *)
Lemma pair_loop_adjacent (m : R) (l pre : list sample) :
  let all := pre ++ l in
  pair_loop m (map Delta_phi_ini all)
            (map (fun r => sector_map (sector r)) all)
            (seq (length pre) (length l - 1))
  = adjacent_AC m l.
Proof.
  revert pre. induction l as [| a tl IH]; intros pre; [reflexivity |].
  destruct tl as [| b rest]; [reflexivity |].
  cbv zeta in *.
  assert (Hlen : (length (a :: b :: rest) - 1
                  = S (length (b :: rest) - 1))%nat) by (simpl; lia).
  rewrite Hlen. cbn [seq pair_loop].
  set (all := pre ++ a :: b :: rest).
  assert (Hall : all = (pre ++ [a]) ++ b :: rest)
    by (unfold all; now rewrite <- app_assoc).
  assert (Hl1 : length (pre ++ [a]) = S (length pre))
    by (rewrite length_app; simpl; lia).
  assert (N1 : forall (B : Type) (f : sample -> B) (d : B),
             nth (length pre) (map f all) d = f a).
  { intros B f d. unfold all. rewrite map_app. simpl.
    rewrite <- (length_map f pre). apply nth_middle. }
  assert (N2 : forall (B : Type) (f : sample -> B) (d : B),
             nth (S (length pre)) (map f all) d = f b).
  { intros B f d. rewrite Hall, map_app. simpl.
    rewrite <- Hl1, <- (length_map f (pre ++ [a])). apply nth_middle. }
  rewrite !N1, !N2.
  specialize (IH (pre ++ [a])). rewrite <- Hall, Hl1 in IH.
  rewrite sector_map_AC. cbn [adjacent_AC].
  destruct (is_AC_pair (sector a) (sector b)).
  - f_equal; [| exact IH]. f_equal. lra.
  - exact IH.
Qed.
End ZoomFacts.

Lemma distinct_constant (m : R) (l : list R) :
  l <> [] -> (forall x, In x l -> x = m) -> distinct l = [m].
Proof.
  induction l as [| x xs IH]; intros Hne Hall; [congruence |].
  assert (x = m) by (apply Hall; now left). subst x. simpl.
  destruct xs as [| y ys]; [reflexivity |].
  assert (y = m) by (apply Hall; right; now left). subst y.
  assert (E : mem m (m :: ys) = true).
  { simpl. destruct (Req_dec_T m m); [reflexivity | contradiction]. }
  rewrite E. apply IH; [discriminate |].
  intros x Hx. apply Hall. now right.
Qed.

Lemma filter_all {A : Type} (f : A -> bool) (l : list A) :
  (forall x, In x l -> f x = true) -> filter f l = l.
Proof.
  induction l as [| x xs IH]; intros H; simpl; [reflexivity |].
  rewrite (H x (or_introl eq_refl)). f_equal. apply IH.
  intros y Hy. apply H. now right.
Qed.

(** C4. Within one group, scanned in the order of the second coordinate,
    the boundary points are exactly the midpoints of the adjacent pairs
    whose two labels are A and C (in either order), one point per such
    pair; a pair with any other label contributes nothing.  Labels
    [A,B,C] give no point and [A,C,C] give exactly one, the midpoint of
    positions 0 and 1.  For data that is one group already in ascending
    order of the second coordinate, this is the whole output. *)
Theorem row_boundary_adjacent_AC :
  (forall (m : R) (df_m : list phase_sector_boundary_from_zoom.sample),
      phase_sector_boundary_from_zoom.row_boundary m df_m
      = adjacent_AC m df_m)
  /\ (forall m d0 d1 d2 : R,
         phase_sector_boundary_from_zoom.row_boundary m
           [ {| phase_sector_boundary_from_zoom.m_phi := m;
                phase_sector_boundary_from_zoom.Delta_phi_ini := d0;
                phase_sector_boundary_from_zoom.sector := "A"%string |};
             {| phase_sector_boundary_from_zoom.m_phi := m;
                phase_sector_boundary_from_zoom.Delta_phi_ini := d1;
                phase_sector_boundary_from_zoom.sector := "B"%string |};
             {| phase_sector_boundary_from_zoom.m_phi := m;
                phase_sector_boundary_from_zoom.Delta_phi_ini := d2;
                phase_sector_boundary_from_zoom.sector := "C"%string |} ]
         = [])
  /\ (forall m d0 d1 d2 : R,
         phase_sector_boundary_from_zoom.row_boundary m
           [ {| phase_sector_boundary_from_zoom.m_phi := m;
                phase_sector_boundary_from_zoom.Delta_phi_ini := d0;
                phase_sector_boundary_from_zoom.sector := "A"%string |};
             {| phase_sector_boundary_from_zoom.m_phi := m;
                phase_sector_boundary_from_zoom.Delta_phi_ini := d1;
                phase_sector_boundary_from_zoom.sector := "C"%string |};
             {| phase_sector_boundary_from_zoom.m_phi := m;
                phase_sector_boundary_from_zoom.Delta_phi_ini := d2;
                phase_sector_boundary_from_zoom.sector := "C"%string |} ]
         = [(m, (d0 + d1) / 2)])
  /\ (forall (m : R) (data : list phase_sector_boundary_from_zoom.sample),
         data <> [] ->
         (forall r, In r data -> phase_sector_boundary_from_zoom.m_phi r = m) ->
         Sorted (key_le phase_sector_boundary_from_zoom.Delta_phi_ini) data ->
         phase_sector_boundary_from_zoom.boundary_points data
         = adjacent_AC m data).
Proof.
  assert (G : forall m df_m,
             phase_sector_boundary_from_zoom.row_boundary m df_m
             = adjacent_AC m df_m).
  { intros m df_m. unfold phase_sector_boundary_from_zoom.row_boundary.
    rewrite length_map. exact (pair_loop_adjacent m df_m []). }
  split; [exact G | split; [| split]]; try (intros; rewrite G; reflexivity).
  intros m data Hne Hall Hs.
  unfold phase_sector_boundary_from_zoom.boundary_points. cbv zeta.
  rewrite (distinct_constant m).
  - change (sorted [m]) with [m]. cbn [flat_map].
    rewrite app_nil_r, filter_all.
    + now rewrite (sort_by_ascending _ _ Hs).
    + intros r Hr. rewrite (Hall r Hr).
      destruct (Req_dec_T m m); [reflexivity | contradiction].
  - destruct data; [congruence | discriminate].
  - intros x Hx. apply in_map_iff in Hx. destruct Hx as (r & <- & Hr).
    now apply Hall.
Qed.

Lemma row_boundary_adjacent_AC_witness :
  let s d l :=
    {| phase_sector_boundary_from_zoom.m_phi := 1;
       phase_sector_boundary_from_zoom.Delta_phi_ini := d;
       phase_sector_boundary_from_zoom.sector := l |} in
  phase_sector_boundary_from_zoom.boundary_points
    [s 0.1 "C"%string; s 0.2 "A"%string; s 0.3 "B"%string]
  = [(1, (0.1 + 0.2) / 2)].
Proof.
  intros s.
  rewrite (proj2 (proj2 (proj2 row_boundary_adjacent_AC)) 1).
  - reflexivity.
  - discriminate.
  - intros r [<- | [<- | [<- | []]]]; reflexivity.
  - unfold s. repeat constructor; unfold key_le; simpl; lra.
Defined.

(* ================================================================= *)
(** * Facts about the aggregation *)

Section DefaultdictFacts.
Context {K V : Type}.
Variable K_eq_dec : forall a b : K, {a = b} + {a <> b}.

Lemma dict_get_append (k m : K) (v : V) (d : list (K * list V)) :
  dict_get K_eq_dec (dict_append K_eq_dec k v d) m
  = if K_eq_dec k m then dict_get K_eq_dec d m ++ [v]
    else dict_get K_eq_dec d m.
Proof.
  induction d as [| [k' vs] d IH]; simpl.
  - destruct (K_eq_dec k m); reflexivity.
  - destruct (K_eq_dec k' k) as [E | N]; simpl.
    + subst k'. destruct (K_eq_dec k m); reflexivity.
    + destruct (K_eq_dec k' m) as [E' | N'].
      * subst k'. destruct (K_eq_dec k m); [congruence | reflexivity].
      * exact IH.
Qed.

Lemma dict_append_keys (k m : K) (v : V) (d : list (K * list V)) :
  In m (map fst (dict_append K_eq_dec k v d)) <-> m = k \/ In m (map fst d).
Proof.
  induction d as [| [k' vs] d IH]; simpl.
  - intuition.
  - destruct (K_eq_dec k' k) as [E | N]; simpl.
    + subst k'. intuition.
    + rewrite IH. intuition.
Qed.

(** A key is listed exactly when some value was appended under it. *)
Lemma dict_keys_nonempty (d : list (K * list V)) :
  (forall k, In k (map fst d) <-> dict_get K_eq_dec d k <> []) ->
  forall k v m,
    In m (map fst (dict_append K_eq_dec k v d))
    <-> dict_get K_eq_dec (dict_append K_eq_dec k v d) m <> [].
Proof.
  intros H k v m. rewrite dict_append_keys, dict_get_append, H.
  destruct (K_eq_dec k m) as [E | N].
  - split; [intros _ | intros _; left; congruence].
    destruct (dict_get K_eq_dec d m); discriminate.
  - split; [intros [E | G]; [congruence | exact G] | intros G; now right].
Qed.
End DefaultdictFacts.

Section AggregationFacts.
Import compute_mphi_crit.

Lemma group_rows_fold (rows : list row) :
  group_rows rows = fold_left add_row rows [].
Proof. reflexivity. Qed.

Lemma fold_add_row_get (rows : list row) (g : list (R * list R)) (m : R) :
  dict_get Req_dec_T (fold_left add_row rows g) m
  = dict_get Req_dec_T g m ++ samples_at rows m.
Proof.
  revert g. induction rows as [| r rest IH]; intros g; simpl.
  - now rewrite app_nil_r.
  - rewrite IH. unfold add_row. destruct (P_A r) as [| p]; [reflexivity |].
    rewrite dict_get_append.
    destruct (Req_dec_T (m_phi r) m); [| reflexivity].
    now rewrite <- app_assoc.
Qed.

(** The group of a coordinate holds its non-NaN responses in row order. *)
Lemma group_rows_get (rows : list row) (m : R) :
  dict_get Req_dec_T (group_rows rows) m = samples_at rows m.
Proof. rewrite group_rows_fold, fold_add_row_get. reflexivity. Qed.

Lemma fold_add_row_keys (rows : list row) (g : list (R * list R)) :
  (forall k, In k (map fst g) <-> dict_get Req_dec_T g k <> []) ->
  forall k, In k (map fst (fold_left add_row rows g))
            <-> dict_get Req_dec_T (fold_left add_row rows g) k <> [].
Proof.
  revert g. induction rows as [| r rest IH]; intros g Hg; simpl;
    [exact Hg |].
  apply IH. unfold add_row. destruct (P_A r) as [| p]; [exact Hg |].
  intros k. now apply dict_keys_nonempty.
Qed.

Lemma group_rows_keys (rows : list row) (m : R) :
  In m (map fst (group_rows rows)) <-> samples_at rows m <> [].
Proof.
  rewrite <- group_rows_get, group_rows_fold.
  apply fold_add_row_keys. intros k. simpl. tauto.
Qed.

Lemma group_rows_skip_nan (rows1 rows2 : list row) (r : row) :
  P_A r = NaN -> group_rows (rows1 ++ r :: rows2) = group_rows (rows1 ++ rows2).
Proof.
  intros H. rewrite !group_rows_fold, !fold_left_app. simpl.
  unfold add_row at 2. now rewrite H.
Qed.
End AggregationFacts.

Lemma sq_dev_squares (l : list R) :
  sq_dev l = map (fun x => (x - mean l) * (x - mean l)) l.
Proof.
  unfold sq_dev. apply map_ext. intros x.
  rewrite <- Rabs_mult. apply Rabs_pos_eq.
  set (a := x - mean l). nra.
Qed.

Lemma std_ddof1_sample_std (l : list R) :
  (if (1 <? length l)%nat then std_ddof1 l else 0) = sample_std l.
Proof.
  unfold sample_std, std_ddof1. rewrite sq_dev_squares.
  destruct (Nat.ltb_spec 1 (length l)) as [H | H];
    destruct (Nat.leb_spec (length l) 1) as [H' | H']; try lia; reflexivity.
Qed.
Section DistinctKeys.
Context {A : Type}.
Variable key : A -> R.

Lemma insert_by_NoDup (x : A) (l : list A) :
  ~ In x l -> NoDup l -> NoDup (insert_by key x l).
Proof.
  intros Hx Hl. induction l as [| y ys IH]; simpl.
  - constructor; [tauto | constructor].
  - destruct (Rle_dec (key x) (key y)).
    + now constructor.
    + inversion Hl; subst. constructor.
      * rewrite insert_by_In. simpl in Hx. intuition.
      * apply IH; [simpl in Hx; tauto | assumption].
Qed.

Lemma sort_by_NoDup (l : list A) : NoDup l -> NoDup (sort_by key l).
Proof.
  unfold sort_by. induction 1 as [| x l Hx Hl IH]; simpl; [constructor |].
  apply insert_by_NoDup; [| exact IH].
  fold (sort_by key l). now rewrite sort_by_In.
Qed.
End DistinctKeys.

Lemma dict_append_NoDup {K V : Type}
    (K_eq_dec : forall a b : K, {a = b} + {a <> b})
    (k : K) (v : V) (d : list (K * list V)) :
  NoDup (map fst d) -> NoDup (map fst (dict_append K_eq_dec k v d)).
Proof.
  induction d as [| [k' vs] d IH]; simpl; intros H.
  - constructor; [tauto | constructor].
  - inversion H; subst. destruct (K_eq_dec k' k) as [E | N]; simpl.
    + now constructor.
    + constructor; [| now apply IH].
      rewrite dict_append_keys. intros [E | G]; [congruence | contradiction].
Qed.

Lemma group_rows_NoDup (rows : list compute_mphi_crit.row) :
  NoDup (map fst (compute_mphi_crit.group_rows rows)).
Proof.
  rewrite group_rows_fold.
  assert (G : forall g, NoDup (map fst g) ->
                        NoDup (map fst (fold_left add_row rows g))).
  { induction rows as [| r rest IH]; intros g Hg; simpl; [exact Hg |].
    apply IH. unfold add_row.
    destruct (compute_mphi_crit.P_A r); [exact Hg |].
    now apply dict_append_NoDup. }
  apply G. constructor.
Qed.

(** C7. [compute_PA_vs_mphi] yields one entry per coordinate value that
    has a response other than NaN, the values ascending and distinct; the
    response of a coordinate is the mean of its samples and the
    uncertainty their unbiased sample standard deviation (divisor N - 1, 0
    for a single sample); a row whose response is NaN changes nothing.  A
    response read from counts is N_A / N_total, formed only for
    N_total > 0, and lies in [0,1] when 0 <= N_A <= N_total. *)
Theorem compute_PA_vs_mphi_statistics (rows : list compute_mphi_crit.row) :
  let '(mphi_vals, PA_means, PA_stds) :=
    compute_mphi_crit.compute_PA_vs_mphi rows in
  (ascending mphi_vals /\ NoDup mphi_vals)
  /\ (forall m, In m mphi_vals <-> samples_at rows m <> [])
  /\ PA_means = map (fun m => mean (samples_at rows m)) mphi_vals
  /\ PA_stds = map (fun m => sample_std (samples_at rows m)) mphi_vals
  /\ (forall x, sample_std [x] = 0)
  /\ (forall rows1 r rows2,
         rows = rows1 ++ r :: rows2 -> compute_mphi_crit.P_A r = NaN ->
         compute_mphi_crit.compute_PA_vs_mphi rows
         = compute_mphi_crit.compute_PA_vs_mphi (rows1 ++ rows2))
  /\ (forall c r,
         compute_mphi_crit.read_row c = Some r ->
         compute_mphi_crit.csv_P_A c = compute_mphi_crit.Absent
         \/ compute_mphi_crit.csv_P_A c = compute_mphi_crit.Blank ->
         exists a n,
           compute_mphi_crit.csv_N_A c = compute_mphi_crit.Parsed a
           /\ compute_mphi_crit.csv_N_total c
              = compute_mphi_crit.Parsed (Fin n)
           /\ 0 < n
           /\ compute_mphi_crit.P_A r = fdiv a (Fin n)
           /\ forall x, a = Fin x ->
                compute_mphi_crit.P_A r = Fin (x / n)
                /\ (0 <= x <= n -> 0 <= x / n <= 1)).
Proof.
  unfold compute_mphi_crit.compute_PA_vs_mphi. cbv zeta.
  split; [split |]; [apply sorted_ascending | |].
  { apply sort_by_NoDup, group_rows_NoDup. }
  split; [| split; [| split; [| split; [| split]]]].
  - intros m. unfold sorted. rewrite sort_by_In. apply group_rows_keys.
  - apply map_ext. intros m. now rewrite group_rows_get.
  - apply map_ext. intros m. cbv zeta.
    rewrite std_ddof1_sample_std. now rewrite group_rows_get.
  - intros x. reflexivity.
  - intros rows1 r rows2 -> Hnan. now rewrite (group_rows_skip_nan _ _ _ Hnan).
  - intros c r Hread Hpa. unfold compute_mphi_crit.read_row in Hread.
    destruct (compute_mphi_crit.csv_m_phi c) as [| | | m]; try discriminate.
    destruct (compute_mphi_crit.csv_k_rot c) as [| | | k]; try discriminate;
      (destruct (compute_mphi_crit.csv_P_A c) as [| | | p];
       [ | | discriminate | destruct Hpa; discriminate ]);
      (destruct (compute_mphi_crit.csv_N_total c) as [| | | [| n]];
       try discriminate;
       destruct (compute_mphi_crit.csv_N_A c) as [| | | a];
       try discriminate;
       simpl in Hread; destruct (Rlt_dec 0 n) as [Hn | Hn];
       try discriminate;
       inversion Hread; subst; simpl;
       exists a, n; repeat split; try assumption;
       try (subst a; simpl; destruct (Req_dec_T n 0); [lra | reflexivity]);
       try (apply Rmult_le_pos; [lra | left; now apply Rinv_0_lt_compat]);
       try (apply (Rmult_le_reg_r n); [assumption |];
            unfold Rdiv; rewrite Rmult_assoc, Rinv_l by lra; lra)).
Qed.

Lemma compute_PA_vs_mphi_statistics_witness :
  let r m p := {| compute_mphi_crit.m_phi := m; compute_mphi_crit.k_rot := 0;
                  compute_mphi_crit.P_A := p |} in
  compute_mphi_crit.compute_PA_vs_mphi
    [r 2 (Fin 0.3); r 1 (Fin 0.4); r 1 NaN; r 1 (Fin 0.6)]
  = ([1; 2], [0.5; 0.3], [sample_std [0.4; 0.6]; 0]).
Proof.
  intros r.
  pose proof (compute_PA_vs_mphi_statistics
                [r 2 (Fin 0.3); r 1 (Fin 0.4); r 1 NaN; r 1 (Fin 0.6)]) as H.
  unfold compute_mphi_crit.compute_PA_vs_mphi in *. cbv zeta in H.
  destruct H as (_ & _ & Hm & Hs & _).
  rewrite Hm, Hs.
  assert (K : sorted
                (map fst
                   (compute_mphi_crit.group_rows
                      [r 2 (Fin 0.3); r 1 (Fin 0.4); r 1 NaN; r 1 (Fin 0.6)]))
              = [1; 2]).
  { unfold compute_mphi_crit.group_rows, sorted, sort_by, r.
    decide_reals. reflexivity. }
  rewrite K. unfold r. decide_reals.
  unfold mean, sum. simpl.
  repeat f_equal; lra.
Defined.

(** A count row whose numerator exceeds the denominator gives a response
    above 1: nothing in the reader restricts the ratio to [0,1]. *)
Lemma read_row_ratio_above_one :
  let c := {| compute_mphi_crit.csv_m_phi := compute_mphi_crit.Parsed 1;
              compute_mphi_crit.csv_k_rot := compute_mphi_crit.Parsed 0;
              compute_mphi_crit.csv_P_A := compute_mphi_crit.Absent;
              compute_mphi_crit.csv_N_total :=
                compute_mphi_crit.Parsed (Fin 3);
              compute_mphi_crit.csv_N_A :=
                compute_mphi_crit.Parsed (Fin 5) |} in
  compute_mphi_crit.read_row c
  = Some {| compute_mphi_crit.m_phi := 1; compute_mphi_crit.k_rot := 0;
            compute_mphi_crit.P_A := Fin (5 / 3) |}
  /\ ~ (0 <= 5 / 3 <= 1).
Proof.
  split.
  - unfold compute_mphi_crit.read_row. decide_reals. reflexivity.
  - lra.
Qed.

(* ================================================================= *)
(** * Facts about the three-way classifier *)

Lemma two_pi : 2.0 * PI = 2 * PI.
Proof. lra. Qed.

Lemma two_pi_pos : 0 < 2 * PI.
Proof. pose proof PI_RGT_0. lra. Qed.








Lemma Int_part_shift (y : R) (k : Z) :
  Int_part (y + IZR k) = (Int_part y + k)%Z.
Proof.
  symmetry. apply Int_part_spec. rewrite plus_IZR.
  destruct (base_Int_part y) as [H1 H2]. lra.
Qed.

(** Reduction modulo 2 pi forgets whole periods. *)
Lemma np_mod_shift (x : R) (k : Z) :
  np_mod (x + 2 * PI * IZR k) (2 * PI) = np_mod x (2 * PI).
Proof.
  unfold np_mod. pose proof two_pi_pos as Hp.
  replace ((x + 2 * PI * IZR k) / (2 * PI)) with (x / (2 * PI) + IZR k)
    by (field; lra).
  rewrite Int_part_shift, plus_IZR. ring.
Qed.

Lemma shift_periods_length (xs : list R) (ks : list Z) :
  length ks = length xs -> length (shift_periods xs ks) = length xs.
Proof.
  intros H. unfold shift_periods. rewrite length_map, length_combine. lia.
Qed.

Lemma shift_periods_tail (n : nat) (xs : list R) (ks : list Z) :
  length ks = length xs ->
  map (fun x => np_mod x (2 * PI)) (skipn n (shift_periods xs ks))
  = map (fun x => np_mod x (2 * PI)) (skipn n xs).
Proof.
  unfold shift_periods. revert xs ks.
  induction n as [| n IH]; intros xs ks H.
  - simpl. revert ks H. induction xs as [| x xs IHx]; intros ks H;
      [reflexivity |].
    destruct ks as [| k ks]; [discriminate |]. simpl.
    rewrite np_mod_shift. f_equal. apply IHx. simpl in H. lia.
  - destruct xs as [| x xs]; [reflexivity |].
    destruct ks as [| k ks]; [discriminate |]. simpl.
    apply IH. simpl in H. lia.
Qed.

(** In exact arithmetic, shifting every value of a trajectory by a whole
    number of periods 2 pi leaves its label unchanged. *)
Lemma classify_exact_arithmetic_periodic (xs : list R) (ks : list Z) :
  length ks = length xs ->
  phase_sector_scan.classify_phase_trajectory (shift_periods xs ks)
  = phase_sector_scan.classify_phase_trajectory xs.
Proof.
  intros H. unfold phase_sector_scan.classify_phase_trajectory. cbv zeta.
  rewrite (shift_periods_length xs ks H), two_pi.
  now rewrite (shift_periods_tail _ xs ks H).
Qed.

Section DoublePrecision.
Import PrimFloat binary64.
Local Open Scope float_scope.

(** The remainder forgets whole periods that were added without rounding. *)
Lemma np_mod_exact_shift (x : float) (k : Z) :
  exact_shift x k ->
  np_mod (x + 2.0 * np_pi * of_int k) (2.0 * np_pi)
  = np_mod x (2.0 * np_pi).
Proof.
  intros (a & d & Ha & Hd & Hs). unfold np_mod. rewrite Ha, Hd, Hs.
  destruct (d =? 0)%Z; [reflexivity |].
  now rewrite Z_mod_plus_full.
Qed.

Lemma shift_periods_double_length (xs : list float) (ks : list Z) :
  Forall2 exact_shift xs ks ->
  length (shift_periods_double xs ks) = length xs.
Proof.
  intros H. unfold shift_periods_double.
  rewrite length_map, length_combine, (Forall2_length H). lia.
Qed.

Lemma shift_periods_double_tail (n : nat) (xs : list float) (ks : list Z) :
  Forall2 exact_shift xs ks ->
  map (fun x => np_mod x (2.0 * np_pi))
      (skipn n (shift_periods_double xs ks))
  = map (fun x => np_mod x (2.0 * np_pi)) (skipn n xs).
Proof.
  intros H. revert n. unfold shift_periods_double.
  induction H as [| x k xs ks Hx _ IH]; intros n.
  - now destruct n.
  - destruct n as [| n]; [| apply IH].
    specialize (IH 0%nat). simpl in *.
    now rewrite np_mod_exact_shift, IH.
Qed.
End DoublePrecision.

(** C10. On doubles the label is unchanged when every value of the
    trajectory is shifted by a whole number of periods and no shift is
    rounded: the computed x + 2 pi k is exactly x plus k times the double
    2 pi.  The tail is then the same after reduction modulo 2 pi, and the
    length is the same. *)
Theorem classify_phase_trajectory_exact_shifts
    (xs : list binary64.float) (ks : list Z) :
  Forall2 exact_shift xs ks ->
  phase_sector_scan.double.classify_phase_trajectory
    (shift_periods_double xs ks)
  = phase_sector_scan.double.classify_phase_trajectory xs.
Proof.
  intros H. unfold phase_sector_scan.double.classify_phase_trajectory.
  cbv zeta. rewrite (shift_periods_double_length xs ks H).
  now rewrite (shift_periods_double_tail _ xs ks H).
Qed.

Lemma Forall2_repeat {A B : Type} (P : A -> B -> Prop) (a : A) (b : B)
    (n : nat) :
  P a b -> Forall2 P (repeat a n) (repeat b n).
Proof.
  intros H. induction n as [| n IH]; simpl; now constructor.
Qed.

Lemma classify_phase_trajectory_exact_shifts_witness :
  let xs := repeat (binary64.of_int 1) 54 ++ repeat (binary64.of_int 3) 6 in
  let ks := repeat 1%Z 54 ++ repeat 2%Z 6 in
  phase_sector_scan.double.classify_phase_trajectory xs = "B"%string
  /\ phase_sector_scan.double.classify_phase_trajectory
       (shift_periods_double xs ks) = "B"%string.
Proof.
  intros xs ks.
  assert (E : phase_sector_scan.double.classify_phase_trajectory xs
              = "B"%string) by (vm_compute; reflexivity).
  split; [exact E |].
  rewrite (classify_phase_trajectory_exact_shifts xs ks); [exact E |].
  apply Forall2_app; apply Forall2_repeat;
    (eexists _, _; split; [| split]; vm_compute; reflexivity).
Defined.

(** Sixty zeros are labelled A.  Shifted by 1000 periods they are
    labelled C: the double 2 pi * 1000 lies below 1000 times the double
    2 pi, and is reduced to a value just under 2 pi instead of 0. *)
Lemma classify_phase_trajectory_rounded_shift :
  let xs := repeat (binary64.of_int 0) 60 in
  let ks := repeat 1000%Z 60 in
  phase_sector_scan.double.classify_phase_trajectory xs = "A"%string
  /\ phase_sector_scan.double.classify_phase_trajectory
       (shift_periods_double xs ks) = "C"%string
  /\ ~ exact_shift (binary64.of_int 0) 1000.
Proof.
  split; [vm_compute; reflexivity | split; [vm_compute; reflexivity |]].
  intros (a & d & Ha & Hd & Hs).
  vm_compute in Ha. vm_compute in Hd.
  inversion Ha; inversion Hd; subst. vm_compute in Hs. discriminate Hs.
Qed.

(** Constant trajectories, used to exercise the classifier. *)
Lemma skipn_repeat {A : Type} (c : A) (k n : nat) :
  skipn k (repeat c n) = repeat c (n - k).
Proof.
  revert n. induction k as [| k IH]; intros n.
  - now rewrite Nat.sub_0_r.
  - destruct n as [| n]; [reflexivity | simpl; apply IH].
Qed.

Lemma sum_repeat (c : R) (n : nat) : sum (repeat c n) = INR n * c.
Proof.
  induction n as [| n IH]; [simpl; lra |].
  rewrite S_INR. cbn [repeat]. unfold sum in *. cbn [fold_right].
  rewrite IH. ring.
Qed.

Lemma mean_repeat (c : R) (n : nat) : mean (repeat c (S n)) = c.
Proof.
  unfold mean. rewrite sum_repeat, repeat_length.
  field. apply not_0_INR. lia.
Qed.

Lemma std_repeat (c : R) (n : nat) : std (repeat c (S n)) = 0.
Proof.
  unfold std, sq_dev. rewrite mean_repeat, map_repeat.
  replace (c - c) with 0 by ring. rewrite Rabs_R0, Rmult_0_l.
  rewrite mean_repeat. apply sqrt_0.
Qed.





(* ================================================================= *)
(** * Facts about the parameter sweep *)

Section SweepFacts.
Import phase_evolution_ode phase_sector_scan.
Variable solve_ivp : solver.

Lemma scan_point_returns (pt : R * R * R * R) (sol : ode_result) :
  solve_ivp (problem_of pt) = Ok sol ->
  exists r, scan_point solve_ivp pt = Ok r /\ point_of r = pt.
Proof.
  destruct pt as [[[m k] q] d]. intros H.
  unfold scan_point, run_phase_evolution. unfold problem_of in H.
  rewrite H. simpl. eexists. split; reflexivity.
Qed.

Lemma scan_point_raises (pt : R * R * R * R) (e : exn) :
  solve_ivp (problem_of pt) = Raise e -> scan_point solve_ivp pt = Raise e.
Proof.
  destruct pt as [[[m k] q] d]. intros H.
  unfold scan_point, run_phase_evolution. unfold problem_of in H.
  now rewrite H.
Qed.

(** While the solver returns, every grid point adds its row, in order. *)
Lemma scan_loop_returns (pts : list (R * R * R * R))
    (written : list summary_row) :
  (forall pt, In pt pts -> exists sol, solve_ivp (problem_of pt) = Ok sol) ->
  exists rows,
    scan_loop solve_ivp pts written = (written ++ rows, Ok tt)
    /\ map point_of rows = pts.
Proof.
  revert written. induction pts as [| pt rest IH]; intros written H.
  - exists []. simpl. now rewrite app_nil_r.
  - destruct (H pt (or_introl eq_refl)) as [sol Hsol].
    destruct (scan_point_returns pt sol Hsol) as (r & Hr & Hp).
    destruct (IH (written ++ [r])) as (rows & Hrows & Hpts).
    { intros p Hin. apply H. now right. }
    exists (r :: rows). simpl. rewrite Hr, Hrows, <- app_assoc.
    simpl. split; [reflexivity | congruence].
Qed.

(** The first grid point at which the solver raises ends the sweep. *)
Lemma scan_loop_raises (pre post : list (R * R * R * R))
    (pt : R * R * R * R) (e : exn) (written : list summary_row) :
  (forall p, In p pre -> exists sol, solve_ivp (problem_of p) = Ok sol) ->
  solve_ivp (problem_of pt) = Raise e ->
  exists rows,
    scan_loop solve_ivp (pre ++ pt :: post) written
    = (written ++ rows, Raise e)
    /\ map point_of rows = pre.
Proof.
  revert written. induction pre as [| p pre IH]; intros written H He.
  - exists []. simpl. rewrite (scan_point_raises pt e He).
    now rewrite app_nil_r.
  - destruct (H p (or_introl eq_refl)) as [sol Hsol].
    destruct (scan_point_returns p sol Hsol) as (r & Hr & Hp).
    destruct (IH (written ++ [r])) as (rows & Hrows & Hpts).
    { intros p' Hin. apply H. now right. }
    { exact He. }
    exists (r :: rows). simpl. rewrite Hr, Hrows, <- app_assoc.
    simpl. split; [reflexivity | congruence].
Qed.

(** The [success] flag of the solver plays no part in the sweep. *)
Lemma scan_point_ignores_success (b : bool) (pt : R * R * R * R) :
  scan_point (fun p => with_success b (solve_ivp p)) pt
  = scan_point solve_ivp pt.
Proof.
  destruct pt as [[[m k] q] d]. unfold scan_point, run_phase_evolution.
  destruct (solve_ivp _); reflexivity.
Qed.

Lemma scan_loop_ignores_success (b : bool) (pts : list (R * R * R * R))
    (written : list summary_row) :
  scan_loop (fun p => with_success b (solve_ivp p)) pts written
  = scan_loop solve_ivp pts written.
Proof.
  revert written. induction pts as [| pt rest IH]; intros written;
    [reflexivity |].
  simpl. rewrite scan_point_ignores_success.
  destruct (scan_point solve_ivp pt); [apply IH | reflexivity].
Qed.
End SweepFacts.

(** C5, as the sweep behaves.  While the solver returns at every grid
    point the sweep writes one row per grid point, in grid order.  When
    the solver raises at a grid point the sweep ends there with that
    exception: the rows of the earlier grid points are written and no
    later grid point is processed.  The solver's [success] flag is not
    consulted: the sweep is the same whatever the flag says. *)
Theorem sweep_failure_behaviour (solve_ivp : phase_evolution_ode.solver) :
  let grid :=
    phase_sector_scan.grid_points
      phase_sector_scan.m_phi_list phase_sector_scan.k_rot_list
      phase_sector_scan.q_list phase_sector_scan.delta_phi_ini_list in
  ((forall pt, In pt grid -> exists sol, solve_ivp (problem_of pt) = Ok sol) ->
   exists rows,
     phase_sector_scan.main solve_ivp = (rows, Ok tt)
     /\ map point_of rows = grid)
  /\ (forall pre pt post e,
         grid = pre ++ pt :: post ->
         (forall p, In p pre ->
                    exists sol, solve_ivp (problem_of p) = Ok sol) ->
         solve_ivp (problem_of pt) = Raise e ->
         exists rows,
           phase_sector_scan.main solve_ivp = (rows, Raise e)
           /\ map point_of rows = pre)
  /\ (forall b,
         phase_sector_scan.main (fun p => with_success b (solve_ivp p))
         = phase_sector_scan.main solve_ivp).
Proof.
  intros grid. unfold phase_sector_scan.main. fold grid. split; [| split].
  - intros H.
    destruct (scan_loop_returns solve_ivp grid [] H) as (rows & E & P).
    exists rows. now split.
  - intros pre pt post e Hg Hpre He. rewrite Hg.
    destruct (scan_loop_raises solve_ivp pre post pt e [] Hpre He)
      as (rows & E & P).
    exists rows. now split.
  - intros b. apply scan_loop_ignores_success.
Qed.

(** With a solver that raises whenever [m_phi = 0.2] the sweep ends at its
    first grid point: nothing is written, although the solver returns at
    the grid point (0.5, 0, 1, 0.01).  With a solver that returns an empty
    solution flagged as failed, the grid point gets an ordinary row of
    sector C. *)
Lemma sweep_aborts_on_failure :
  phase_sector_scan.main solver_failing_at_02 = ([], Raise SolverError)
  /\ In (0.5, 0.0, 1.0, 0.01)
        (phase_sector_scan.grid_points
           phase_sector_scan.m_phi_list phase_sector_scan.k_rot_list
           phase_sector_scan.q_list phase_sector_scan.delta_phi_ini_list)
  /\ (exists sol, solver_failing_at_02 (problem_of (0.5, 0.0, 1.0, 0.01))
                  = Ok sol)
  /\ phase_sector_scan.scan_point solver_flagging_failure
       (0.2, 0.0, 1.0, 0.01)
     = Ok {| phase_sector_scan.row_m_phi := 0.2;
             phase_sector_scan.row_k_rot := 0.0;
             phase_sector_scan.row_q := 1.0;
             phase_sector_scan.row_delta_phi_ini := 0.01;
             phase_sector_scan.row_sector := "C"%string;
             phase_sector_scan.row_phi_mean_tail := NaN;
             phase_sector_scan.row_phi_std_tail := NaN |}.
Proof.
  split; [| split; [| split]]; [| | | reflexivity].
  - unfold phase_sector_scan.main. simpl.
    unfold phase_evolution_ode.run_phase_evolution, solver_failing_at_02.
    simpl. destruct (Req_dec_T 0.2 0.2); [reflexivity | lra].
  - simpl. tauto.
  - unfold solver_failing_at_02, problem_of. simpl.
    destruct (Req_dec_T 0.5 0.2); [lra | eauto].
Qed.

Lemma sweep_failure_behaviour_witness :
  exists rows,
    phase_sector_scan.main solver_failing_at_02 = (rows, Raise SolverError)
    /\ map point_of rows = [].
Proof.
  refine (proj1 (proj2 (sweep_failure_behaviour solver_failing_at_02))
            [] (0.2, 0.0, 1.0, 0.01) _ SolverError eq_refl _ _).
  - intros p [].
  - unfold solver_failing_at_02, problem_of. simpl.
    destruct (Req_dec_T 0.2 0.2); [reflexivity | lra].
Defined.

(* ================================================================= *)
(** * Facts about the grids *)

Lemma mem_In (x : R) (l : list R) : mem x l = true <-> In x l.
Proof.
  induction l as [| y ys IH]; simpl; [split; [discriminate | tauto] |].
  destruct (Req_dec_T y x) as [E | N].
  - split; [intros _; now left | reflexivity].
  - rewrite IH. split; [intros H; now right |].
    intros [E | H]; [congruence | exact H].
Qed.

Lemma distinct_In (x : R) (l : list R) : In x (distinct l) <-> In x l.
Proof.
  induction l as [| y ys IH]; simpl; [reflexivity |].
  destruct (mem y ys) eqn:E.
  - rewrite IH. apply mem_In in E. split; [tauto | intros [-> | H]; assumption].
  - simpl. rewrite IH. reflexivity.
Qed.

Lemma distinct_NoDup (l : list R) : NoDup (distinct l).
Proof.
  induction l as [| y ys IH]; simpl; [constructor |].
  destruct (mem y ys) eqn:E; [exact IH |].
  constructor; [| exact IH].
  rewrite distinct_In, <- mem_In. congruence.
Qed.

(** [sorted(set(l))]: the values of [l], ascending and without repetition. *)
Lemma sorted_distinct (l : list R) :
  ascending (sorted (distinct l)) /\ NoDup (sorted (distinct l))
  /\ forall x, In x (sorted (distinct l)) <-> In x l.
Proof.
  split; [apply sorted_ascending | split].
  - apply sort_by_NoDup, distinct_NoDup.
  - intros x. unfold sorted. now rewrite sort_by_In, distinct_In.
Qed.

Section ContinuousGridFacts.
Import phase_sector_map_2D.

Lemma group_cells_fold (rows : list (R * R * pyfloat)) :
  group_cells rows = fold_left add_cell rows [].
Proof. reflexivity. Qed.

Lemma fold_add_cell_get (rows : list (R * R * pyfloat))
    (g : list (R * R * list pyfloat)) (m k : R) :
  dict_get pair_eq_dec (fold_left add_cell rows g) (m, k)
  = dict_get pair_eq_dec g (m, k) ++ values_at rows m k.
Proof.
  revert g. induction rows as [| [[m' k'] p] rest IH]; intros g; simpl.
  - now rewrite app_nil_r.
  - rewrite IH, dict_get_append.
    destruct (pair_eq_dec (m', k') (m, k)); [| reflexivity].
    now rewrite <- app_assoc.
Qed.

(** A cell of the dictionary holds the responses recorded at its pair. *)
Lemma group_cells_get (rows : list (R * R * pyfloat)) (m k : R) :
  dict_get pair_eq_dec (group_cells rows) (m, k) = values_at rows m k.
Proof. rewrite group_cells_fold, fold_add_cell_get. reflexivity. Qed.

Lemma fold_add_cell_keys (rows : list (R * R * pyfloat))
    (g : list (R * R * list pyfloat)) (c : R * R) :
  In c (map fst (fold_left add_cell rows g))
  <-> In c (map fst g) \/ exists p, In (c, p) rows.
Proof.
  revert g. induction rows as [| [[m' k'] p] rest IH]; intros g; simpl.
  - split; [now left | intros [H | [p []]]; exact H].
  - rewrite IH, dict_append_keys. split.
    + intros [[E | H] | [p' H]].
      * right. exists p. left. congruence.
      * now left.
      * right. exists p'. now right.
    + intros [H | [p' [E | H]]].
      * left. now right.
      * left. left. congruence.
      * right. now exists p'.
Qed.

Lemma group_cells_keys (rows : list (R * R * pyfloat)) (c : R * R) :
  In c (map fst (group_cells rows)) <-> exists p, In (c, p) rows.
Proof.
  rewrite group_cells_fold, fold_add_cell_keys. simpl. tauto.
Qed.

Lemma values_at_empty (rows : list (R * R * pyfloat)) (m k : R) :
  values_at rows m k = [] <-> forall p, ~ In (m, k, p) rows.
Proof.
  induction rows as [| [[m' k'] p'] rest IH]; simpl.
  - split; [intros _ p [] | reflexivity].
  - destruct (pair_eq_dec (m', k') (m, k)) as [E | N].
    + split; [discriminate |]. intros H. exfalso. apply (H p').
      left. congruence.
    + rewrite IH. split.
      * intros H p [E | Hin]; [congruence | now apply (H p)].
      * intros H p Hin. apply (H p). now right.
Qed.
End ContinuousGridFacts.
Section CategoricalGridFacts.
Import phase_sector_map.

Lemma index_found (x : R) (l : list R) :
  In x l -> exists i, index x l = Some i /\ nth_error l i = Some x.
Proof.
  induction l as [| y ys IH]; simpl; [tauto |]. intros H.
  destruct (Req_dec_T y x) as [E | N].
  - exists 0%nat. subst. split; reflexivity.
  - destruct H as [E | H]; [congruence |].
    destruct (IH H) as (i & Hi & Hn). exists (S i). rewrite Hi.
    split; [reflexivity | exact Hn].
Qed.

Lemma set_item_length {A : Type} (l : list A) (i : nat) (v : A) :
  length (set_item l i v) = length l.
Proof.
  revert i. induction l as [| x xs IH]; intros [| i]; simpl; auto.
Qed.

Lemma nth_set_item_same {A : Type} (l : list A) (i : nat) (v d : A) :
  (i < length l)%nat -> nth i (set_item l i v) d = v.
Proof.
  revert i. induction l as [| x xs IH]; intros [| i] H; simpl in *;
    try lia; [reflexivity | apply IH; lia].
Qed.

Lemma nth_set_item_other {A : Type} (l : list A) (i j : nat) (v d : A) :
  i <> j -> nth j (set_item l i v) d = nth j l d.
Proof.
  revert i j. induction l as [| x xs IH]; intros [| i] [| j] H; simpl;
    try reflexivity; try congruence.
  apply IH. congruence.
Qed.

Lemma set_item_In {A : Type} (l : list A) (i : nat) (v x : A) :
  In x (set_item l i v) -> x = v \/ In x l.
Proof.
  revert i. induction l as [| y ys IH]; intros [| i]; simpl; try tauto.
  - intros [E | H]; [left; congruence | right; now right].
  - intros [E | H]; [right; now left |].
    destruct (IH i H) as [E | G]; [now left | right; now right].
Qed.

Lemma set_cell_shape (G : list (list Z)) (a b i j : nat) (v : Z) :
  has_shape G a b -> has_shape (set_cell G i j v) a b.
Proof.
  intros [Ha Hb]. unfold set_cell.
  destruct (nth_error G i) as [line |] eqn:E; [| now split].
  split; [now rewrite set_item_length |].
  intros line' Hin. apply set_item_In in Hin. destruct Hin as [-> | Hin].
  - rewrite set_item_length. apply Hb. eapply nth_error_In. exact E.
  - now apply Hb.
Qed.

Lemma cell_set_cell (G : list (list Z)) (a b i0 j0 i j : nat) (v : Z) :
  has_shape G a b -> (i0 < a)%nat -> (j0 < b)%nat ->
  cell_at (set_cell G i0 j0 v) i j
  = if (i =? i0)%nat && (j =? j0)%nat then v else cell_at G i j.
Proof.
  intros [Ha Hb] Hi Hj. unfold set_cell, cell_at.
  destruct (nth_error G i0) as [line |] eqn:E.
  2:{ apply nth_error_None in E. lia. }
  assert (Hline : length line = b)
    by (apply Hb; eapply nth_error_In; exact E).
  destruct (Nat.eqb_spec i i0) as [-> | Hne]; simpl.
  - rewrite nth_set_item_same by lia.
    rewrite (nth_error_nth _ _ [] E).
    destruct (Nat.eqb_spec j j0) as [-> | Hnj].
    + apply nth_set_item_same. lia.
    + apply nth_set_item_other. congruence.
  - rewrite nth_set_item_other by congruence. reflexivity.
Qed.

Lemma zeros_shape (a b : nat) : has_shape (zeros a b) a b.
Proof.
  unfold zeros. split; [apply repeat_length |].
  intros line H. apply repeat_spec in H. subst. apply repeat_length.
Qed.

Lemma cell_zeros (a b i j : nat) : cell_at (zeros a b) i j = 0%Z.
Proof.
  unfold cell_at, zeros.
  destruct (Nat.lt_ge_cases i a) as [Hi | Hi].
  - rewrite nth_repeat_lt by exact Hi. apply nth_repeat.
  - rewrite (nth_overflow (repeat (repeat 0%Z b) a) [])
      by (rewrite repeat_length; exact Hi).
    now destruct j.
Qed.

(** Two positions of a list without repetition hold the same value
    only when they are the same position. *)
Lemma nth_NoDup (l : list R) (i i0 : nat) (x : R) :
  NoDup l -> (i < length l)%nat ->
  nth_error l i0 = Some x -> (nth i l 0 = x <-> i = i0).
Proof.
  intros Hnd Hi H0. split.
  - intros E. apply (proj1 (NoDup_nth_error l) Hnd i i0 Hi).
    rewrite H0. rewrite <- E. now apply nth_error_nth'.
  - intros ->. now apply nth_error_nth.
Qed.

(** The filling loop: it raises nothing, and every cell ends with the
    code last written for its coordinate pair. *)
Lemma fill_cells (M K : list R) (rows : list summary) (G : list (list Z)) :
  NoDup M -> NoDup K -> has_shape G (length M) (length K) ->
  (forall r, In r rows -> In (m_phi r) M /\ In (k_rot r) K) ->
  exists G',
    fill M K rows G = Ok G'
    /\ has_shape G' (length M) (length K)
    /\ forall i j, (i < length M)%nat -> (j < length K)%nat ->
         cell_at G' i j
         = last_code rows (nth i M 0) (nth j K 0) (cell_at G i j).
Proof.
  intros HM HK. revert G.
  induction rows as [| r rest IH]; intros G Hs Hin.
  - exists G. simpl. auto.
  - destruct (Hin r (or_introl eq_refl)) as [Hm Hk].
    destruct (index_found _ _ Hm) as (i0 & Ei & Ni).
    destruct (index_found _ _ Hk) as (j0 & Ej & Nj).
    assert (Hi0 : (i0 < length M)%nat)
      by (apply nth_error_Some; rewrite Ni; discriminate).
    assert (Hj0 : (j0 < length K)%nat)
      by (apply nth_error_Some; rewrite Nj; discriminate).
    destruct (IH (set_cell G i0 j0 (code (sector r)))) as (G' & E & Hs' & Hc).
    { now apply set_cell_shape. }
    { intros r' Hr'. apply Hin. now right. }
    exists G'. simpl. unfold index_of. rewrite Ei, Ej. simpl.
    split; [exact E | split; [exact Hs' |]].
    intros i j Hi Hj. rewrite (Hc i j Hi Hj).
    rewrite (cell_set_cell G _ _ i0 j0 i j _ Hs Hi0 Hj0).
    unfold last_code. simpl. f_equal.
    destruct (Req_dec_T (m_phi r) (nth i M 0)) as [Em | Nm].
    + assert (i = i0) by (apply (nth_NoDup M i i0 (m_phi r)); auto).
      subst i. rewrite Nat.eqb_refl. simpl.
      destruct (Req_dec_T (k_rot r) (nth j K 0)) as [Ek | Nk].
      * assert (j = j0) by (apply (nth_NoDup K j j0 (k_rot r)); auto).
        subst j. now rewrite Nat.eqb_refl.
      * destruct (Nat.eqb_spec j j0) as [-> | _]; [| reflexivity].
        exfalso. apply Nk. symmetry. now apply nth_error_nth.
    + destruct (Nat.eqb_spec i i0) as [-> | _]; [| reflexivity].
      exfalso. apply Nm. symmetry. now apply nth_error_nth.
Qed.

Lemma code_range (s : string) : (code s = 0 \/ code s = 1 \/ code s = 2)%Z.
Proof.
  unfold code. destruct (String.eqb s "A"); [tauto |].
  destruct (String.eqb s "B"); tauto.
Qed.

Lemma last_code_range (rows : list summary) (m k : R) (c : Z) :
  (c = 0 \/ c = 1 \/ c = 2)%Z ->
  (last_code rows m k c = 0 \/ last_code rows m k c = 1
   \/ last_code rows m k c = 2)%Z.
Proof.
  unfold last_code. revert c.
  induction rows as [| r rest IH]; intros c Hc; simpl; [exact Hc |].
  apply IH. destruct (Req_dec_T (m_phi r) m); [| exact Hc].
  destruct (Req_dec_T (k_rot r) k); [apply code_range | exact Hc].
Qed.

Lemma last_code_unmatched (rows : list summary) (m k : R) (c : Z) :
  (forall r, In r rows -> ~ (m_phi r = m /\ k_rot r = k)) ->
  last_code rows m k c = c.
Proof.
  unfold last_code. revert c.
  induction rows as [| r rest IH]; intros c H; simpl; [reflexivity |].
  rewrite IH by (intros r' Hr'; apply H; now right).
  destruct (Req_dec_T (m_phi r) m) as [Em | _]; [| reflexivity].
  destruct (Req_dec_T (k_rot r) k) as [Ek | _]; [| reflexivity].
  exfalso. apply (H r); [now left | now split].
Qed.

Lemma last_code_last (before after : list summary) (r : summary)
    (m k : R) (c : Z) :
  m_phi r = m -> k_rot r = k ->
  (forall r', In r' after -> ~ (m_phi r' = m /\ k_rot r' = k)) ->
  last_code (before ++ r :: after) m k c = code (sector r).
Proof.
  intros Em Ek H. unfold last_code. rewrite fold_left_app. simpl.
  destruct (Req_dec_T (m_phi r) m); [| contradiction].
  destruct (Req_dec_T (k_rot r) k); [| contradiction].
  now apply last_code_unmatched.
Qed.

Lemma is_empty_nil {A : Type} (l : list A) : is_empty l = true -> l = [].
Proof. destruct l; [reflexivity | discriminate]. Qed.

(** [sector_grid] on a summary with rows to draw. *)
Lemma sector_grid_cells (rows : list summary) :
  rows_map rows <> [] ->
  exists G,
    sector_grid rows
    = Ok (sorted (distinct (map m_phi (rows_q rows))),
          sorted (distinct (map k_rot (rows_q rows))), G)
    /\ forall i j,
         (i < length (sorted (distinct (map m_phi (rows_q rows)))))%nat ->
         (j < length (sorted (distinct (map k_rot (rows_q rows)))))%nat ->
         cell_at G i j
         = last_code (rows_map rows)
             (nth i (sorted (distinct (map m_phi (rows_q rows)))) 0)
             (nth j (sorted (distinct (map k_rot (rows_q rows)))) 0) 0%Z.
Proof.
  intros Hne. unfold sector_grid. fold (rows_q rows). fold (rows_map rows).
  set (M := sorted (distinct (map m_phi (rows_q rows)))).
  set (K := sorted (distinct (map k_rot (rows_q rows)))).
  destruct (is_empty (rows_q rows)) eqn:Eq.
  { apply is_empty_nil in Eq. unfold rows_map in Hne. rewrite Eq in Hne.
    now contradiction Hne. }
  destruct (is_empty (rows_map rows)) eqn:Em.
  { apply is_empty_nil in Em. contradiction. }
  destruct (sorted_distinct (map m_phi (rows_q rows))) as (_ & HM & HMin).
  destruct (sorted_distinct (map k_rot (rows_q rows))) as (_ & HK & HKin).
  destruct (fill_cells M K (rows_map rows) (zeros (length M) (length K)))
    as (G & E & _ & Hc); auto using zeros_shape.
  { intros r Hr. unfold rows_map in Hr. apply filter_In in Hr.
    destruct Hr as [Hr _]. split.
    - apply HMin. now apply in_map.
    - apply HKin. now apply in_map. }
  exists G. rewrite E. simpl. split; [reflexivity |].
  intros i j Hi Hj. rewrite (Hc i j Hi Hj). now rewrite cell_zeros.
Qed.
End CategoricalGridFacts.
Lemma fold_fadd_Fin (l : list R) (c : R) :
  fold_left fadd (map Fin l) (Fin c) = Fin (c + sum l).
Proof.
  revert c. induction l as [| x xs IH]; intros c; simpl.
  - f_equal. unfold sum. simpl. ring.
  - rewrite IH. f_equal. unfold sum. simpl. ring.
Qed.

(** The mean of responses that are all numbers is their arithmetic mean. *)
Lemma np_mean_floats_Fin (x : R) (l : list R) :
  np_mean_floats (map Fin (x :: l)) = Fin (mean (x :: l)).
Proof.
  unfold np_mean_floats. rewrite fold_fadd_Fin, length_map.
  unfold fdiv.
  destruct (Req_dec_T (INR (length (x :: l))) 0) as [E | N].
  - exfalso. revert E. apply not_0_INR. discriminate.
  - f_equal. unfold mean. field. exact N.
Qed.

(** Deciding comparisons that go through an absolute value. *)
Ltac decide_abs :=
  unfold Rltb, Rabs;
  repeat (simpl;
          match goal with
          | |- context [Rcase_abs ?a] => destruct (Rcase_abs a); try lra
          | |- context [Rlt_dec ?a ?b] => destruct (Rlt_dec a b); try lra
          end).

(** C6, as the grids are built.  In the continuous grid the axes are the
    coordinate values of the records, a cell with records holds the mean of
    their responses (0.4 and 0.6 give 0.5) and a cell without record holds
    NaN, which is not the response 0.  The categorical grid holds only the
    integer codes 0, 1, 2: a cell with records holds the code of the last
    record written for its coordinate pair, and no value is set aside for
    "no data". *)
Theorem grid_assembly_cells :
  (forall rows : list (R * R * pyfloat),
      let '(mphi_vals, krot_vals, PA_grid) :=
        phase_sector_map_2D.build_grid rows in
      (ascending mphi_vals /\ NoDup mphi_vals)
      /\ (ascending krot_vals /\ NoDup krot_vals)
      /\ (forall m, In m mphi_vals <-> exists k p, In (m, k, p) rows)
      /\ (forall k, In k krot_vals <-> exists m p, In (m, k, p) rows)
      /\ PA_grid
         = map (fun k =>
                  map (fun m =>
                         match values_at rows m k with
                         | [] => NaN
                         | _ :: _ => np_mean_floats (values_at rows m k)
                         end)
                      mphi_vals)
               krot_vals
      /\ (forall m k, values_at rows m k = []
                      <-> forall p, ~ In (m, k, p) rows))
  /\ (forall x l, np_mean_floats (map Fin (x :: l)) = Fin (mean (x :: l)))
  /\ np_mean_floats [Fin 0.4; Fin 0.6] = Fin 0.5
  /\ NaN <> Fin 0
  /\ (forall rows : list phase_sector_map.summary,
         rows_map rows <> [] ->
         exists M K G,
           phase_sector_map.sector_grid rows = Ok (M, K, G)
           /\ (forall i j, (i < length M)%nat -> (j < length K)%nat ->
                 (cell_at G i j = 0 \/ cell_at G i j = 1
                  \/ cell_at G i j = 2)%Z)
           /\ (forall i j before r after,
                  (i < length M)%nat -> (j < length K)%nat ->
                  rows_map rows = before ++ r :: after ->
                  phase_sector_map.m_phi r = nth i M 0 ->
                  phase_sector_map.k_rot r = nth j K 0 ->
                  (forall r', In r' after ->
                     ~ (phase_sector_map.m_phi r' = nth i M 0
                        /\ phase_sector_map.k_rot r' = nth j K 0)) ->
                  cell_at G i j
                  = phase_sector_map.code (phase_sector_map.sector r))).
Proof.
  split; [| split; [| split; [| split]]].
  - intros rows. unfold phase_sector_map_2D.build_grid. cbv zeta.
    split; [split; apply sorted_distinct |].
    split; [split; apply sorted_distinct |].
    split; [| split; [| split]].
    + intros m. rewrite (proj2 (proj2 (sorted_distinct _))), in_map_iff.
      split.
      * intros ([[m' k'] vs] & E & Hin). simpl in E. subst m'.
        assert (H : In (m, k') (map fst (phase_sector_map_2D.group_cells rows)))
          by (apply in_map_iff; now exists (m, k', vs)).
        apply group_cells_keys in H. destruct H as [p Hp]. now exists k', p.
      * intros (k & p & Hin).
        assert (H : In (m, k) (map fst (phase_sector_map_2D.group_cells rows)))
          by (apply group_cells_keys; now exists p).
        apply in_map_iff in H. destruct H as ([c vs] & E & H).
        simpl in E. subst c. now exists (m, k, vs).
    + intros k. rewrite (proj2 (proj2 (sorted_distinct _))), in_map_iff.
      split.
      * intros ([[m' k'] vs] & E & Hin). simpl in E. subst k'.
        assert (H : In (m', k) (map fst (phase_sector_map_2D.group_cells rows)))
          by (apply in_map_iff; now exists (m', k, vs)).
        apply group_cells_keys in H. destruct H as [p Hp]. now exists m', p.
      * intros (m & p & Hin).
        assert (H : In (m, k) (map fst (phase_sector_map_2D.group_cells rows)))
          by (apply group_cells_keys; now exists p).
        apply in_map_iff in H. destruct H as ([c vs] & E & H).
        simpl in E. subst c. now exists (m, k, vs).
    + apply map_ext. intros k. apply map_ext. intros m. cbv zeta.
      rewrite group_cells_get. now destruct (values_at rows m k).
    + intros m k. apply values_at_empty.
  - exact np_mean_floats_Fin.
  - change [Fin 0.4; Fin 0.6] with (map Fin [0.4; 0.6]).
    rewrite np_mean_floats_Fin. f_equal. unfold mean, sum. simpl. lra.
  - discriminate.
  - intros rows Hne.
    destruct (sector_grid_cells rows Hne) as (G & E & Hc).
    eexists _, _, G. split; [exact E | split].
    + intros i j Hi Hj. rewrite (Hc i j Hi Hj).
      apply last_code_range. now left.
    + intros i j before r after Hi Hj Hrows Em Ek Hafter.
      rewrite (Hc i j Hi Hj), Hrows. now apply last_code_last.
Qed.

Lemma grid_assembly_cells_witness :
  let r m k s :=
    {| phase_sector_map.m_phi := m; phase_sector_map.k_rot := k;
       phase_sector_map.q := 1; phase_sector_map.delta_phi_ini := 0.01;
       phase_sector_map.sector := s |} in
  exists M K G,
    phase_sector_map.sector_grid [r 1 1 "C"%string; r 2 2 "B"%string]
    = Ok (M, K, G)
    /\ (forall i j, (i < length M)%nat -> (j < length K)%nat ->
          (cell_at G i j = 0 \/ cell_at G i j = 1 \/ cell_at G i j = 2)%Z).
Proof.
  intros r.
  destruct (proj2 (proj2 (proj2 (proj2 grid_assembly_cells)))
              [r 1 1 "C"%string; r 2 2 "B"%string]) as (M & K & G & E & H & _).
  - unfold rows_map, rows_q, r, phase_sector_map.q_plot,
      phase_sector_map.target_ini. simpl. decide_abs. discriminate.
  - exists M, K, G. split; [exact E | exact H].
Defined.

(** Two records, at (m, k) = (1, 1) and (2, 2), both of sector C: the cell
    of the pair (1, 2), for which there is no record, holds 0, the code of
    sector A. *)
Lemma sector_grid_missing_cell_reads_A :
  let r m k s :=
    {| phase_sector_map.m_phi := m; phase_sector_map.k_rot := k;
       phase_sector_map.q := 1; phase_sector_map.delta_phi_ini := 0.01;
       phase_sector_map.sector := s |} in
  let rows := [r 1 1 "C"%string; r 2 2 "C"%string] in
  phase_sector_map.sector_grid rows
  = Ok ([1; 2], [1; 2], [[2; 0]; [0; 2]]%Z)
  /\ (forall x, In x rows ->
        ~ (phase_sector_map.m_phi x = 1 /\ phase_sector_map.k_rot x = 2))
  /\ phase_sector_map.code "A"%string = 0%Z.
Proof.
  intros r rows. split; [| split].
  - unfold rows, r, phase_sector_map.sector_grid, phase_sector_map.q_plot,
      phase_sector_map.target_ini.
    decide_abs. unfold sorted, sort_by. decide_reals.
    unfold phase_sector_map.index_of. decide_reals. reflexivity.
  - intros x [<- | [<- | []]]; simpl; lra.
  - reflexivity.
Qed.

(* ================================================================= *)
(** * Further properties of compute_mphi_crit.py *)

Lemma read_sector_csvs_app (a b : list compute_mphi_crit.csv_row) :
  compute_mphi_crit.read_sector_csvs (a ++ b)
  = compute_mphi_crit.read_sector_csvs a
    ++ compute_mphi_crit.read_sector_csvs b.
Proof.
  induction a as [| c a IH]; simpl; [reflexivity |].
  destruct (compute_mphi_crit.read_row c); simpl; now rewrite IH.
Qed.

Lemma read_sector_csvs_dropped (pre post : list compute_mphi_crit.csv_row)
    (c : compute_mphi_crit.csv_row) :
  compute_mphi_crit.read_row c = None ->
  compute_mphi_crit.read_sector_csvs (pre ++ c :: post)
  = compute_mphi_crit.read_sector_csvs (pre ++ post).
Proof.
  intros H. rewrite !read_sector_csvs_app. simpl. now rewrite H.
Qed.

(** X1. Reading CSV rows.  The rows of several files are read as the
    concatenation of the rows of each.  A row with readable coordinates
    and a readable P_A contributes that P_A, whatever its count columns
    hold.  A row is dropped when its m_phi is not readable, when its P_A
    is present but unreadable (even if its counts are fine), and when it
    has no P_A and N_total is not above 0. *)
Theorem read_sector_csvs_rows :
  (forall a b,
      compute_mphi_crit.read_sector_csvs (a ++ b)
      = compute_mphi_crit.read_sector_csvs a
        ++ compute_mphi_crit.read_sector_csvs b)
  /\ (forall pre c post m k p,
         compute_mphi_crit.csv_m_phi c = compute_mphi_crit.Parsed m ->
         compute_mphi_crit.csv_k_rot c = compute_mphi_crit.Parsed k
         \/ (compute_mphi_crit.csv_k_rot c = compute_mphi_crit.Absent
             /\ k = 0) ->
         compute_mphi_crit.csv_P_A c = compute_mphi_crit.Parsed p ->
         compute_mphi_crit.read_sector_csvs (pre ++ c :: post)
         = compute_mphi_crit.read_sector_csvs pre
           ++ {| compute_mphi_crit.m_phi := m;
                 compute_mphi_crit.k_rot := k;
                 compute_mphi_crit.P_A := p |}
              :: compute_mphi_crit.read_sector_csvs post)
  /\ (forall pre c post,
         (forall m, compute_mphi_crit.csv_m_phi c
                    <> compute_mphi_crit.Parsed m) ->
         compute_mphi_crit.read_sector_csvs (pre ++ c :: post)
         = compute_mphi_crit.read_sector_csvs (pre ++ post))
  /\ (forall pre c post,
         compute_mphi_crit.csv_P_A c = compute_mphi_crit.Garbled ->
         compute_mphi_crit.read_sector_csvs (pre ++ c :: post)
         = compute_mphi_crit.read_sector_csvs (pre ++ post))
  /\ (forall pre c post n,
         compute_mphi_crit.csv_P_A c = compute_mphi_crit.Absent
         \/ compute_mphi_crit.csv_P_A c = compute_mphi_crit.Blank ->
         compute_mphi_crit.csv_N_total c
         = compute_mphi_crit.Parsed (Fin n) ->
         n <= 0 ->
         compute_mphi_crit.read_sector_csvs (pre ++ c :: post)
         = compute_mphi_crit.read_sector_csvs (pre ++ post)).
Proof.
  split; [exact read_sector_csvs_app |].
  split; [| split; [| split]].
  - intros pre c post m k p Hm Hk Hp. rewrite read_sector_csvs_app. simpl.
    unfold compute_mphi_crit.read_row. rewrite Hm, Hp.
    destruct Hk as [Hk | [Hk ->]]; rewrite Hk; reflexivity.
  - intros pre c post Hm. apply read_sector_csvs_dropped.
    unfold compute_mphi_crit.read_row.
    destruct (compute_mphi_crit.csv_m_phi c) as [| | | m]; try reflexivity.
    now contradiction (Hm m).
  - intros pre c post Hp. apply read_sector_csvs_dropped.
    unfold compute_mphi_crit.read_row. rewrite Hp.
    destruct (compute_mphi_crit.csv_m_phi c); try reflexivity.
    destruct (compute_mphi_crit.csv_k_rot c); reflexivity.
  - intros pre c post n Hp Hn Hle. apply read_sector_csvs_dropped.
    unfold compute_mphi_crit.read_row. rewrite Hn.
    destruct (compute_mphi_crit.csv_m_phi c); try reflexivity.
    assert (F : flt (Fin 0) (Fin n) = false).
    { unfold flt. destruct (Rlt_dec 0 n); [lra | reflexivity]. }
    destruct (compute_mphi_crit.csv_k_rot c); try reflexivity;
      (destruct Hp as [Hp | Hp]; rewrite Hp;
       destruct (compute_mphi_crit.csv_N_A c); try reflexivity;
       now rewrite F).
Qed.

Lemma read_sector_csvs_rows_witness :
  let c p n a :=
    {| compute_mphi_crit.csv_m_phi := compute_mphi_crit.Parsed 1;
       compute_mphi_crit.csv_k_rot := compute_mphi_crit.Absent;
       compute_mphi_crit.csv_P_A := p;
       compute_mphi_crit.csv_N_total := n;
       compute_mphi_crit.csv_N_A := a |} in
  compute_mphi_crit.read_sector_csvs
    [c compute_mphi_crit.Garbled (compute_mphi_crit.Parsed (Fin 4))
       (compute_mphi_crit.Parsed (Fin 1));
     c (compute_mphi_crit.Parsed (Fin 0.3)) compute_mphi_crit.Garbled
       compute_mphi_crit.Garbled]
  = [ {| compute_mphi_crit.m_phi := 1; compute_mphi_crit.k_rot := 0;
         compute_mphi_crit.P_A := Fin 0.3 |} ].
Proof.
  intros c.
  destruct read_sector_csvs_rows as (_ & Hkeep & _ & Hdrop & _).
  set (c1 := c compute_mphi_crit.Garbled (compute_mphi_crit.Parsed (Fin 4))
               (compute_mphi_crit.Parsed (Fin 1))).
  set (c2 := c (compute_mphi_crit.Parsed (Fin 0.3)) compute_mphi_crit.Garbled
               compute_mphi_crit.Garbled).
  change [c1; c2] with ([] ++ c1 :: [c2]).
  rewrite (Hdrop [] c1 [c2] eq_refl).
  change ([] ++ [c2]) with ([] ++ c2 :: []).
  rewrite (Hkeep [] c2 [] 1 0 (Fin 0.3) eq_refl
             (or_intror (conj eq_refl eq_refl)) eq_refl).
  reflexivity.
Defined.

(** X2. The arrays that [compute_PA_vs_mphi] returns have one length, and
    [find_mphi_crit] applied to them never raises: its sort changes
    nothing and its result is the scan of the (coordinate, mean) pairs in
    the order returned. *)
Theorem find_mphi_crit_after_compute (rows : list compute_mphi_crit.row)
    (target : R) :
  let '(mphi_vals, PA_means, PA_stds) :=
    compute_mphi_crit.compute_PA_vs_mphi rows in
  length PA_means = length mphi_vals
  /\ length PA_stds = length mphi_vals
  /\ compute_mphi_crit.find_mphi_crit mphi_vals PA_means target
     = Ok (scan_pairs target (combine mphi_vals PA_means)).
Proof.
  unfold compute_mphi_crit.compute_PA_vs_mphi. cbv zeta.
  rewrite !length_map. repeat split.
  rewrite find_mphi_crit_scan by (rewrite length_map; lia).
  rewrite samples_in_order_ascending;
    [reflexivity | apply sorted_ascending | now rewrite length_map].
Qed.

Lemma samples_at_perm (rows rows' : list compute_mphi_crit.row) (m : R) :
  Permutation rows rows' ->
  Permutation (samples_at rows m) (samples_at rows' m).
Proof.
  induction 1 as [| r l l' _ IH | r1 r2 l | l l' l'' _ IH1 _ IH2]; simpl.
  - constructor.
  - destruct (compute_mphi_crit.P_A r); [exact IH |].
    destruct (Req_dec_T (compute_mphi_crit.m_phi r) m);
      [now constructor | exact IH].
  - destruct (compute_mphi_crit.P_A r1), (compute_mphi_crit.P_A r2);
      try reflexivity;
      repeat match goal with
        | |- context [Req_dec_T ?a ?b] => destruct (Req_dec_T a b)
        end; try reflexivity.
    apply perm_swap.
  - now transitivity (samples_at l' m).
Qed.

(** Two ascending lists without repetition and with the same members are
    the same list. *)
Lemma ascending_unique (l1 l2 : list R) :
  ascending l1 -> ascending l2 -> NoDup l1 -> NoDup l2 ->
  (forall x, In x l1 <-> In x l2) -> l1 = l2.
Proof.
  unfold ascending. intros S1 S2.
  apply Sorted_StronglySorted in S1; [| intros a b c; apply Rle_trans].
  apply Sorted_StronglySorted in S2; [| intros a b c; apply Rle_trans].
  revert l2 S2. induction S1 as [| x l1 S1 IH H1]; intros l2 S2 N1 N2 Hin.
  - destruct l2 as [| y l2]; [reflexivity |].
    exfalso. apply (proj2 (Hin y)). now left.
  - destruct S2 as [| y l2 S2 H2].
    { exfalso. apply (proj1 (Hin x)). now left. }
    inversion N1 as [| ? ? Nx N1']; subst.
    inversion N2 as [| ? ? Ny N2']; subst.
    rewrite Forall_forall in H1, H2.
    assert (E : x = y).
    { destruct (proj1 (Hin x) (or_introl eq_refl)) as [E | Hx]; [auto |].
      destruct (proj2 (Hin y) (or_introl eq_refl)) as [E | Hy]; [auto |].
      apply Rle_antisym; [now apply H1 | now apply H2]. }
    subst y. f_equal. apply IH; auto.
    intros z. split; intros Hz.
    + destruct (proj1 (Hin z) (or_intror Hz)) as [E | G]; [| exact G].
      subst z. contradiction.
    + destruct (proj2 (Hin z) (or_intror Hz)) as [E | G]; [| exact G].
      subst z. contradiction.
Qed.

(** X3. [compute_PA_vs_mphi] depends on the rows only through the
    responses of each coordinate, taken in row order: two row lists in
    which every coordinate has the same responses in the same order give
    the same coordinates, means and standard deviations, however the rows
    of different coordinates are interleaved.  Under any reordering of the
    rows the coordinates returned are the same, and every coordinate
    keeps its responses, possibly in another order. *)
Theorem compute_PA_vs_mphi_interleaving
    (rows rows' : list compute_mphi_crit.row) :
  ((forall m, samples_at rows m = samples_at rows' m) ->
   compute_mphi_crit.compute_PA_vs_mphi rows
   = compute_mphi_crit.compute_PA_vs_mphi rows')
  /\ (Permutation rows rows' ->
      fst (fst (compute_mphi_crit.compute_PA_vs_mphi rows))
      = fst (fst (compute_mphi_crit.compute_PA_vs_mphi rows'))
      /\ forall m, Permutation (samples_at rows m) (samples_at rows' m)).
Proof.
  assert (K : (forall m, samples_at rows m = [] <-> samples_at rows' m = []) ->
              sorted (map fst (compute_mphi_crit.group_rows rows))
              = sorted (map fst (compute_mphi_crit.group_rows rows'))).
  { intros H. apply ascending_unique; try apply sorted_ascending;
      try (apply sort_by_NoDup, group_rows_NoDup).
    intros x. unfold sorted. rewrite !sort_by_In, !group_rows_keys.
    now rewrite (H x). }
  unfold compute_mphi_crit.compute_PA_vs_mphi. cbv zeta. split.
  - intros H. rewrite K by (intros m; now rewrite (H m)).
    f_equal; [f_equal |].
    + apply map_ext. intros m. now rewrite !group_rows_get, (H m).
    + apply map_ext. intros m. cbv zeta.
      now rewrite !group_rows_get, (H m).
  - intros HP. split; [| intros m; now apply samples_at_perm].
    simpl. apply K. intros m.
    pose proof (samples_at_perm _ _ m HP) as Hm.
    split; intros E; rewrite E in Hm.
    + apply Permutation_sym in Hm. now apply Permutation_nil.
    + now apply Permutation_nil.
Qed.

Lemma compute_PA_vs_mphi_interleaving_witness :
  let r m p := {| compute_mphi_crit.m_phi := m; compute_mphi_crit.k_rot := 0;
                  compute_mphi_crit.P_A := Fin p |} in
  compute_mphi_crit.compute_PA_vs_mphi [r 2 0.3; r 1 0.4; r 1 0.6]
  = compute_mphi_crit.compute_PA_vs_mphi [r 1 0.4; r 2 0.3; r 1 0.6]
  /\ fst (compute_mphi_crit.compute_PA_vs_mphi [r 2 0.3; r 1 0.4; r 1 0.6])
     = ([1; 2], [0.5; 0.3]).
Proof.
  intros r. split.
  - apply (proj1 (compute_PA_vs_mphi_interleaving
                    [r 2 0.3; r 1 0.4; r 1 0.6] [r 1 0.4; r 2 0.3; r 1 0.6])).
    intros m. simpl.
    destruct (Req_dec_T 1 m), (Req_dec_T 2 m); try reflexivity.
    exfalso. lra.
  - unfold compute_mphi_crit.compute_PA_vs_mphi. cbv zeta. simpl fst.
    assert (K : sorted
                  (map fst
                     (compute_mphi_crit.group_rows
                        [r 2 0.3; r 1 0.4; r 1 0.6]))
                = [1; 2]).
    { unfold compute_mphi_crit.group_rows, sorted, sort_by, r.
      decide_reals. reflexivity. }
    rewrite K. f_equal. cbn [map]. rewrite !group_rows_get.
    unfold r. decide_reals.
    unfold mean, sum. simpl. repeat f_equal; lra.
Defined.







Lemma take_raises_IndexError {A : Type} (a : list A) (idx : list nat) :
  (exists i, In i idx /\ (length a <= i)%nat) ->
  take a idx = Raise IndexError.
Proof.
  induction idx as [| j rest IH]; intros (i & Hin & Hi); [destruct Hin |].
  simpl. unfold getitem.
  destruct (nth_error a j) as [x |] eqn:E; [| reflexivity]. simpl.
  destruct Hin as [-> | Hin].
  - assert (nth_error a i = None) by now apply nth_error_None. congruence.
  - rewrite IH; [reflexivity | now exists i].
Qed.

(** X5. With fewer responses than coordinates [find_mphi_crit] raises
    IndexError, whatever the values are. *)
Theorem find_mphi_crit_too_few_responses (coords resp : list R) (target : R) :
  (length resp < length coords)%nat ->
  compute_mphi_crit.find_mphi_crit coords resp target = Raise IndexError.
Proof.
  intros H. unfold compute_mphi_crit.find_mphi_crit.
  rewrite (take_in_range 0 coords) by (intros i Hi; now apply argsort_In).
  cbn [bind]. rewrite take_raises_IndexError; [reflexivity |].
  exists (length resp). split; [now apply argsort_In | lia].
Qed.

Lemma find_mphi_crit_too_few_responses_witness :
  compute_mphi_crit.find_mphi_crit [1; 2; 3] [0.4; 0.6] 0.5
  = Raise IndexError.
Proof.
  apply (find_mphi_crit_too_few_responses [1; 2; 3] [0.4; 0.6] 0.5).
  simpl. lia.
Defined.


Lemma sorted_map_key {A : Type} (key : A -> R) (l : list A) :
  Sorted (key_le key) l -> ascending (map key l).
Proof.
  unfold ascending. induction 1 as [| x l Hs IH Hd]; simpl; constructor.
  - exact IH.
  - destruct Hd; simpl; constructor. assumption.
Qed.




Lemma not_sign_change_le (target r1 r2 : R) :
  r1 <= target -> r2 <= target -> ~ sign_change target r1 r2.
Proof. rewrite sign_change_iff. lra. Qed.

Lemma not_sign_change_ge (target r1 r2 : R) :
  target <= r1 -> target <= r2 -> ~ sign_change target r1 r2.
Proof. rewrite sign_change_iff. lra. Qed.

Lemma no_sign_change_below (target : R) (l : list (R * R)) :
  (forall p, In p l -> snd p <= target) -> no_sign_change target l.
Proof.
  induction l as [| [c1 r1] tl IH]; intros H; [exact I |].
  destruct tl as [| [c2 r2] rest]; [exact I |].
  cbn [no_sign_change]. split.
  - apply not_sign_change_le.
    + apply (H (c1, r1)). now left.
    + apply (H (c2, r2)). right. now left.
  - apply IH. intros p Hp. apply H. now right.
Qed.

Lemma no_sign_change_above (target : R) (l : list (R * R)) :
  (forall p, In p l -> target <= snd p) -> no_sign_change target l.
Proof.
  induction l as [| [c1 r1] tl IH]; intros H; [exact I |].
  destruct tl as [| [c2 r2] rest]; [exact I |].
  cbn [no_sign_change]. split.
  - apply not_sign_change_ge.
    + apply (H (c1, r1)). now left.
    + apply (H (c2, r2)). right. now left.
  - apply IH. intros p Hp. apply H. now right.
Qed.

Lemma no_sign_change_join (target : R) (l1 l2 : list (R * R)) (a : R * R) :
  no_sign_change target (l1 ++ [a]) -> no_sign_change target (a :: l2) ->
  no_sign_change target (l1 ++ a :: l2).
Proof.
  intros H1 H2. induction l1 as [| [c r] l1 IH]; [exact H2 |].
  destruct l1 as [| [c' r'] l1'].
  - destruct a as [ca ra]. simpl in *. destruct l2; tauto.
  - change (no_sign_change target
              ((c, r) :: (c', r') :: (l1' ++ a :: l2))).
    change (no_sign_change target ((c, r) :: (c', r') :: (l1' ++ [a])))
      in H1.
    cbn [no_sign_change] in *. split; [tauto |]. apply IH. tauto.
Qed.

(** X7. A crossing that passes exactly through a sample is not found:
    when the responses before some sample are at most the target, that
    sample is exactly at the target and the responses after it are at
    least the target, [find_mphi_crit] returns [None]. *)
Theorem find_mphi_crit_sample_on_target
    (pre post : list (R * R)) (c target : R) :
  let samples := pre ++ (c, target) :: post in
  ascending (map fst samples) ->
  (forall p, In p pre -> snd p <= target) ->
  (forall p, In p post -> target <= snd p) ->
  compute_mphi_crit.find_mphi_crit (map fst samples) (map snd samples) target
  = Ok None.
Proof.
  intros samples Ha Hpre Hpost.
  rewrite find_mphi_crit_sorted by exact Ha. f_equal.
  apply scan_pairs_none. unfold samples. apply no_sign_change_join.
  - apply no_sign_change_below. intros p Hp. apply in_app_or in Hp.
    destruct Hp as [Hp | [<- | []]]; [now apply Hpre | simpl; lra].
  - apply no_sign_change_above. intros p [<- | Hp];
      [simpl; lra | now apply Hpost].
Qed.

Lemma find_mphi_crit_sample_on_target_witness :
  compute_mphi_crit.find_mphi_crit [0; 1; 2] [0.4; 0.5; 0.6] 0.5 = Ok None.
Proof.
  apply (find_mphi_crit_sample_on_target [(0, 0.4)] [(2, 0.6)] 1 0.5).
  - simpl. repeat constructor; lra.
  - intros p [<- | []]. simpl. lra.
  - intros p [<- | []]. simpl. lra.
Defined.

Lemma find_mphi_crit_of_groups (rows : list compute_mphi_crit.row)
    (target : R) :
  compute_mphi_crit.find_mphi_crit
    (fst (fst (compute_mphi_crit.compute_PA_vs_mphi rows)))
    (snd (fst (compute_mphi_crit.compute_PA_vs_mphi rows))) target
  = Ok (scan_pairs target
          (combine (fst (fst (compute_mphi_crit.compute_PA_vs_mphi rows)))
                   (snd (fst (compute_mphi_crit.compute_PA_vs_mphi rows))))).
Proof.
  unfold compute_mphi_crit.compute_PA_vs_mphi. cbv zeta. simpl.
  rewrite find_mphi_crit_scan by (rewrite length_map; lia).
  rewrite samples_in_order_ascending;
    [reflexivity | apply sorted_ascending | now rewrite length_map].
Qed.

(** X8. [main] never raises on the rows it has read, and the critical
    value it writes to the summary is the scan of the aggregated samples.
    It prints "no crossing" exactly when that value is [None] or is 0: a
    crossing located at exactly 0, as for responses 0.5 - d and 0.5 + d at
    the coordinates -c and c, is written to the summary but printed as not
    found. *)
Theorem main_report :
  (forall csv_rows,
      exists printed s,
        compute_mphi_crit.main csv_rows = Ok (printed, s)
        /\ compute_mphi_crit.sum_m_phi_crit s
           = scan_pairs compute_mphi_crit.TARGET_PA
               (combine (compute_mphi_crit.sum_m_phi_vals s)
                        (compute_mphi_crit.sum_PA_means s))
        /\ (printed = compute_mphi_crit.NoCrossing <->
            compute_mphi_crit.sum_m_phi_crit s = None
            \/ compute_mphi_crit.sum_m_phi_crit s = Some 0)
        /\ (forall v, printed = compute_mphi_crit.Crossing v ->
                      compute_mphi_crit.sum_m_phi_crit s = Some v))
  /\ (forall c d, 0 < c -> 0 < d ->
      let line m p :=
        {| compute_mphi_crit.csv_m_phi := compute_mphi_crit.Parsed m;
           compute_mphi_crit.csv_k_rot := compute_mphi_crit.Parsed 0;
           compute_mphi_crit.csv_P_A := compute_mphi_crit.Parsed (Fin p);
           compute_mphi_crit.csv_N_total := compute_mphi_crit.Absent;
           compute_mphi_crit.csv_N_A := compute_mphi_crit.Absent |} in
      exists s x,
        compute_mphi_crit.main [line (- c) (0.5 - d); line c (0.5 + d)]
        = Ok (compute_mphi_crit.NoCrossing, s)
        /\ compute_mphi_crit.sum_m_phi_crit s = Some x /\ x = 0).
Proof.
  split.
  - intros csv_rows. unfold compute_mphi_crit.main.
    pose proof (find_mphi_crit_of_groups
                  (compute_mphi_crit.read_sector_csvs csv_rows)
                  compute_mphi_crit.TARGET_PA) as H.
    destruct (compute_mphi_crit.compute_PA_vs_mphi
                (compute_mphi_crit.read_sector_csvs csv_rows))
      as [[mv pm] ps].
    simpl in H. rewrite H. cbn [bind].
    eexists _, _. split; [reflexivity |]. simpl.
    split; [reflexivity |].
    destruct (scan_pairs compute_mphi_crit.TARGET_PA (combine mv pm))
      as [v |]; simpl.
    + destruct (Req_dec_T v 0) as [E | N].
      * subst v. split; [split; auto | discriminate].
      * split; [| intros v' Hv; congruence].
        split; [discriminate | intros [H0 | H0]; congruence].
    + split; [split; auto | discriminate].
  - intros c d Hc Hd line.
    assert (Hx : interpolate 0.5 (- c) (0.5 - d) c (0.5 + d) = 0)
      by (unfold interpolate; field; lra).
    assert (Hf : compute_mphi_crit.find_mphi_crit
                   [- c; c] [0.5 - d; 0.5 + d] compute_mphi_crit.TARGET_PA
                 = Ok (Some (interpolate 0.5 (- c) (0.5 - d) c (0.5 + d)))).
    { unfold compute_mphi_crit.TARGET_PA.
      rewrite (find_mphi_crit_sorted [(- c, 0.5 - d); (c, 0.5 + d)])
        by (simpl; repeat constructor; lra).
      f_equal.
      apply (scan_pairs_first 0.5 [] [] (- c) (0.5 - d) c (0.5 + d));
        [exact I | apply sign_change_iff; lra]. }
    assert (Hg : compute_mphi_crit.compute_PA_vs_mphi
                   (compute_mphi_crit.read_sector_csvs
                      [line (- c) (0.5 - d); line c (0.5 + d)])
                 = ([- c; c], [mean (repeat (0.5 - d) 1);
                               mean (repeat (0.5 + d) 1)], [0; 0])).
    { unfold compute_mphi_crit.compute_PA_vs_mphi,
        compute_mphi_crit.group_rows, sorted, sort_by, line.
      decide_reals. reflexivity. }
    rewrite !mean_repeat in Hg.
    unfold compute_mphi_crit.main. rewrite Hg, Hf. cbn [bind].
    unfold compute_mphi_crit.truth. rewrite Hx.
    destruct (Req_dec_T 0 0); [| contradiction].
    eexists _, 0. split; [reflexivity |]. split; reflexivity.
Qed.

Lemma main_report_witness :
  exists s x,
    compute_mphi_crit.main
      [ {| compute_mphi_crit.csv_m_phi := compute_mphi_crit.Parsed (- (1));
           compute_mphi_crit.csv_k_rot := compute_mphi_crit.Parsed 0;
           compute_mphi_crit.csv_P_A :=
             compute_mphi_crit.Parsed (Fin (0.5 - 0.1));
           compute_mphi_crit.csv_N_total := compute_mphi_crit.Absent;
           compute_mphi_crit.csv_N_A := compute_mphi_crit.Absent |};
        {| compute_mphi_crit.csv_m_phi := compute_mphi_crit.Parsed 1;
           compute_mphi_crit.csv_k_rot := compute_mphi_crit.Parsed 0;
           compute_mphi_crit.csv_P_A :=
             compute_mphi_crit.Parsed (Fin (0.5 + 0.1));
           compute_mphi_crit.csv_N_total := compute_mphi_crit.Absent;
           compute_mphi_crit.csv_N_A := compute_mphi_crit.Absent |} ]
    = Ok (compute_mphi_crit.NoCrossing, s)
    /\ compute_mphi_crit.sum_m_phi_crit s = Some x /\ x = 0.
Proof.
  apply (proj2 main_report 1 0.1); lra.
Defined.

(* ================================================================= *)
(** * Further properties of phase_sector_scan.py *)

(** X9. The label of a trajectory depends on its length and on its last
    samples only: replacing any of the samples before position
    floor(0.9 n) changes nothing. *)
Theorem classify_phase_trajectory_tail_only (pre pre' tl : list R) :
  length pre = length pre' ->
  (length pre <= 9 * (length pre + length tl) / 10)%nat ->
  phase_sector_scan.classify_phase_trajectory (pre ++ tl)
  = phase_sector_scan.classify_phase_trajectory (pre' ++ tl).
Proof.
  intros Hlen Hk. unfold phase_sector_scan.classify_phase_trajectory.
  cbv zeta. unfold phase_sector_scan.tail_start.
  rewrite !length_app, <- Hlen, !skipn_app, <- Hlen.
  rewrite (skipn_all2 pre) by exact Hk.
  rewrite (skipn_all2 pre') by (rewrite <- Hlen; exact Hk).
  reflexivity.
Qed.

Lemma classify_phase_trajectory_tail_only_witness :
  phase_sector_scan.classify_phase_trajectory (repeat 7 54 ++ repeat 0 6)
  = phase_sector_scan.classify_phase_trajectory (repeat 0 54 ++ repeat 0 6).
Proof.
  apply (classify_phase_trajectory_tail_only
           (repeat 7 54) (repeat 0 54) (repeat 0 6)).
  - reflexivity.
  - rewrite !repeat_length. simpl. lia.
Defined.







Lemma flat_map_length_const {A B : Type} (f : A -> list B) (l : list A)
    (k : nat) :
  (forall x, length (f x) = k) ->
  length (flat_map f l) = (length l * k)%nat.
Proof.
  intros H. induction l as [| x xs IH]; simpl; [reflexivity |].
  now rewrite length_app, H, IH.
Qed.

Lemma grid_points_length (ms ks qs ds : list R) :
  length (phase_sector_scan.grid_points ms ks qs ds)
  = (length ms * (length ks * (length qs * length ds)))%nat.
Proof.
  unfold phase_sector_scan.grid_points.
  apply flat_map_length_const. intros m.
  apply flat_map_length_const. intros k.
  apply flat_map_length_const. intros q.
  apply length_map.
Qed.

Lemma scan_loop_count (solve_ivp : phase_evolution_ode.solver)
    (pts : list (R * R * R * R))
    (written : list phase_sector_scan.summary_row) :
  (snd (phase_sector_scan.scan_loop solve_ivp pts written) = Ok tt ->
   length (fst (phase_sector_scan.scan_loop solve_ivp pts written))
   = (length written + length pts)%nat)
  /\ (forall e,
         snd (phase_sector_scan.scan_loop solve_ivp pts written) = Raise e ->
         (length (fst (phase_sector_scan.scan_loop solve_ivp pts written))
          < length written + length pts)%nat).
Proof.
  revert written. induction pts as [| pt rest IH]; intros written; simpl.
  - split; [intros _; lia | discriminate].
  - destruct (phase_sector_scan.scan_point solve_ivp pt) as [r | e'].
    + destruct (IH (written ++ [r])) as [H1 H2].
      rewrite length_app in H1, H2. simpl in H1, H2. split.
      * intros H. rewrite (H1 H). lia.
      * intros e H. specialize (H2 e H). lia.
    + simpl. split; [discriminate | intros _ _; lia].
Qed.

(** X11. The sweep visits the Cartesian product of its four parameter
    lists, 5 x 4 x 1 x 3 = 60 grid points.  The summary holds exactly 60
    rows when the sweep runs to its end, and fewer than 60 when it ended
    with an exception. *)
Theorem sweep_row_count (solve_ivp : phase_evolution_ode.solver) :
  (forall ms ks qs ds,
      length (phase_sector_scan.grid_points ms ks qs ds)
      = (length ms * (length ks * (length qs * length ds)))%nat)
  /\ (snd (phase_sector_scan.main solve_ivp) = Ok tt ->
      length (fst (phase_sector_scan.main solve_ivp)) = 60%nat)
  /\ (forall e,
         snd (phase_sector_scan.main solve_ivp) = Raise e ->
         (length (fst (phase_sector_scan.main solve_ivp)) < 60)%nat).
Proof.
  split; [exact grid_points_length |].
  unfold phase_sector_scan.main.
  destruct (scan_loop_count solve_ivp
              (phase_sector_scan.grid_points
                 phase_sector_scan.m_phi_list phase_sector_scan.k_rot_list
                 phase_sector_scan.q_list phase_sector_scan.delta_phi_ini_list)
              []) as [H1 H2].
  rewrite grid_points_length in H1, H2. simpl in H1, H2. split.
  - exact H1.
  - exact H2.
Qed.

Lemma sweep_row_count_witness :
  (length (fst (phase_sector_scan.main solver_failing_at_02)) < 60)%nat.
Proof.
  apply (proj2 (proj2 (sweep_row_count solver_failing_at_02)) SolverError).
  unfold phase_sector_scan.main. simpl.
  unfold phase_evolution_ode.run_phase_evolution, solver_failing_at_02.
  simpl. destruct (Req_dec_T 0.2 0.2); [reflexivity | lra].
Defined.



(* ================================================================= *)
(** * Further properties of the boundary scans and their classifiers *)

Lemma np_mean_cons' (c : R) (k : nat) :
  np_mean (repeat c (S k)) = Fin (mean (c :: repeat c k)).
Proof. reflexivity. Qed.

Lemma np_std_cons' (c : R) (k : nat) :
  np_std (repeat c (S k)) = Fin (std (c :: repeat c k)).
Proof. reflexivity. Qed.

Lemma fine_tail_constant (c : R) (n : nat) :
  (1 <= n)%nat ->
  exists k, skipn (n - 200) (repeat c n) = repeat c (S k).
Proof.
  intros H. rewrite skipn_repeat.
  exists (n - (n - 200) - 1)%nat. f_equal. lia.
Qed.

(** X13. The two-way classifier of the fine scan labels an empty
    trajectory C, and a trajectory that sits at one value c is labelled A
    exactly when c < 0.5, however negative c is; no reduction modulo 2 pi
    takes place. *)
Theorem fine_scan_classify_sector_constant :
  phase_sector_boundary_fine_scan.classify_sector [] = "C"%string
  /\ (forall c n, (1 <= n)%nat ->
        (c < 0.5 ->
         phase_sector_boundary_fine_scan.classify_sector (repeat c n)
         = "A"%string)
        /\ (0.5 <= c ->
            phase_sector_boundary_fine_scan.classify_sector (repeat c n)
            = "C"%string)).
Proof.
  split; [reflexivity |]. intros c n Hn.
  unfold phase_sector_boundary_fine_scan.classify_sector. cbv zeta.
  rewrite repeat_length.
  destruct (fine_tail_constant c n Hn) as [k ->].
  rewrite np_mean_cons', np_std_cons'.
  change (c :: repeat c k) with (repeat c (S k)).
  rewrite mean_repeat, std_repeat. unfold flt. split; intros Hc.
  - destruct (Rlt_dec c 0.5); [| lra].
    destruct (Rlt_dec 0 0.1); [reflexivity | lra].
  - destruct (Rlt_dec c 0.5); [lra | reflexivity].
Qed.

Lemma fine_scan_classify_sector_constant_witness :
  phase_sector_boundary_fine_scan.classify_sector (repeat (- (100)) 2000)
  = "A"%string.
Proof.
  apply (proj2 fine_scan_classify_sector_constant (- (100)) 2000%nat);
    [lia | lra].
Defined.

Lemma microfine_tail_constant (c : R) (n : nat) :
  (1 <= n)%nat ->
  exists k, skipn (17 * n / 20) (repeat c n) = repeat c (S k).
Proof.
  intros H. rewrite skipn_repeat.
  assert (17 * n / 20 < n)%nat by (apply Nat.Div0.div_lt_upper_bound; lia).
  exists (n - 17 * n / 20 - 1)%nat. f_equal. lia.
Qed.

(** X14. The classifier of the micro-fine scan labels an empty trajectory
    C; a trajectory that sits at one value c is labelled A when |c| < 2.5
    and B otherwise, never C. *)
Theorem microfine_classify_sector_constant :
  (forall a, phase_sector_boundary_microfine.classify_sector a []
             = "C"%string)
  /\ (forall a c n, (1 <= n)%nat ->
        (Rabs c < 2.5 ->
         phase_sector_boundary_microfine.classify_sector a (repeat c n)
         = "A"%string)
        /\ (2.5 <= Rabs c ->
            phase_sector_boundary_microfine.classify_sector a (repeat c n)
            = "B"%string)).
Proof.
  split; [reflexivity |]. intros a c n Hn.
  unfold phase_sector_boundary_microfine.classify_sector,
    phase_sector_boundary_microfine.tail_start. cbv zeta.
  rewrite repeat_length.
  destruct (microfine_tail_constant c n Hn) as [k ->].
  rewrite np_mean_cons', np_std_cons'.
  change (c :: repeat c k) with (repeat c (S k)).
  rewrite mean_repeat, std_repeat. unfold flt, fabs.
  destruct (Rlt_dec 0 0.05); [| lra]. split; intros Hc.
  - destruct (Rlt_dec (Rabs c) 2.5); [reflexivity | lra].
  - destruct (Rlt_dec (Rabs c) 2.5); [lra | reflexivity].
Qed.

Lemma microfine_classify_sector_constant_witness :
  phase_sector_boundary_microfine.classify_sector [] (repeat 3 1500)
  = "B"%string.
Proof.
  apply (proj2 microfine_classify_sector_constant [] 3 1500%nat); [lia |].
  rewrite Rabs_pos_eq; lra.
Defined.



Lemma detect_transition_at (ks : list R) (labels : list string) (i j : nat) :
  length ks = length labels ->
  last_index_of "A"%string labels i ->
  first_index_of "C"%string labels j ->
  phase_sector_boundary_fine_scan.detect_transition ks labels
  = if (j <=? i)%nat then Ok None
    else Ok (Some (0.5 * (nth i ks 0 + nth j ks 0))).
Proof.
  intros Hlen HA HC.
  unfold phase_sector_boundary_fine_scan.detect_transition.
  rewrite (is_empty_false _ i) by (apply indices_of_In; exact (proj1 HA)).
  rewrite (is_empty_false _ j) by (apply indices_of_In; exact (proj1 HC)).
  rewrite (last_index_max _ _ _ HA), (first_index_min _ _ _ HC). simpl.
  destruct (j <=? i)%nat; [reflexivity |].
  assert (Hi : (i < length ks)%nat).
  { rewrite Hlen. apply nth_error_Some. rewrite (proj1 HA). discriminate. }
  assert (Hj : (j < length ks)%nat).
  { rewrite Hlen. apply nth_error_Some. rewrite (proj1 HC). discriminate. }
  now rewrite (getitem_nth 0 ks i Hi), (getitem_nth 0 ks j Hj).
Qed.

Lemma nth_error_two_blocks (a b : string) (p q t : nat) :
  nth_error (repeat a p ++ repeat b q) t
  = if (t <? p)%nat then Some a
    else if (t <? p + q)%nat then Some b else None.
Proof.
  destruct (Nat.ltb_spec t p) as [H | H].
  - rewrite nth_error_app1 by now rewrite repeat_length.
    now apply nth_error_repeat.
  - rewrite nth_error_app2 by now rewrite repeat_length.
    rewrite repeat_length.
    destruct (Nat.ltb_spec t (p + q)) as [H' | H'].
    + apply nth_error_repeat. lia.
    + apply nth_error_None. rewrite repeat_length. lia.
Qed.

Lemma two_blocks_last (a b : string) (p q : nat) :
  a <> b -> (1 <= p)%nat ->
  last_index_of a (repeat a p ++ repeat b q) (p - 1).
Proof.
  intros Hab Hp. split.
  - rewrite nth_error_two_blocks.
    destruct (Nat.ltb_spec (p - 1) p); [reflexivity | lia].
  - intros j Hj. rewrite nth_error_two_blocks.
    destruct (Nat.ltb_spec j p); [lia |].
    destruct (j <? p + q)%nat; congruence.
Qed.

Lemma two_blocks_first (a b : string) (p q : nat) :
  a <> b -> (1 <= q)%nat ->
  first_index_of b (repeat a p ++ repeat b q) p.
Proof.
  intros Hab Hq. split.
  - rewrite nth_error_two_blocks.
    destruct (Nat.ltb_spec p p); [lia |].
    destruct (Nat.ltb_spec p (p + q)); [reflexivity | lia].
  - intros i Hi. rewrite nth_error_two_blocks.
    destruct (Nat.ltb_spec i p); [congruence | lia].
Qed.

Lemma two_blocks_first_head (a b : string) (p q : nat) :
  (1 <= p)%nat -> first_index_of a (repeat a p ++ repeat b q) 0.
Proof.
  intros Hp. split.
  - rewrite nth_error_two_blocks.
    destruct (Nat.ltb_spec 0 p); [reflexivity | lia].
  - intros i Hi. lia.
Qed.

Lemma two_blocks_last_tail (a b : string) (p q : nat) :
  (1 <= q)%nat -> last_index_of b (repeat a p ++ repeat b q) (p + q - 1).
Proof.
  intros Hq. split.
  - rewrite nth_error_two_blocks.
    destruct (Nat.ltb_spec (p + q - 1) p) as [H | H]; [lia |].
    destruct (Nat.ltb_spec (p + q - 1) (p + q)); [reflexivity | lia].
  - intros j Hj. rewrite nth_error_two_blocks.
    destruct (Nat.ltb_spec j p); [lia |].
    destruct (Nat.ltb_spec j (p + q)); [lia | discriminate].
Qed.

Lemma indices_of_nonempty (lbl : string) (l : list string) :
  phase_sector_boundary_fine_scan.indices_of lbl l <> [] ->
  last_index_of lbl l
    (phase_sector_boundary_fine_scan.max_index
       (phase_sector_boundary_fine_scan.indices_of lbl l))
  /\ first_index_of lbl l
       (phase_sector_boundary_fine_scan.min_index
          (phase_sector_boundary_fine_scan.indices_of lbl l)).
Proof.
  intros Hne. split; split.
  - apply indices_of_In. now apply max_index_In.
  - intros j Hj Hlbl. apply indices_of_In in Hlbl.
    apply max_index_ge in Hlbl. lia.
  - apply indices_of_In. now apply min_index_In.
  - intros i Hi Hlbl. apply indices_of_In in Hlbl.
    apply min_index_le in Hlbl. lia.
Qed.

(** A row of labels A and C whose last A comes right before its first C
    is a block of A followed by a block of C. *)
Lemma labels_two_blocks (labels : list string) (i j : nat) :
  (forall s, In s labels -> s = "A"%string \/ s = "C"%string) ->
  last_index_of "A"%string labels i ->
  first_index_of "C"%string labels j ->
  (i < j)%nat ->
  labels = repeat "A"%string (S i) ++ repeat "C"%string (length labels - S i).
Proof.
  intros Hall [HAi HA] [HCj HC] Hij.
  assert (Hj : (j < length labels)%nat)
    by (apply nth_error_Some; rewrite HCj; discriminate).
  apply nth_error_ext. intros t. rewrite nth_error_two_blocks.
  destruct (nth_error labels t) as [s |] eqn:E.
  - assert (Ht : (t < length labels)%nat)
      by (apply nth_error_Some; rewrite E; discriminate).
    destruct (Hall s (nth_error_In _ _ E)) as [-> | ->].
    + destruct (Nat.ltb_spec t (S i)); [reflexivity |].
      exfalso. apply (HA t); [lia | exact E].
    + destruct (Nat.ltb_spec t (S i)) as [H | H].
      * exfalso. apply (HC t); [lia | exact E].
      * destruct (Nat.ltb_spec t (S i + (length labels - S i)));
          [reflexivity | lia].
  - apply nth_error_None in E.
    destruct (Nat.ltb_spec t (S i)); [lia |].
    destruct (Nat.ltb_spec t (S i + (length labels - S i)));
      [lia | reflexivity].
Qed.

(** X16. On a row labelled with A and C only, the fine scan reports a
    boundary exactly for the rows made of a block of A followed by a block
    of C, and the boundary is the midpoint of the last A and the first C
    coordinate.  A block of C followed by a block of A, the transition in
    the other direction, is reported as no boundary. *)
Theorem detect_transition_two_blocks :
  (forall ks p q,
      (1 <= p)%nat -> (1 <= q)%nat -> length ks = (p + q)%nat ->
      phase_sector_boundary_fine_scan.detect_transition ks
        (repeat "A"%string p ++ repeat "C"%string q)
      = Ok (Some (0.5 * (nth (p - 1) ks 0 + nth p ks 0))))
  /\ (forall ks p q,
         phase_sector_boundary_fine_scan.detect_transition ks
           (repeat "C"%string p ++ repeat "A"%string q)
         = Ok None)
  /\ (forall ks labels x,
         length ks = length labels ->
         (forall s, In s labels -> s = "A"%string \/ s = "C"%string) ->
         phase_sector_boundary_fine_scan.detect_transition ks labels
         = Ok (Some x) ->
         exists p q,
           (1 <= p)%nat /\ (1 <= q)%nat
           /\ labels = repeat "A"%string p ++ repeat "C"%string q).
Proof.
  assert (HAC : "A"%string <> "C"%string) by discriminate.
  assert (HCA : "C"%string <> "A"%string) by discriminate.
  split; [| split].
  - intros ks p q Hp Hq Hlen.
    rewrite (detect_transition_at ks _ (p - 1) p).
    + destruct (Nat.leb_spec p (p - 1)); [lia | reflexivity].
    + now rewrite length_app, !repeat_length.
    + now apply two_blocks_last.
    + now apply two_blocks_first.
  - intros ks p q.
    unfold phase_sector_boundary_fine_scan.detect_transition.
    destruct p as [| p].
    { simpl app. rewrite (indices_of_absent "C"%string).
      - now rewrite orb_true_r.
      - intros s Hs. apply repeat_spec in Hs. congruence. }
    destruct q as [| q].
    { rewrite app_nil_r. rewrite (indices_of_absent "A"%string).
      - reflexivity.
      - intros s Hs. apply repeat_spec in Hs. congruence. }
    assert (HA : last_index_of "A"%string
                   (repeat "C"%string (S p) ++ repeat "A"%string (S q))
                   (S p + S q - 1))
      by (apply two_blocks_last_tail; lia).
    assert (HC : first_index_of "C"%string
                   (repeat "C"%string (S p) ++ repeat "A"%string (S q)) 0)
      by (apply two_blocks_first_head; lia).
    rewrite (is_empty_false _ _ (proj2 (indices_of_In _ _ _) (proj1 HA))).
    rewrite (is_empty_false _ _ (proj2 (indices_of_In _ _ _) (proj1 HC))).
    rewrite (last_index_max _ _ _ HA), (first_index_min _ _ _ HC).
    reflexivity.
  - intros ks labels x Hlen Hall H.
    unfold phase_sector_boundary_fine_scan.detect_transition in H.
    destruct (phase_sector_boundary_fine_scan.indices_of "A"%string labels)
      as [| a0 la] eqn:EA; [discriminate |].
    destruct (phase_sector_boundary_fine_scan.indices_of "C"%string labels)
      as [| c0 lc] eqn:EC; [discriminate |].
    cbn [is_empty orb] in H.
    destruct (Nat.leb_spec
                (phase_sector_boundary_fine_scan.min_index (c0 :: lc))
                (phase_sector_boundary_fine_scan.max_index (a0 :: la)))
      as [Hle | Hlt]; [discriminate |].
    destruct (indices_of_nonempty "A"%string labels) as [HA _];
      [rewrite EA; discriminate |].
    destruct (indices_of_nonempty "C"%string labels) as [_ HC];
      [rewrite EC; discriminate |].
    rewrite EA in HA. rewrite EC in HC.
    pose proof (labels_two_blocks labels _ _ Hall HA HC Hlt) as E.
    assert (Hj : (phase_sector_boundary_fine_scan.min_index (c0 :: lc)
                  < length labels)%nat)
      by (apply nth_error_Some; rewrite (proj1 HC); discriminate).
    eexists _, _. split; [| split; [| exact E]]; lia.
Qed.

Lemma detect_transition_two_blocks_witness :
  phase_sector_boundary_fine_scan.detect_transition [0.1; 0.2; 0.3]
    (repeat "A"%string 2 ++ repeat "C"%string 1)
  = Ok (Some (0.5 * (0.2 + 0.3))).
Proof.
  apply (proj1 detect_transition_two_blocks [0.1; 0.2; 0.3] 2%nat 1%nat);
    simpl; lia.
Defined.

Section MicrofineFacts.
Import phase_evolution_ode phase_sector_boundary_microfine.
Variable solve_ivp : solver.

Lemma row_loop_step (m k : R) (s : string) (rest : list R)
    (last_sector : option string) (st : state) :
  microfine_label solve_ivp m k = Ok s ->
  row_loop solve_ivp m (k :: rest) last_sector st
  = row_loop solve_ivp m rest (Some s)
      {| csv_lines := csv_lines st ++ [(m, k, s)];
         boundary_points :=
           match last_sector with
           | Some s0 =>
               if negb (String.eqb s s0)
               then boundary_points st ++ [(m, k)]
               else boundary_points st
           | None => boundary_points st
           end |}.
Proof.
  unfold microfine_label. intros H. cbn [row_loop].
  destruct (run_phase_evolution solve_ivp m k q delta_phi_ini
              delta_phidot_ini a_ini a_max 1500) as [[[a dphi] dphidot] | e];
    [| discriminate].
  simpl in H. inversion H. reflexivity.
Qed.

Lemma row_loop_from_label (m k0 : R) (s0 : string) (ks : list R)
    (labels : list string) (st : state) :
  Forall2 (fun k s => microfine_label solve_ivp m k = Ok s) ks labels ->
  row_loop solve_ivp m ks (Some s0) st
  = ({| csv_lines :=
          csv_lines st
          ++ map (fun p => (m, fst p, snd p)) (combine ks labels);
        boundary_points :=
          boundary_points st
          ++ adjacent_changes m ((k0, s0) :: combine ks labels) |},
     Ok tt).
Proof.
  intros H. revert k0 s0 st.
  induction H as [| k s ks labels Hk _ IH]; intros k0 s0 st.
  - simpl. rewrite !app_nil_r. now destruct st.
  - rewrite (row_loop_step m k s ks (Some s0) st Hk).
    rewrite (IH k s). cbn [csv_lines boundary_points]. f_equal. f_equal.
    + rewrite <- app_assoc. reflexivity.
    + cbn [combine adjacent_changes].
      destruct (String.eqb s s0); cbn [negb];
        [reflexivity | now rewrite <- app_assoc].
Qed.

Lemma row_loop_labels (m : R) (ks : list R) (labels : list string)
    (st : state) :
  Forall2 (fun k s => microfine_label solve_ivp m k = Ok s) ks labels ->
  row_loop solve_ivp m ks None st
  = ({| csv_lines :=
          csv_lines st
          ++ map (fun p => (m, fst p, snd p)) (combine ks labels);
        boundary_points :=
          boundary_points st ++ adjacent_changes m (combine ks labels) |},
     Ok tt).
Proof.
  intros H. destruct H as [| k s ks labels Hk H].
  - simpl. rewrite !app_nil_r. now destruct st.
  - rewrite (row_loop_step m k s ks None st Hk).
    rewrite (row_loop_from_label m k s ks labels _ H).
    cbn [csv_lines boundary_points]. f_equal. f_equal.
    rewrite <- app_assoc. reflexivity.
Qed.
End MicrofineFacts.

Lemma adjacent_changes_constant (m : R) (s : string) (l : list (R * string)) :
  (forall p, In p l -> snd p = s) -> adjacent_changes m l = [].
Proof.
  induction l as [| [k1 s1] tl IH]; intros H; [reflexivity |].
  destruct tl as [| [k2 s2] rest]; [reflexivity |].
  cbn [adjacent_changes].
  assert (E1 : s1 = s) by (apply (H (k1, s1)); now left).
  assert (E2 : s2 = s) by (apply (H (k2, s2)); right; now left).
  subst. rewrite String.eqb_refl. apply IH.
  intros p Hp. apply H. now right.
Qed.

Lemma adjacent_changes_cons (m k1 k2 : R) (s1 s2 : string)
    (tl : list (R * string)) :
  adjacent_changes m ((k1, s1) :: (k2, s2) :: tl)
  = if String.eqb s2 s1 then adjacent_changes m ((k2, s2) :: tl)
    else (m, k2) :: adjacent_changes m ((k2, s2) :: tl).
Proof. reflexivity. Qed.

Lemma adjacent_changes_two_blocks (m : R) (a b : string) (p q : nat)
    (ks : list R) :
  a <> b -> (1 <= p)%nat -> (1 <= q)%nat -> length ks = (p + q)%nat ->
  adjacent_changes m (combine ks (repeat a p ++ repeat b q))
  = [(m, nth p ks 0)].
Proof.
  intros Hab Hp Hq. revert ks.
  induction p as [| p IH]; intros ks Hlen; [lia |].
  destruct ks as [| k0 ks]; [discriminate |].
  destruct p as [| p].
  - destruct q as [| q]; [lia |].
    destruct ks as [| k1 ks]; [discriminate |].
    cbn [repeat app combine nth]. rewrite adjacent_changes_cons.
    destruct (String.eqb b a) eqn:E;
      [apply String.eqb_eq in E; congruence |].
    f_equal.
    apply (adjacent_changes_constant m b).
    intros [k s] Hx. simpl. destruct Hx as [E' | Hx]; [congruence |].
    apply in_combine_r in Hx. now apply repeat_spec in Hx.
  - destruct ks as [| k1 ks]; [discriminate |].
    specialize (IH ltac:(lia) (k1 :: ks) ltac:(simpl in *; lia)).
    cbn [repeat app combine nth] in *. rewrite adjacent_changes_cons.
    rewrite String.eqb_refl. exact IH.
Qed.

(** X17. Along one row of the micro-fine scan, with the integrator
    returning at every grid point, the script appends one CSV line per grid
    point and one boundary point, at the later coordinate, for every pair
    of consecutive grid points whose labels differ; the first grid point of
    a row is never a boundary point.  A row with a single label adds no
    boundary point, and a row made of a block of one label followed by a
    block of another adds exactly one, at the first coordinate of the
    second block. *)
Theorem microfine_row_changes (solve_ivp : phase_evolution_ode.solver)
    (m : R) (ks : list R) (labels : list string)
    (st : phase_sector_boundary_microfine.state) :
  Forall2 (fun k s => microfine_label solve_ivp m k = Ok s) ks labels ->
  phase_sector_boundary_microfine.row_loop solve_ivp m ks None st
  = ({| phase_sector_boundary_microfine.csv_lines :=
          phase_sector_boundary_microfine.csv_lines st
          ++ map (fun p => (m, fst p, snd p)) (combine ks labels);
        phase_sector_boundary_microfine.boundary_points :=
          phase_sector_boundary_microfine.boundary_points st
          ++ adjacent_changes m (combine ks labels) |},
     Ok tt)
  /\ ((forall s s', In s labels -> In s' labels -> s = s') ->
      phase_sector_boundary_microfine.boundary_points
        (fst (phase_sector_boundary_microfine.row_loop
                solve_ivp m ks None st))
      = phase_sector_boundary_microfine.boundary_points st)
  /\ (forall a b p q,
         a <> b -> (1 <= p)%nat -> (1 <= q)%nat ->
         labels = repeat a p ++ repeat b q ->
         phase_sector_boundary_microfine.boundary_points
           (fst (phase_sector_boundary_microfine.row_loop
                   solve_ivp m ks None st))
         = phase_sector_boundary_microfine.boundary_points st
           ++ [(m, nth p ks 0)]).
Proof.
  intros H. rewrite (row_loop_labels solve_ivp m ks labels st H).
  split; [reflexivity | split]; cbn [fst].
  - intros Hall. simpl.
    destruct labels as [| s0 labels'].
    + inversion H; subst. simpl. now rewrite app_nil_r.
    + rewrite (adjacent_changes_constant m s0); [now rewrite app_nil_r |].
      intros p Hp. destruct p as [k s]. apply in_combine_r in Hp. simpl.
      apply Hall; [exact Hp | now left].
  - intros a b p q Hab Hp Hq ->. simpl. f_equal.
    apply adjacent_changes_two_blocks; auto.
    rewrite (Forall2_length H), length_app, !repeat_length. reflexivity.
Qed.

Lemma microfine_row_changes_witness :
  phase_sector_boundary_microfine.boundary_points
    (fst (phase_sector_boundary_microfine.row_loop solver_flagging_failure
            0.4 [0.38; 0.3802] None
            {| phase_sector_boundary_microfine.csv_lines := [];
               phase_sector_boundary_microfine.boundary_points := [] |}))
  = [].
Proof.
  refine (proj1 (proj2 (microfine_row_changes solver_flagging_failure
                          0.4 [0.38; 0.3802] ["C"; "C"]%string _ _)) _).
  - repeat constructor.
  - intros s s' [<- | [<- | []]] [<- | [<- | []]]; reflexivity.
Defined.

(* ================================================================= *)
(** * Further properties of phase_sector_boundary_from_zoom.py *)

Section ZoomSymmetry.
Import phase_sector_boundary_from_zoom.

Lemma row_boundary_adjacent (m : R) (df_m : list sample) :
  row_boundary m df_m = adjacent_AC m df_m.
Proof.
  unfold row_boundary. rewrite length_map.
  exact (pair_loop_adjacent m df_m []).
Qed.

Lemma is_AC_pair_swap (s1 s2 : string) :
  is_AC_pair (swap_AC s1) (swap_AC s2) = is_AC_pair s1 s2.
Proof.
  unfold is_AC_pair, swap_AC.
  case_label s1 "A"%string; [| case_label s1 "C"%string];
    (case_label s2 "A"%string; [| case_label s2 "C"%string]);
    simpl; rewrite ?E, ?E0, ?E1, ?E2; reflexivity.
Qed.

Lemma adjacent_AC_cons (m : R) (a b : sample) (tl : list sample) :
  adjacent_AC m (a :: b :: tl)
  = if is_AC_pair (sector a) (sector b)
    then (m, (Delta_phi_ini a + Delta_phi_ini b) / 2)
           :: adjacent_AC m (b :: tl)
    else adjacent_AC m (b :: tl).
Proof. reflexivity. Qed.

Lemma adjacent_AC_swap (m : R) (l : list sample) :
  adjacent_AC m (map (relabel swap_AC) l) = adjacent_AC m l.
Proof.
  induction l as [| a tl IH]; [reflexivity |].
  destruct tl as [| b rest]; [reflexivity |].
  change (map (relabel swap_AC) (a :: b :: rest))
    with (relabel swap_AC a :: map (relabel swap_AC) (b :: rest)) in *.
  change (map (relabel swap_AC) (b :: rest))
    with (relabel swap_AC b :: map (relabel swap_AC) rest) in *.
  rewrite !adjacent_AC_cons. cbn [relabel sector Delta_phi_ini].
  rewrite is_AC_pair_swap. rewrite IH. reflexivity.
Qed.

Lemma insert_by_map {A : Type} (key : A -> R) (g : A -> A) (x : A)
    (l : list A) :
  (forall y, key (g y) = key y) ->
  insert_by key (g x) (map g l) = map g (insert_by key x l).
Proof.
  intros H. induction l as [| y ys IH]; simpl; [reflexivity |].
  rewrite !H. destruct (Rle_dec (key x) (key y)); simpl;
    [reflexivity | now rewrite IH].
Qed.

Lemma sort_by_map {A : Type} (key : A -> R) (g : A -> A) (l : list A) :
  (forall y, key (g y) = key y) ->
  sort_by key (map g l) = map g (sort_by key l).
Proof.
  intros H. unfold sort_by. induction l as [| x xs IH]; simpl;
    [reflexivity |].
  rewrite IH. now apply insert_by_map.
Qed.

Lemma filter_map_keep {A : Type} (f : A -> bool) (g : A -> A) (l : list A) :
  (forall y, f (g y) = f y) ->
  filter f (map g l) = map g (filter f l).
Proof.
  intros H. induction l as [| x xs IH]; simpl; [reflexivity |].
  rewrite H. destruct (f x); simpl; now rewrite IH.
Qed.
End ZoomSymmetry.

(** X18. The boundary found from the zoom maps is the same when the
    labels A and C are exchanged throughout the data: only the unordered
    pair of labels of two neighbours counts. *)
Theorem boundary_points_swap_AC
    (data : list phase_sector_boundary_from_zoom.sample) :
  phase_sector_boundary_from_zoom.boundary_points
    (map (relabel swap_AC) data)
  = phase_sector_boundary_from_zoom.boundary_points data.
Proof.
  unfold phase_sector_boundary_from_zoom.boundary_points. cbv zeta.
  rewrite map_map. cbn [relabel phase_sector_boundary_from_zoom.m_phi].
  apply flat_map_ext. intros m.
  rewrite filter_map_keep by reflexivity.
  rewrite sort_by_map by reflexivity.
  rewrite !row_boundary_adjacent. apply adjacent_AC_swap.
Qed.

Section ZoomSoundness.
Import phase_sector_boundary_from_zoom.

Lemma adjacent_AC_In (m m' x : R) (l : list sample) :
  In (m', x) (adjacent_AC m l) ->
  m' = m
  /\ exists pre a b post,
       l = pre ++ a :: b :: post
       /\ is_AC_pair (sector a) (sector b) = true
       /\ x = (Delta_phi_ini a + Delta_phi_ini b) / 2.
Proof.
  induction l as [| a tl IH]; [intros [] |].
  destruct tl as [| b rest]; [intros [] |].
  rewrite adjacent_AC_cons.
  destruct (is_AC_pair (sector a) (sector b)) eqn:E.
  - intros [H | H].
    + inversion H; subst. split; [reflexivity |].
      exists [], a, b, rest. auto.
    + destruct (IH H) as (Hm & pre & a' & b' & post & El & Ep & Ex).
      split; [exact Hm |]. exists (a :: pre), a', b', post.
      split; [simpl; now rewrite El | auto].
  - intros H.
    destruct (IH H) as (Hm & pre & a' & b' & post & El & Ep & Ex).
    split; [exact Hm |]. exists (a :: pre), a', b', post.
    split; [simpl; now rewrite El | auto].
Qed.

Lemma is_AC_pair_true (s1 s2 : string) :
  is_AC_pair s1 s2 = true ->
  (s1 = "A"%string /\ s2 = "C"%string)
  \/ (s1 = "C"%string /\ s2 = "A"%string).
Proof.
  unfold is_AC_pair. intros H. apply orb_true_iff in H.
  destruct H as [H | H]; apply andb_true_iff in H; destruct H as [H1 H2];
    apply String.eqb_eq in H1; apply String.eqb_eq in H2; auto.
Qed.
End ZoomSoundness.

(** X19. Every boundary point that the zoom script reports is the midpoint
    of two samples of the data with that same m_phi, one labelled A and
    the other C, and lies between their two coordinates. *)
Theorem boundary_points_sound
    (data : list phase_sector_boundary_from_zoom.sample) (m x : R) :
  In (m, x) (phase_sector_boundary_from_zoom.boundary_points data) ->
  exists r1 r2,
    In r1 data /\ In r2 data
    /\ phase_sector_boundary_from_zoom.m_phi r1 = m
    /\ phase_sector_boundary_from_zoom.m_phi r2 = m
    /\ ((phase_sector_boundary_from_zoom.sector r1 = "A"%string
         /\ phase_sector_boundary_from_zoom.sector r2 = "C"%string)
        \/ (phase_sector_boundary_from_zoom.sector r1 = "C"%string
            /\ phase_sector_boundary_from_zoom.sector r2 = "A"%string))
    /\ x = (phase_sector_boundary_from_zoom.Delta_phi_ini r1
            + phase_sector_boundary_from_zoom.Delta_phi_ini r2) / 2
    /\ phase_sector_boundary_from_zoom.Delta_phi_ini r1 <= x
       <= phase_sector_boundary_from_zoom.Delta_phi_ini r2.
Proof.
  unfold phase_sector_boundary_from_zoom.boundary_points. cbv zeta.
  intros H. apply in_flat_map in H. destruct H as (m0 & _ & H).
  rewrite row_boundary_adjacent in H.
  apply adjacent_AC_In in H.
  destruct H as (-> & pre & a & b & post & El & Ep & Ex).
  set (df := sort_by phase_sector_boundary_from_zoom.Delta_phi_ini
               (filter
                  (fun r => if Req_dec_T
                                 (phase_sector_boundary_from_zoom.m_phi r) m0
                            then true else false) data)) in *.
  assert (Hin : forall r, In r df ->
                  In r data /\ phase_sector_boundary_from_zoom.m_phi r = m0).
  { intros r Hr. unfold df in Hr. rewrite sort_by_In in Hr.
    apply filter_In in Hr. destruct Hr as [Hr Hm]. split; [exact Hr |].
    destruct (Req_dec_T (phase_sector_boundary_from_zoom.m_phi r) m0);
      [assumption | discriminate]. }
  assert (Hle : phase_sector_boundary_from_zoom.Delta_phi_ini a
                <= phase_sector_boundary_from_zoom.Delta_phi_ini b).
  { pose proof (sorted_map_key
                  phase_sector_boundary_from_zoom.Delta_phi_ini df
                  (sort_by_sorted _ _)) as Hs.
    rewrite El, map_app in Hs. simpl in Hs.
    exact (ascending_adjacent _ _ _ _ Hs). }
  assert (Ha : In a df) by (rewrite El; apply in_or_app; right; now left).
  assert (Hb : In b df)
    by (rewrite El; apply in_or_app; right; right; now left).
  exists a, b. destruct (Hin a Ha) as [Ha1 Ha2].
  destruct (Hin b Hb) as [Hb1 Hb2].
  repeat split; auto; try lra.
  now apply is_AC_pair_true.
Qed.

Lemma boundary_points_sound_witness :
  let s d l :=
    {| phase_sector_boundary_from_zoom.m_phi := 1;
       phase_sector_boundary_from_zoom.Delta_phi_ini := d;
       phase_sector_boundary_from_zoom.sector := l |} in
  exists r1 r2,
    In r1 [s 0.2 "A"%string; s 0.1 "C"%string]
    /\ In r2 [s 0.2 "A"%string; s 0.1 "C"%string]
    /\ (0.1 + 0.2) / 2
       = (phase_sector_boundary_from_zoom.Delta_phi_ini r1
          + phase_sector_boundary_from_zoom.Delta_phi_ini r2) / 2.
Proof.
  intros s.
  destruct (boundary_points_sound
              [s 0.2 "A"%string; s 0.1 "C"%string] 1 ((0.1 + 0.2) / 2))
    as (r1 & r2 & H1 & H2 & _ & _ & _ & Hx & _).
  - unfold phase_sector_boundary_from_zoom.boundary_points, sorted, sort_by,
      phase_sector_boundary_from_zoom.row_boundary, s.
    decide_reals. simpl. left. f_equal. lra.
  - exists r1, r2. auto.
Defined.

(* ================================================================= *)
(** * Further properties of the grids *)

Lemma fold_fadd_NaN (l : list pyfloat) : fold_left fadd l NaN = NaN.
Proof. induction l as [| x xs IH]; simpl; [reflexivity | exact IH]. Qed.

Lemma fold_fadd_poisoned (l : list pyfloat) (acc : pyfloat) :
  In NaN l -> fold_left fadd l acc = NaN.
Proof.
  revert acc. induction l as [| x xs IH]; intros acc; [intros [] |].
  intros [-> | H]; simpl.
  - destruct acc; apply fold_fadd_NaN.
  - now apply IH.
Qed.

Lemma np_mean_floats_poisoned (l : list pyfloat) :
  In NaN l -> np_mean_floats l = NaN.
Proof.
  intros H. unfold np_mean_floats. now rewrite fold_fadd_poisoned.
Qed.

Lemma values_at_In (rows : list (R * R * pyfloat)) (m k : R) (p : pyfloat) :
  In (m, k, p) rows -> In p (values_at rows m k).
Proof.
  induction rows as [| [[m' k'] p'] rest IH]; [intros [] |].
  intros H. simpl.
  destruct (pair_eq_dec (m', k') (m, k)) as [E | N].
  - destruct H as [H | H]; [left; congruence | right; now apply IH].
  - destruct H as [H | H]; [exfalso; apply N; congruence | now apply IH].
Qed.

(** X20. In the continuous grid one NaN response is enough to turn its
    cell into NaN, the mark of a cell without data, whatever the other
    responses recorded at that coordinate pair are.  The grid has one line
    per k_rot value and one column per m_phi value. *)
Theorem build_grid_nan_cell (rows : list (R * R * pyfloat)) (m k : R) :
  In (m, k, NaN) rows ->
  let '(mphi_vals, krot_vals, PA_grid) :=
    phase_sector_map_2D.build_grid rows in
  (length PA_grid = length krot_vals
   /\ forall line, In line PA_grid -> length line = length mphi_vals)
  /\ exists i j,
       nth_error krot_vals i = Some k
       /\ nth_error mphi_vals j = Some m
       /\ nth_error (nth i PA_grid []) j = Some NaN.
Proof.
  intros Hin. unfold phase_sector_map_2D.build_grid. cbv zeta.
  set (grid := phase_sector_map_2D.group_cells rows).
  set (mphi_vals := sorted (distinct (map (fun c => fst (fst c)) grid))).
  set (krot_vals := sorted (distinct (map (fun c => snd (fst c)) grid))).
  split.
  - split; [apply length_map |].
    intros line Hl. apply in_map_iff in Hl. destruct Hl as (k' & <- & _).
    apply length_map.
  - assert (Hkey : In (m, k) (map fst grid))
      by (apply group_cells_keys; now exists NaN).
    apply in_map_iff in Hkey. destruct Hkey as ([c vs] & Ec & Hc).
    simpl in Ec. subst c.
    assert (Hm : In m mphi_vals).
    { apply (proj2 (proj2 (sorted_distinct _))). apply in_map_iff.
      now exists (m, k, vs). }
    assert (Hk : In k krot_vals).
    { apply (proj2 (proj2 (sorted_distinct _))). apply in_map_iff.
      now exists (m, k, vs). }
    apply In_nth_error in Hm. destruct Hm as [j Hj].
    apply In_nth_error in Hk. destruct Hk as [i Hi].
    exists i, j. split; [exact Hi | split; [exact Hj |]].
    erewrite nth_error_nth;
      [| rewrite nth_error_map, Hi; reflexivity].
    rewrite nth_error_map, Hj. simpl. f_equal.
    unfold grid. rewrite group_cells_get.
    pose proof (values_at_In rows m k NaN Hin) as Hv.
    destruct (values_at rows m k) as [| v vs'] eqn:E; [reflexivity |].
    simpl. rewrite <- E in *. now apply np_mean_floats_poisoned.
Qed.

Lemma build_grid_nan_cell_witness :
  let '(mphi_vals, krot_vals, PA_grid) :=
    phase_sector_map_2D.build_grid [(1, 2, Fin 0.4); (1, 2, NaN)] in
  exists i j,
    nth_error krot_vals i = Some 2
    /\ nth_error mphi_vals j = Some 1
    /\ nth_error (nth i PA_grid []) j = Some NaN.
Proof.
  apply (build_grid_nan_cell [(1, 2, Fin 0.4); (1, 2, NaN)] 1 2).
  right. now left.
Defined.

Section SectorGridOutcome.
Import phase_sector_map.

Lemma sector_grid_fails (rows : list summary) :
  rows_map rows = [] -> sector_grid rows = Raise RuntimeError.
Proof.
  intros H. unfold sector_grid. fold (rows_q rows). fold (rows_map rows).
  destruct (is_empty (rows_q rows)); [reflexivity |].
  now rewrite H.
Qed.

Lemma sector_grid_shape (rows : list summary) :
  rows_map rows <> [] ->
  exists G,
    sector_grid rows
    = Ok (sorted (distinct (map m_phi (rows_q rows))),
          sorted (distinct (map k_rot (rows_q rows))), G)
    /\ has_shape G
         (length (sorted (distinct (map m_phi (rows_q rows)))))
         (length (sorted (distinct (map k_rot (rows_q rows))))).
Proof.
  intros Hne. unfold sector_grid. fold (rows_q rows). fold (rows_map rows).
  set (M := sorted (distinct (map m_phi (rows_q rows)))).
  set (K := sorted (distinct (map k_rot (rows_q rows)))).
  destruct (is_empty (rows_q rows)) eqn:Eq.
  { apply is_empty_nil in Eq. unfold rows_map in Hne. rewrite Eq in Hne.
    now contradiction Hne. }
  destruct (is_empty (rows_map rows)) eqn:Em.
  { apply is_empty_nil in Em. contradiction. }
  destruct (sorted_distinct (map m_phi (rows_q rows))) as (_ & HM & HMin).
  destruct (sorted_distinct (map k_rot (rows_q rows))) as (_ & HK & HKin).
  destruct (fill_cells M K (rows_map rows) (zeros (length M) (length K)))
    as (G & E & Hs & _); auto using zeros_shape.
  { intros r Hr. unfold rows_map in Hr. apply filter_In in Hr.
    destruct Hr as [Hr _]. split.
    - apply HMin. now apply in_map.
    - apply HKin. now apply in_map. }
  exists G. rewrite E. simpl. split; [reflexivity | exact Hs].
Qed.
End SectorGridOutcome.

Section SectorMapReading.
Import phase_sector_map.

Lemma float_of_defect (f : number_field) (e : exn) :
  float_of f = Raise e ->
  (e = KeyError /\ f = NoColumn) \/ (e = TypeError /\ f = NoValue)
  \/ (e = ValueError /\ f = NotANumber).
Proof.
  destruct f; simpl; intros H; inversion H; subst; auto.
Qed.

Lemma float_of_Ok (f : number_field) (v : R) :
  float_of f = Ok v <-> f = Number v.
Proof.
  destruct f; simpl; split; intros H; inversion H; reflexivity.
Qed.

(** What the body of the conversion loop does with one row. *)
Lemma convert_cases (c : csv_row) :
  (exists t, convert c = Ok t
             /\ t_q t = csv_q c
             /\ csv_m_phi c = Number (t_m_phi t)
             /\ csv_k_rot c = Number (t_k_rot t)
             /\ csv_delta_phi_ini c = Number (t_delta_phi_ini t)
             /\ (csv_sector c = Label (t_sector t)
                 \/ (csv_sector c = NoLabel /\ t_sector t = ""%string)))
  \/ (exists e, convert c = Raise e /\ defect c e).
Proof.
  unfold convert, defect. cbv zeta.
  destruct (csv_m_phi c) as [| | | m]; simpl;
    try (right; eexists; split; [reflexivity |]; simpl; tauto).
  destruct (csv_k_rot c) as [| | | k]; simpl;
    try (right; eexists; split; [reflexivity |]; simpl; tauto).
  destruct (csv_delta_phi_ini c) as [| | | d]; simpl;
    try (right; eexists; split; [reflexivity |]; simpl; tauto).
  destruct (csv_sector c) as [| | s]; simpl;
    try (right; eexists; split; [reflexivity |]; simpl; tauto);
    left; eexists; split; try reflexivity; simpl; tauto.
Qed.

(** The two reading passes together: every row is read, or the first
    field that cannot be read raises. *)
Lemma reading_cases (csv : list csv_row) :
  (exists rows,
      (typed <- convert_types csv ;; read_q typed) = Ok rows
      /\ Forall2 reads_as csv rows)
  \/ (exists e c,
         (typed <- convert_types csv ;; read_q typed) = Raise e
         /\ In c csv /\ defect c e).
Proof.
  assert (G : forall csv,
             (exists typed,
                 convert_types csv = Ok typed
                 /\ Forall2 (fun c t =>
                               t_q t = csv_q c
                               /\ csv_m_phi c = Number (t_m_phi t)
                               /\ csv_k_rot c = Number (t_k_rot t)
                               /\ csv_delta_phi_ini c
                                  = Number (t_delta_phi_ini t)
                               /\ (csv_sector c = Label (t_sector t)
                                   \/ (csv_sector c = NoLabel
                                       /\ t_sector t = ""%string)))
                            csv typed)
             \/ (exists e c, convert_types csv = Raise e
                             /\ In c csv /\ defect c e)).
  { clear csv. induction csv as [| c rest IH]; simpl.
    - left. exists []. split; [reflexivity | constructor].
    - destruct (convert_cases c) as [(t & E & Ht) | (e & E & Hd)]; rewrite E;
        simpl.
      + destruct IH as [(typed & E' & HF) | (e & c' & E' & Hin & Hd)];
          rewrite E'; simpl.
        * left. exists (t :: typed). split; [reflexivity |].
          now constructor.
        * right. exists e, c'. tauto.
      + right. exists e, c. tauto. }
  destruct (G csv) as [(typed & E & HF) | (e & c & E & Hin & Hd)];
    rewrite E; simpl; [| right; exists e, c; tauto].
  clear E G. induction HF as [| c t csv typed Hct HF IH]; simpl.
  - left. exists []. split; [reflexivity | constructor].
  - destruct Hct as (Hq & Hm & Hk & Hd & Hs).
    destruct (float_of (t_q t)) as [v | e] eqn:Ev; simpl.
    + apply float_of_Ok in Ev.
      destruct IH as [(rows & E' & HF') | (e & c' & E' & Hin & Hdef)];
        rewrite E'; simpl.
      * left. eexists. split; [reflexivity |].
        constructor; [| exact HF'].
        unfold reads_as. simpl. rewrite <- Hq, Ev. tauto.
      * right. exists e, c'. tauto.
    + right. exists e, c. split; [reflexivity | split; [now left |]].
      apply float_of_defect in Ev. rewrite Hq in Ev. unfold defect. simpl.
      destruct Ev as [[-> ->] | [[-> ->] | [-> ->]]]; tauto.
Qed.

Lemma defect_not_readable (c : csv_row) (e : exn) :
  defect c e -> ~ readable c.
Proof.
  unfold defect, readable, reads_as. simpl.
  intros H (s & Hm & Hk & Hd & Hq & Hs).
  rewrite Hm, Hk, Hd, Hq in H.
  destruct H as [[_ [H | H]] | [[_ H] | [_ H]]];
    try (destruct H as [H | [H | [H | [H | []]]]]; discriminate).
  destruct Hs as [Hs | [Hs _]]; congruence.
Qed.

Lemma defect_not_RuntimeError (c : csv_row) (e : exn) :
  defect c e -> e <> RuntimeError.
Proof.
  unfold defect. simpl. intros [[-> _] | [[-> _] | [-> _]]]; discriminate.
Qed.

Lemma Forall2_readable (csv : list csv_row) (rows : list summary) :
  Forall2 reads_as csv rows -> forall c, In c csv -> readable c.
Proof.
  induction 1 as [| c s csv rows Hcs _ IH]; intros c' Hin; [destruct Hin |].
  destruct Hin as [E | Hin].
  - subst c'. now exists s.
  - now apply IH.
Qed.

(** Read the same way, the same rows. *)
Lemma reads_as_functional (csv : list csv_row) (rows rows' : list summary) :
  Forall2 reads_as csv rows -> Forall2 reads_as csv rows' -> rows = rows'.
Proof.
  intros H. revert rows'. induction H as [| c s csv rows Hcs _ IH];
    intros rows' H'; inversion H' as [| ? s' ? rows'' Hcs' HF']; subst;
    [reflexivity |].
  f_equal; [| now apply IH].
  destruct Hcs as (Hm & Hk & Hd & Hq & Hs).
  destruct Hcs' as (Hm' & Hk' & Hd' & Hq' & Hs').
  destruct s as [m k q0 d l], s' as [m' k' q0' d' l']. simpl in *.
  assert (l = l').
  { destruct Hs as [Hs | [Hs ->]], Hs' as [Hs' | [Hs' ->]]; congruence. }
  congruence.
Qed.

Lemma sector_grid_raises (rows : list summary) (e : exn) :
  sector_grid rows = Raise e -> e = RuntimeError.
Proof.
  intros H. destruct (rows_map rows) as [| r l] eqn:E.
  - rewrite (sector_grid_fails rows E) in H. congruence.
  - destruct (sector_grid_shape rows) as (G & EG & _); [congruence |].
    rewrite EG in H. discriminate.
Qed.

Lemma sector_map_reading (csv : list csv_row) :
  sector_map csv
  = (rows <- (typed <- convert_types csv ;; read_q typed) ;;
     sector_grid rows).
Proof.
  unfold sector_map. destruct (convert_types csv); reflexivity.
Qed.
End SectorMapReading.

(** X21. The sector map from the rows of the summary file.  When every
    field of every row can be read, it fails with RuntimeError exactly
    when no row has q = 1 and delta_phi_ini = 0.01, and otherwise returns
    a grid with one line per m_phi value and one column per k_rot value,
    the axes being the values of all rows with q = 1 whatever their
    delta_phi_ini.  When some field of some row cannot be read, no grid
    is returned: an exception other than RuntimeError is raised, even if
    the row would not be drawn.  Whatever the rows are, an exception other
    than RuntimeError points to a defect of a row: KeyError to a missing
    column, TypeError to a missing number, ValueError to text that is no
    number; the list look-ups that place a row in the grid never fail. *)
Theorem sector_map_outcome (csv : list phase_sector_map.csv_row) :
  (forall rows,
      Forall2 reads_as csv rows ->
      (rows_map rows = [] ->
       phase_sector_map.sector_map csv = Raise RuntimeError)
      /\ (rows_map rows <> [] ->
          exists M K G,
            phase_sector_map.sector_map csv = Ok (M, K, G)
            /\ has_shape G (length M) (length K)
            /\ (forall m, In m M <->
                          exists r, In r (rows_q rows)
                                    /\ phase_sector_map.m_phi r = m)
            /\ (forall k, In k K <->
                          exists r, In r (rows_q rows)
                                    /\ phase_sector_map.k_rot r = k)))
  /\ ((exists c, In c csv /\ ~ readable c) ->
      exists e, phase_sector_map.sector_map csv = Raise e
                /\ e <> RuntimeError)
  /\ (forall e,
         phase_sector_map.sector_map csv = Raise e ->
         (e = RuntimeError
          /\ exists rows, Forall2 reads_as csv rows /\ rows_map rows = [])
         \/ (exists c, In c csv /\ defect c e)).
Proof.
  rewrite sector_map_reading.
  destruct (reading_cases csv) as [(rows0 & E & HF) | (e0 & c0 & E & Hin & Hd)].
  - split; [| split].
    + intros rows HF'. rewrite (reads_as_functional _ _ _ HF' HF).
      rewrite E. simpl. split; [apply sector_grid_fails |].
      intros Hne. destruct (sector_grid_shape rows0 Hne) as (G & EG & Hs).
      eexists _, _, G. split; [exact EG | split; [exact Hs | split]].
      * intros m. rewrite (proj2 (proj2 (sorted_distinct _))), in_map_iff.
        split; intros (r & H1 & H2); exists r; tauto.
      * intros k. rewrite (proj2 (proj2 (sorted_distinct _))), in_map_iff.
        split; intros (r & H1 & H2); exists r; tauto.
    + intros (c & Hc & Hn). exfalso. apply Hn.
      exact (Forall2_readable _ _ HF c Hc).
    + intros e. rewrite E. simpl. intros He. left.
      pose proof (sector_grid_raises _ _ He) as ->. split; [reflexivity |].
      exists rows0. split; [exact HF |].
      destruct (rows_map rows0) as [| r l] eqn:Er; [reflexivity |].
      destruct (sector_grid_shape rows0) as (G & EG & _); [congruence |].
      rewrite EG in He. discriminate.
  - split; [| split].
    + intros rows HF. exfalso.
      exact (defect_not_readable _ _ Hd (Forall2_readable _ _ HF c0 Hin)).
    + intros _. exists e0. rewrite E. simpl.
      split; [reflexivity | exact (defect_not_RuntimeError _ _ Hd)].
    + intros e. rewrite E. simpl. intros He. inversion He; subst.
      right. exists c0. tauto.
Qed.

Lemma sector_map_outcome_witness :
  let c :=
    {| phase_sector_map.csv_m_phi := phase_sector_map.Number 1;
       phase_sector_map.csv_k_rot := phase_sector_map.Number 0;
       phase_sector_map.csv_delta_phi_ini := phase_sector_map.NotANumber;
       phase_sector_map.csv_sector := phase_sector_map.Label "B"%string;
       phase_sector_map.csv_q := phase_sector_map.Number 2 |} in
  exists e, phase_sector_map.sector_map [c] = Raise e /\ e <> RuntimeError.
Proof.
  intros c.
  apply (proj1 (proj2 (sector_map_outcome [c]))).
  exists c. split; [now left |].
  intros (s & _ & _ & H & _). discriminate H.
Defined.

(* ================================================================= *)
(** * Properties of the equation in phase_evolution_ode.py *)

Section OdeFacts.
Import phase_evolution_ode.




End OdeFacts.







(* ================================================================= *)
(** * Where the exceptions of the scans come from *)

Section ScanExceptions.
Import phase_evolution_ode.
Variable solve_ivp : solver.

Lemma run_phase_evolution_raises (m k q d dd a0 a1 : R) (n : nat) (e : exn) :
  run_phase_evolution solve_ivp m k q d dd a0 a1 n = Raise e ->
  exists prob, solve_ivp prob = Raise e.
Proof.
  unfold run_phase_evolution. intros H.
  match type of H with
  | bind (solve_ivp ?prob) _ = _ =>
      exists prob; destruct (solve_ivp prob);
        [discriminate | simpl in H; congruence]
  end.
Qed.

Lemma sector_row_outcome (m : R) (ks : list R) :
  match phase_sector_boundary_fine_scan.sector_row solve_ivp m ks with
  | Ok labels => length labels = length ks
  | Raise e => exists prob, solve_ivp prob = Raise e
  end.
Proof.
  induction ks as [| k rest IH]; [reflexivity |].
  cbn [phase_sector_boundary_fine_scan.sector_row].
  destruct (run_phase_evolution solve_ivp m k
              phase_sector_boundary_fine_scan.q
              phase_sector_boundary_fine_scan.delta_phi_ini 0.0 1e-3 10.0
              2000) as [[[a dphi] dphidot] | e] eqn:E.
  - cbn [bind].
    destruct (phase_sector_boundary_fine_scan.sector_row solve_ivp m rest)
      as [tl | e]; cbn [bind].
    + simpl. now rewrite IH.
    + exact IH.
  - cbn [bind]. now apply run_phase_evolution_raises in E.
Qed.

Lemma detect_transition_returns (ks : list R) (labels : list string) :
  length labels = length ks ->
  exists res,
    phase_sector_boundary_fine_scan.detect_transition ks labels = Ok res.
Proof.
  intros Hlen. unfold phase_sector_boundary_fine_scan.detect_transition.
  destruct (phase_sector_boundary_fine_scan.indices_of "A"%string labels)
    as [| a0 la] eqn:EA; [eexists; reflexivity |].
  destruct (phase_sector_boundary_fine_scan.indices_of "C"%string labels)
    as [| c0 lc] eqn:EC; [eexists; reflexivity |].
  cbn [is_empty orb].
  destruct (_ <=? _)%nat; [eexists; reflexivity |].
  assert (HA : (phase_sector_boundary_fine_scan.max_index (a0 :: la)
                < length ks)%nat).
  { rewrite <- Hlen. apply nth_error_Some.
    assert (Hin : In (phase_sector_boundary_fine_scan.max_index (a0 :: la))
                     (phase_sector_boundary_fine_scan.indices_of
                        "A"%string labels))
      by (rewrite EA; apply max_index_In; discriminate).
    apply indices_of_In in Hin. rewrite Hin. discriminate. }
  assert (HC : (phase_sector_boundary_fine_scan.min_index (c0 :: lc)
                < length ks)%nat).
  { rewrite <- Hlen. apply nth_error_Some.
    assert (Hin : In (phase_sector_boundary_fine_scan.min_index (c0 :: lc))
                     (phase_sector_boundary_fine_scan.indices_of
                        "C"%string labels))
      by (rewrite EC; apply min_index_In; discriminate).
    apply indices_of_In in Hin. rewrite Hin. discriminate. }
  rewrite (getitem_nth 0 ks _ HA), (getitem_nth 0 ks _ HC).
  eexists. reflexivity.
Qed.

Lemma fine_scan_outcome (ms ks : list R) :
  match phase_sector_boundary_fine_scan.scan solve_ivp ms ks with
  | Ok pts =>
      (length pts <= length ms)%nat
      /\ forall m x, In (m, x) pts ->
           In m ms
           /\ exists labels,
                phase_sector_boundary_fine_scan.sector_row solve_ivp m ks
                = Ok labels
                /\ phase_sector_boundary_fine_scan.detect_transition
                     ks labels = Ok (Some x)
  | Raise e => exists prob, solve_ivp prob = Raise e
  end.
Proof.
  induction ms as [| m0 rest IH]; [simpl; split; [lia | intros ? ? []] |].
  cbn [phase_sector_boundary_fine_scan.scan].
  pose proof (sector_row_outcome m0 ks) as Hrow.
  destruct (phase_sector_boundary_fine_scan.sector_row solve_ivp m0 ks)
    as [labels | e] eqn:Erow; cbn [bind]; [| exact Hrow].
  destruct (detect_transition_returns ks labels Hrow) as [res Hres].
  rewrite Hres. cbn [bind].
  destruct (phase_sector_boundary_fine_scan.scan solve_ivp rest ks)
    as [tl | e]; cbn [bind]; [| exact IH].
  destruct IH as [Hlen Hin].
  destruct res as [k_crit |].
  - split; [simpl; lia |]. intros m x [E | H].
    + inversion E; subst. split; [now left |].
      exists labels. now split.
    + destruct (Hin m x H) as [H1 H2]. split; [now right | exact H2].
  - split; [simpl; lia |]. intros m x H.
    destruct (Hin m x H) as [H1 H2]. split; [now right | exact H2].
Qed.
End ScanExceptions.

(** X25. The fine scan reports at most one boundary point per m_phi
    value; each reported point (m, k_crit) has m among the scanned values,
    and k_crit is the boundary detected on the labels of that row.  The
    only exceptions of the scan are those of the integrator: the boundary
    detection itself raises nothing. *)
Theorem fine_scan_sound (solve_ivp : phase_evolution_ode.solver)
    (ms ks : list R) :
  (forall pts,
      phase_sector_boundary_fine_scan.scan solve_ivp ms ks = Ok pts ->
      (length pts <= length ms)%nat
      /\ forall m x, In (m, x) pts ->
           In m ms
           /\ exists labels,
                phase_sector_boundary_fine_scan.sector_row solve_ivp m ks
                = Ok labels
                /\ phase_sector_boundary_fine_scan.detect_transition
                     ks labels = Ok (Some x))
  /\ (forall e,
         phase_sector_boundary_fine_scan.scan solve_ivp ms ks = Raise e ->
         exists prob, solve_ivp prob = Raise e).
Proof.
  pose proof (fine_scan_outcome solve_ivp ms ks) as H.
  split.
  - intros pts E. now rewrite E in H.
  - intros e E. now rewrite E in H.
Qed.

Lemma fine_scan_sound_witness :
  exists prob, solver_failing_at_02 prob = Raise SolverError.
Proof.
  refine (proj2 (fine_scan_sound solver_failing_at_02 [0.2] [0.0])
            SolverError _).
  unfold phase_sector_boundary_fine_scan.scan,
    phase_sector_boundary_fine_scan.sector_row,
    phase_evolution_ode.run_phase_evolution, solver_failing_at_02.
  simpl. destruct (Req_dec_T 0.2 0.2); [reflexivity | lra].
Defined.

Lemma scan_loop_raise_origin (solve_ivp : phase_evolution_ode.solver)
    (pts : list (R * R * R * R))
    (written : list phase_sector_scan.summary_row) (e : exn) :
  snd (phase_sector_scan.scan_loop solve_ivp pts written) = Raise e ->
  exists pt, In pt pts /\ solve_ivp (problem_of pt) = Raise e.
Proof.
  revert written. induction pts as [| pt rest IH]; intros written;
    [discriminate |].
  cbn [phase_sector_scan.scan_loop].
  destruct (phase_sector_scan.scan_point solve_ivp pt) as [r | e'] eqn:E.
  - intros H. destruct (IH _ H) as (pt' & Hin & Hp).
    exists pt'. split; [now right | exact Hp].
  - simpl. intros H. inversion H; subst. exists pt. split; [now left |].
    destruct pt as [[[m k] q] d].
    unfold phase_sector_scan.scan_point,
      phase_evolution_ode.run_phase_evolution in E.
    unfold problem_of. destruct (solve_ivp _);
      [discriminate | simpl in E; congruence].
Qed.

(** X26. The sweep ends with an exception only when the integrator raised
    that exception at one of the grid points: classification and the tail
    statistics raise nothing, even on an empty trajectory. *)
Theorem sweep_raises_only_solver_errors
    (solve_ivp : phase_evolution_ode.solver) (e : exn) :
  snd (phase_sector_scan.main solve_ivp) = Raise e ->
  exists pt,
    In pt (phase_sector_scan.grid_points
             phase_sector_scan.m_phi_list phase_sector_scan.k_rot_list
             phase_sector_scan.q_list phase_sector_scan.delta_phi_ini_list)
    /\ solve_ivp (problem_of pt) = Raise e.
Proof.
  unfold phase_sector_scan.main. apply scan_loop_raise_origin.
Qed.

Lemma sweep_raises_only_solver_errors_witness :
  exists pt,
    In pt (phase_sector_scan.grid_points
             phase_sector_scan.m_phi_list phase_sector_scan.k_rot_list
             phase_sector_scan.q_list phase_sector_scan.delta_phi_ini_list)
    /\ solver_failing_at_02 (problem_of pt) = Raise SolverError.
Proof.
  apply (sweep_raises_only_solver_errors solver_failing_at_02 SolverError).
  unfold phase_sector_scan.main. simpl.
  unfold phase_evolution_ode.run_phase_evolution, solver_failing_at_02.
  simpl. destruct (Req_dec_T 0.2 0.2); [reflexivity | lra].
Defined.
